(** * The synthetic corruption engine of [corrupt_data.py]

    A shallow embedding of [DataErrorGenerator] and the properties its
    specification states about it.

    Conventions of the model.
    - Python values that occur in table cells are the type [pyval]; the two
      missing markers of pandas ([None] and [NaN]) are both kept, [pd.isna]
      is [isna].
    - A finite Python float is the rational it denotes ([Q]).  The float
      operations of the engine, the sum of a coordinate and its jitter and
      the product that counts the missing values, round to the nearest
      binary64 float ([round64]); infinities are not modelled, and the
      conversions between floats and text are taken on the exact value.
    - Python strings are modelled by [string], as ASCII text: case mapping
      and the classes of digits and whitespace are the ASCII ones, and the
      statements that depend on case mapping are made of ASCII text.
    - The module [random] is a tape of raw draws threaded through the state;
      every function of [random] the engine calls is defined from one raw
      draw by its documented range.
    - Exceptions that leave a method are the [Raise] outcome of the monad
      [M]; a [try]/[except] of the source is written at the call that can
      raise. *)

From Stdlib Require Import Ascii String QArith Qabs Qround Lqa.
From stdpp Require Import gmap strings list fin_maps pretty.

Open Scope Z_scope.

(** ** Python values *)

Inductive pyval :=
  | PNone
  | PNaN
  | PStr (s : string)
  | PInt (z : Z)
  | PFloat (q : Q).

#[global] Instance Q_eq_dec : EqDecision Q.
Proof. intros [a b] [c d]. unfold Decision. decide equality; apply _ || apply Pos.eq_dec || apply Z.eq_dec. Defined.

#[global] Instance pyval_eq_dec : EqDecision pyval.
Proof. intros x y. unfold Decision. decide equality; try apply Z.eq_dec; try apply String.string_dec; apply Q_eq_dec. Defined.

(** [pd.isna] and [pd.notna] on a scalar. *)
Definition isna (v : pyval) : bool :=
  match v with
  | PNone | PNaN => true
  | _ => false
  end.

Definition notna (v : pyval) : bool := negb (isna v).

(** ** Exceptions, state and the monad of the engine *)

Inductive exn :=
  | ValueError
  | TypeError
  | KeyError
  | AttributeError
  | IndexError
  | OverflowError.

(** [VariantSet]: the dictionary built by [_get_station_variants]. *)
Record Variants := mkVariants {
  names : list pyval;
  ids : list pyval;
  coordinates : list (pyval * pyval)
}.

(** A table as [pd.read_csv] builds it: the column labels, and the rows in
    the order of the default index [0 .. n-1], one cell per column. *)
Record DataFrame := mkDataFrame {
  columns : list string;
  rows : list (list pyval)
}.

#[global] Instance DataFrame_eq_dec : EqDecision DataFrame.
Proof. solve_decision. Defined.

(** The mutable state of one run: the attribute [station_variants] of the
    generator, the state of the module [random], and the [DataFrame]
    objects alive, addressed by their position in [frames]. *)
Record world := mkWorld {
  station_variants : gmap string Variants;
  tape : list N;
  frames : list DataFrame
}.

Inductive outcome (A : Type) :=
  | Ok (a : A) (w : world)
  | Raise (e : exn).
Arguments Ok {A} a w.
Arguments Raise {A} e.

Definition M (A : Type) : Type := world -> outcome A.

#[global] Instance M_ret : MRet M := fun A a w => Ok a w.

#[global] Instance M_bind : MBind M := fun A B k m w =>
  match m w with
  | Ok a w' => k a w'
  | Raise e => Raise e
  end.

Definition raise {A} (e : exn) : M A := fun _ => Raise e.

Fixpoint mapM {A B} (f : A -> M B) (l : list A) : M (list B) :=
  match l with
  | [] => mret []
  | x :: l' => y ← f x; ys ← mapM f l'; mret (y :: ys)
  end.

Fixpoint foldM {A B} (f : B -> A -> M B) (b : B) (l : list A) : M B :=
  match l with
  | [] => mret b
  | x :: l' => b' ← f b x; foldM f b' l'
  end.

(** ** The module [random] *)

(** One raw draw; an exhausted tape keeps giving 0. *)
Definition next_raw : M N :=
  fun w => match tape w with
           | [] => Ok 0%N w
           | x :: t => Ok x (mkWorld (station_variants w) t (frames w))
           end.

Definition two53 : positive := 9007199254740992.

(** [random.random()]: 53 random bits over 2^53, a float in [0, 1). *)
Definition random_random : M Q :=
  n ← next_raw; mret (Z.of_N n mod Zpos two53 # two53).

(** [random.randint(a, b)], used with [a <= b] only. *)
Definition random_randint (a b : Z) : M Z :=
  n ← next_raw; mret (a + Z.of_N n mod (b - a + 1)).

(** [random.uniform(a, b)] is [a + (b - a) * random()].  The engine calls
    it with -1 and 1 only, where the product and the sum are exact in
    floats: every multiple of 2^-52 between -1 and 1 is a float. *)
Definition random_uniform (a b : Q) : M Q :=
  r ← random_random; mret (a + (b - a) * r)%Q.

(** [random.choice(seq)]; [IndexError] on an empty sequence. *)
Definition random_choice {A} (l : list A) : M A :=
  match l with
  | [] => raise IndexError
  | d :: _ => n ← next_raw; mret (nth (N.to_nat n mod length l)%nat l d)
  end.

(** [random.sample(range(n), k)]: [k] distinct positions below [n];
    [ValueError] when [k] is negative or larger than the population. *)
Fixpoint sample_from (pool : list nat) (k : nat) : M (list nat) :=
  match k with
  | O => mret []
  | S k' =>
      r ← next_raw;
      let j := (N.to_nat r mod length pool)%nat in
      rest ← sample_from (take j pool ++ drop (S j) pool) k';
      mret (nth j pool O :: rest)
  end.

Definition random_sample_range (n : nat) (k : Z) : M (list nat) :=
  if (k <? 0) || (Z.of_nat n <? k) then raise ValueError
  else sample_from (seq 0 n) (Z.to_nat k).

(** ** Strings *)

Definition ascii_in (lo hi : nat) (c : ascii) : bool :=
  let n := nat_of_ascii c in (lo <=? n)%nat && (n <=? hi)%nat.

Definition is_upper (c : ascii) : bool := ascii_in 65 90 c.
Definition is_lower (c : ascii) : bool := ascii_in 97 122 c.
Definition is_digit (c : ascii) : bool := ascii_in 48 57 c.

(** The characters the pattern [\s] matches. *)
Definition is_space (c : ascii) : bool :=
  ascii_in 9 13 c || ascii_in 28 32 c.

Definition to_upper (c : ascii) : ascii :=
  if is_lower c then ascii_of_nat (nat_of_ascii c - 32) else c.

Definition to_lower (c : ascii) : ascii :=
  if is_upper c then ascii_of_nat (nat_of_ascii c + 32) else c.

Fixpoint string_map (f : ascii -> ascii) (s : string) : string :=
  match s with
  | EmptyString => EmptyString
  | String c s' => String (f c) (string_map f s')
  end.

(** [str.upper] and [str.lower], on ASCII text.  Python maps the
    characters of every script, some of them to several characters; on
    the 128 ASCII characters it changes the 26 letters only, as here.
    The statements that depend on the case of letters are made of ASCII
    text. *)
Definition py_upper : string -> string := string_map to_upper.
Definition py_lower : string -> string := string_map to_lower.

(** [str.title], on ASCII text: a letter that follows a letter is lowered,
    any other letter is raised. *)
Fixpoint title_from (prev_cased : bool) (s : string) : string :=
  match s with
  | EmptyString => EmptyString
  | String c s' =>
      if is_upper c || is_lower c
      then String (if prev_cased then to_lower c else to_upper c)
                  (title_from true s')
      else String c (title_from false s')
  end.

Definition py_title : string -> string := title_from false.

(** [s.replace(c, new)] for a one-character [c]. *)
Fixpoint py_replace_char (c : ascii) (new : string) (s : string) : string :=
  match s with
  | EmptyString => EmptyString
  | String d s' =>
      if Ascii.eqb c d then new +:+ py_replace_char c new s'
      else String d (py_replace_char c new s')
  end.

(** [re.sub(r'\s+', new, s)]: every maximal run of whitespace becomes
    [new]. *)
Fixpoint sub_spaces_from (in_run : bool) (new : string) (s : string) : string :=
  match s with
  | EmptyString => EmptyString
  | String c s' =>
      if is_space c
      then (if in_run then sub_spaces_from true new s'
            else new +:+ sub_spaces_from true new s')
      else String c (sub_spaces_from false new s')
  end.

Definition re_sub_spaces : string -> string -> string := sub_spaces_from false.

(** [sub in s] on strings. *)
Fixpoint py_contains (sub s : string) : bool :=
  String.prefix sub s ||
  match s with
  | EmptyString => false
  | String _ s' => py_contains sub s'
  end.

(** [' '.join(value[i:i+2] for i in range(0, len(value), 2))]. *)
Fixpoint space_pairs (s : string) : string :=
  match s with
  | String a (String b rest) =>
      match rest with
      | EmptyString => s
      | _ => String a (String b (String " " (space_pairs rest)))
      end
  | _ => s
  end.

(** ** Floats

    A finite [float] is the rational it denotes.  Every float operation
    and every conversion to [float] returns the float nearest to the exact
    result, ties going to the even significand: 53 bits of precision,
    exponents from -1074 up.  Results beyond the largest float (the
    infinities) are not modelled. *)

(** The integer nearest to [n / d], for [0 < d]. *)
Definition round_half_even (n d : Z) : Z :=
  let q := n / d in
  let r := n mod d in
  if 2 * r <? d then q
  else if d <? 2 * r then q + 1
  else if Z.even q then q else q + 1.

(** The exponent of the last bit of the float nearest to [a / d], for
    positive [a] and [d]: 52 below the exponent of the first bit. *)
Definition float_exponent (a d : Z) : Z :=
  let la := Z.log2 a in
  let ld := Z.log2 d in
  let l := if d * 2 ^ la <=? a * 2 ^ ld then la - ld else la - ld - 1 in
  Z.max (l - 52) (-1074).

Definition round64 (q : Q) : Q :=
  let a := Z.abs (Qnum q) in
  let d := Zpos (Qden q) in
  if a =? 0 then 0%Q
  else
    let e := float_exponent a d in
    let m := round_half_even (a * 2 ^ Z.max 0 (- e)) (d * 2 ^ Z.max 0 e) in
    let r := if 0 <=? e then inject_Z (m * 2 ^ e) else m # Z.to_pos (2 ^ (- e)) in
    if Qnum q <? 0 then (- r)%Q else r.

(** [int(x)] on a float: towards zero. *)
Definition truncate (q : Q) : Z := Z.quot (Qnum q) (Zpos (Qden q)).

(** ** Numbers and their text *)

Definition digit_val (c : ascii) : Z := Z.of_nat (nat_of_ascii c) - 48.

Fixpoint drop_spaces (s : string) : string :=
  match s with
  | String c s' => if is_space c then drop_spaces s' else s
  | EmptyString => s
  end.

(** [str.strip]. *)
Definition py_strip (s : string) : string :=
  String.rev (drop_spaces (String.rev (drop_spaces s))).

(** A run of decimal digits in which single underscores may separate
    digits; the value and the number of digits read. *)
Fixpoint digits_from (acc : Z) (count : nat) (after_digit : bool) (s : string)
  : option (Z * nat) :=
  match s with
  | EmptyString => if after_digit then Some (acc, count) else None
  | String c s' =>
      if is_digit c then digits_from (10 * acc + digit_val c) (S count) true s'
      else if Ascii.eqb c "_"
           then (if after_digit then digits_from acc count false s' else None)
           else None
  end.

Definition split_sign (s : string) : bool * string :=
  match s with
  | String "-" s' => (true, s')
  | String "+" s' => (false, s')
  | _ => (false, s)
  end.

(** [int(s)] on a string, [None] for [ValueError]. *)
Definition py_int_str (s : string) : option Z :=
  let '(neg, body) := split_sign (py_strip s) in
  '(n, _) ← digits_from 0 0 false body;
  Some (if neg then - n else n).

Fixpoint split_dot (s : string) : string * option string :=
  match s with
  | EmptyString => (EmptyString, None)
  | String c s' =>
      if Ascii.eqb c "." then (EmptyString, Some s')
      else let '(a, b) := split_dot s' in (String c a, b)
  end.

(** [float(s)] on a string, [None] for [ValueError].  Decimal literals
    only: [float] also reads exponents, [inf] and [nan], all of which
    [int] rejects. *)
Definition py_float_str (s : string) : option Q :=
  let '(neg, body) := split_sign (py_strip s) in
  '(n, k) ←
    match split_dot body with
    | (ip, None) => digits_from 0 0 false ip
    | (EmptyString, Some fp) => digits_from 0 0 false fp
    | (ip, Some EmptyString) => '(i, _) ← digits_from 0 0 false ip; Some (i, O)
    | (ip, Some fp) =>
        '(i, _) ← digits_from 0 0 false ip;
        '(f, k) ← digits_from 0 0 false fp;
        Some (i * 10 ^ Z.of_nat k + f, k)
    end;
  let q := match split_dot body with
           | (_, None) => inject_Z n
           | _ => n # Z.to_pos (10 ^ Z.of_nat k)
           end in
  Some (if neg then - q else q)%Q.

Fixpoint frac_digits (fuel : nat) (num den : Z) : string :=
  match fuel with
  | O => EmptyString
  | S fuel' =>
      if num =? 0 then EmptyString
      else let d := 10 * num / den in
           String (ascii_of_nat (48 + Z.to_nat d))
                  (frac_digits fuel' (10 * num - d * den) den)
  end.

(** [str(x)] of a float: integer part, point, and the decimals (at most
    17, at least one). *)
Definition float_str (q : Q) : string :=
  let n := Qnum q in
  let d := Zpos (Qden q) in
  let a := Z.abs n in
  (if n <? 0 then "-" else "") +:+ pretty (a / d) +:+ "." +:+
  (if a mod d =? 0 then "0" else frac_digits 17 (a mod d) d).

(** [str(x)]. *)
Definition py_str (v : pyval) : string :=
  match v with
  | PNone => "None"
  | PNaN => "nan"
  | PStr s => s
  | PInt z => pretty z
  | PFloat q => float_str q
  end.

(** [float(x)] and [int(x)]; [None] stands for [ValueError] or
    [TypeError]. *)
Definition py_float (v : pyval) : option Q :=
  match v with
  | PStr s => py_float_str s
  | PInt z => Some (inject_Z z)
  | PFloat q => Some q
  | PNone | PNaN => None
  end.

Definition py_int (v : pyval) : option Z :=
  match v with
  | PStr s => py_int_str s
  | PInt z => Some z
  | PFloat q => Some (Z.quot (Qnum q) (Zpos (Qden q)))
  | PNone | PNaN => None
  end.

(** [x < y] on floats. *)
Definition Qlt_bool (x y : Q) : bool := negb (Qle_bool y x).

(** ** [datetime] *)

Record datetime := mkDatetime {
  year : Z; month : Z; day : Z; hour : Z; minute : Z; second : Z
}.

#[global] Instance datetime_eq_dec : EqDecision datetime.
Proof. solve_decision. Defined.

Definition is_leap (y : Z) : bool :=
  (y mod 4 =? 0) && (negb (y mod 100 =? 0) || (y mod 400 =? 0)).

Definition days_in_month (y m : Z) : Z :=
  if m =? 2 then (if is_leap y then 29 else 28)
  else if (m =? 4) || (m =? 6) || (m =? 9) || (m =? 11) then 30
  else 31.

(** The constructor [datetime(y, m, d, H, M, S)] raises [ValueError]
    outside these ranges. *)
Definition valid_datetime (dt : datetime) : bool :=
  (1 <=? year dt) && (year dt <=? 9999) &&
  (1 <=? month dt) && (month dt <=? 12) &&
  (1 <=? day dt) && (day dt <=? days_in_month (year dt) (month dt)) &&
  (0 <=? hour dt) && (hour dt <=? 23) &&
  (0 <=? minute dt) && (minute dt <=? 59) &&
  (0 <=? second dt) && (second dt <=? 59).

(** Days of the proleptic Gregorian calendar, counted from 1970-01-01. *)
Definition days_from_civil (y m d : Z) : Z :=
  let y' := if m <=? 2 then y - 1 else y in
  let era := y' / 400 in
  let yoe := y' - era * 400 in
  let doy := (153 * (if 2 <? m then m - 3 else m + 9) + 2) / 5 + d - 1 in
  let doe := yoe * 365 + yoe / 4 - yoe / 100 + doy in
  era * 146097 + doe - 719468.

Definition civil_from_days (z : Z) : Z * Z * Z :=
  let z' := z + 719468 in
  let era := z' / 146097 in
  let doe := z' - era * 146097 in
  let yoe := (doe - doe / 1460 + doe / 36524 - doe / 146096) / 365 in
  let doy := doe - (365 * yoe + yoe / 4 - yoe / 100) in
  let mp := (5 * doy + 2) / 153 in
  let d := doy - (153 * mp + 2) / 5 + 1 in
  let m := if mp <? 10 then mp + 3 else mp - 9 in
  ((yoe + era * 400) + (if m <=? 2 then 1 else 0), m, d).

(** [datetime.timedelta], in seconds. *)
Definition timedelta := Z.
Definition td_hours (n : Z) : timedelta := n * 3600.
Definition td_days (n : Z) : timedelta := n * 86400.
Definition td_weeks (n : Z) : timedelta := n * 604800.

Definition to_seconds (dt : datetime) : Z :=
  days_from_civil (year dt) (month dt) (day dt) * 86400
  + hour dt * 3600 + minute dt * 60 + second dt.

Definition of_seconds (t : Z) : datetime :=
  let '(y, m, d) := civil_from_days (t / 86400) in
  let r := t mod 86400 in
  mkDatetime y m d (r / 3600) (r mod 3600 / 60) (r mod 60).

(** [dt - delta]; [None] is the [OverflowError] of a date out of the
    range of years 1 to 9999. *)
Definition datetime_sub (dt : datetime) (delta : timedelta) : option datetime :=
  let r := of_seconds (to_seconds dt - delta) in
  if (1 <=? year r) && (year r <=? 9999) then Some r else None.

(** *** [strftime] *)

Fixpoint pad_left (fuel width : nat) (s : string) : string :=
  match fuel with
  | O => s
  | S fuel' =>
      if (String.length s <? width)%nat
      then pad_left fuel' width (String "0" s) else s
  end.

Definition zfill (n : nat) (z : Z) : string := pad_left n n (pretty z).

Definition strftime_directive (c : ascii) (dt : datetime) : string :=
  if Ascii.eqb c "Y" then zfill 4 (year dt)
  else if Ascii.eqb c "m" then zfill 2 (month dt)
  else if Ascii.eqb c "d" then zfill 2 (day dt)
  else if Ascii.eqb c "H" then zfill 2 (hour dt)
  else if Ascii.eqb c "M" then zfill 2 (minute dt)
  else if Ascii.eqb c "S" then zfill 2 (second dt)
  else String "%" (String c EmptyString).

Fixpoint strftime (dt : datetime) (fmt : string) : string :=
  match fmt with
  | String "%" (String c rest) => strftime_directive c dt +:+ strftime dt rest
  | String c rest => String c (strftime dt rest)
  | EmptyString => EmptyString
  end.

(** *** [strptime]

    [datetime.strptime] turns the format into a regular expression, matches
    it against the whole string and builds the [datetime] from the groups.
    A directive is an alternation of character-class sequences, tried in
    order; white space in the format is [\\s+]. *)

Definition cls := ascii -> bool.
Definition ch (c : ascii) : cls := Ascii.eqb c.
Definition rng (lo hi : ascii) : cls :=
  ascii_in (nat_of_ascii lo) (nat_of_ascii hi).

Definition directive_regex (c : ascii) : list (list cls) :=
  if Ascii.eqb c "Y" then [[is_digit; is_digit; is_digit; is_digit]]
  else if Ascii.eqb c "m" then
    [[ch "1"; rng "0" "2"]; [ch "0"; rng "1" "9"]; [rng "1" "9"]]
  else if Ascii.eqb c "d" then
    [[ch "3"; rng "0" "1"]; [rng "1" "2"; is_digit]; [ch "0"; rng "1" "9"];
     [rng "1" "9"]; [ch " "; rng "1" "9"]]
  else if Ascii.eqb c "H" then
    [[ch "2"; rng "0" "3"]; [rng "0" "1"; is_digit]; [is_digit]]
  else if Ascii.eqb c "M" then [[rng "0" "5"; is_digit]; [is_digit]]
  else if Ascii.eqb c "S" then
    [[ch "6"; rng "0" "1"]; [rng "0" "5"; is_digit]; [is_digit]]
  else [].

Inductive token :=
  | TDir (c : ascii)
  | TSpaces
  | TLit (c : ascii).

(** The tokens of a format; [after_space] merges a run of white space. *)
Fixpoint tokens_from (after_space : bool) (fmt : string) : list token :=
  match fmt with
  | EmptyString => []
  | String "%" (String c rest) => TDir c :: tokens_from false rest
  | String c rest =>
      if is_space c
      then (if after_space then tokens_from true rest
            else TSpaces :: tokens_from true rest)
      else TLit c :: tokens_from false rest
  end.

Definition tokens : string -> list token := tokens_from false.

(** Match a sequence of classes at the head of [s]: the value of the digits
    read and the rest. *)
Fixpoint match_classes (cs : list cls) (acc : Z) (s : string) : option (Z * string) :=
  match cs with
  | [] => Some (acc, s)
  | p :: cs' =>
      match s with
      | String c s' =>
          if p c
          then match_classes cs' (if is_digit c then 10 * acc + digit_val c else acc) s'
          else None
      | EmptyString => None
      end
  end.

Definition set_field (c : ascii) (v : Z) (dt : datetime) : datetime :=
  if Ascii.eqb c "Y" then mkDatetime v (month dt) (day dt) (hour dt) (minute dt) (second dt)
  else if Ascii.eqb c "m" then mkDatetime (year dt) v (day dt) (hour dt) (minute dt) (second dt)
  else if Ascii.eqb c "d" then mkDatetime (year dt) (month dt) v (hour dt) (minute dt) (second dt)
  else if Ascii.eqb c "H" then mkDatetime (year dt) (month dt) (day dt) v (minute dt) (second dt)
  else if Ascii.eqb c "M" then mkDatetime (year dt) (month dt) (day dt) (hour dt) v (second dt)
  else mkDatetime (year dt) (month dt) (day dt) (hour dt) (minute dt) v.

Fixpoint first_some {A B} (f : A -> option B) (l : list A) : option B :=
  match l with
  | [] => None
  | x :: l' => match f x with Some y => Some y | None => first_some f l' end
  end.

(** The rests of [s] after one or more white-space characters, longest run
    first. *)
Fixpoint space_rests (s : string) : list string :=
  match s with
  | String c s' => if is_space c then space_rests s' ++ [s'] else []
  | EmptyString => []
  end.

Fixpoint regex_match (toks : list token) (s : string) (dt : datetime)
  : option datetime :=
  match toks with
  | [] => match s with EmptyString => Some dt | _ => None end
  | TLit c :: toks' =>
      match s with
      | String d s' => if Ascii.eqb c d then regex_match toks' s' dt else None
      | EmptyString => None
      end
  | TSpaces :: toks' =>
      first_some (fun rest => regex_match toks' rest dt) (space_rests s)
  | TDir c :: toks' =>
      first_some
        (fun alt => match match_classes alt 0 s with
                    | Some (v, rest) => regex_match toks' rest (set_field c v dt)
                    | None => None
                    end)
        (directive_regex c)
  end.

(** [datetime.datetime.strptime(s, fmt)] on a string; [None] is
    [ValueError]. *)
Definition strptime (s fmt : string) : option datetime :=
  dt ← regex_match (tokens fmt) s (mkDatetime 1900 1 1 0 0 0);
  if valid_datetime dt then Some dt else None.

Definition base_datetime_format : string := "%Y-%m-%d %H:%M:%S".

(** [strptime] on a cell: a value that is not a string is a [TypeError],
    which the callers catch with [ValueError]. *)
Definition strptime_val (v : pyval) (fmt : string) : option datetime :=
  match v with
  | PStr s => strptime s fmt
  | _ => None
  end.

(** ** The generator *)

(** The attributes of [DataErrorGenerator] that [__init__] fixes; the
    dictionary [station_variants] is the mutable part and lives in
    [world].  [valid_start] and [valid_end] are read by
    [_generate_invalid_datetime] only and are given with it;
    [coordinate_variants] is read by no method. *)
Record DataErrorGenerator := mkGenerator {
  error_prob : Q;
  max_empty_percentage : Q
}.

Definition get_variants (s : string) : M (option Variants) :=
  fun w => Ok (station_variants w !! s) w.

Definition put_variants (s : string) (v : Variants) : M unit :=
  fun w => Ok tt (mkWorld (<[s:=v]> (station_variants w)) (tape w) (frames w)).

Section Methods.
Variable self : DataErrorGenerator.

(** [_should_introduce_error] *)
Definition should_introduce_error : M bool :=
  r ← random_random; mret (Qlt_bool r (error_prob self)).

(** [_format_datetime] *)
Definition formats : list (string * (string -> string)) :=
  [ ("%Y/%m/%d %H:%M:%S", fun x => x);
    ("%Y%m%d %H:%M:%S", fun x => x);
    ("%Y-%m-%d %H%M%S", fun x => py_replace_char ":" "" x);
    ("%Y-%m-%d-%H-%M-%S",
     fun x => py_replace_char ":" "-" (py_replace_char " " "-" x)) ].

Definition format_datetime (dt_str : pyval) : M pyval :=
  match strptime_val dt_str base_datetime_format with
  | Some dt =>
      '(chosen_format, transformer) ← random_choice formats;
      mret (PStr (strftime dt chosen_format))
  | None => mret dt_str
  end.

(** [_modify_ride_id] *)
Fixpoint lower_some (s : string) : M string :=
  match s with
  | EmptyString => mret EmptyString
  | String c s' =>
      r ← random_random;
      rest ← lower_some s';
      mret (String (if Qlt_bool r (3 # 10) then to_lower c else c) rest)
  end.

Definition modify_ride_id (value : pyval) : M pyval :=
  if isna value then mret value
  else
    g1 ← should_introduce_error;
    value ← (if g1 : bool
             then match value with
                  | PStr s => mret (PStr (space_pairs s))
                  | _ => raise TypeError
                  end
             else mret value);
    g2 ← should_introduce_error;
    if g2 : bool
    then match value with
         | PStr s => s' ← lower_some s; mret (PStr s')
         | _ => raise TypeError
         end
    else mret value.

(** [_modify_rideable_type] *)
Definition rideable_errors : list (string * list string) :=
  [ ("classic_bike", ["class_bike"; "classic_bik"; "clasic_bike"; "classic bike"]);
    ("electric_bike", ["electrc_bike"; "electric bike"; "eclectic_bike"; "elektric_bike"]) ].

Fixpoint first_containing (errors : list (string * list string)) (value : string)
  : option (list string) :=
  match errors with
  | [] => None
  | (correct, variants) :: errors' =>
      if py_contains correct value then Some variants
      else first_containing errors' value
  end.

Definition modify_rideable_type (value : pyval) : M pyval :=
  if isna value then mret value
  else
    g ← should_introduce_error;
    if g : bool
    then match value with
         | PStr s =>
             match first_containing rideable_errors s with
             | Some variants => v ← random_choice variants; mret (PStr v)
             | None => mret value
             end
         | _ => raise TypeError
         end
    else mret value.

(** [_modify_datetime].  The [except] clause is reached from the one
    [strptime] of the second branch, with the values [start_dt] and
    [end_dt] have at that point; the subtraction can leave the range of
    [datetime], which is an [OverflowError] and is not caught. *)
Definition modify_datetime (start_dt end_dt : pyval) : M (pyval * pyval) :=
  if isna start_dt || isna end_dt then mret (start_dt, end_dt)
  else
    g1 ← should_introduce_error;
    '(start_dt, end_dt) ←
      (if g1 : bool
       then s ← format_datetime start_dt;
            e ← format_datetime end_dt;
            mret (s, e)
       else mret (start_dt, end_dt));
    g2 ← should_introduce_error;
    if g2 : bool
    then match strptime_val start_dt base_datetime_format with
         | Some dt =>
             h ← random_randint 1 24;
             d ← random_randint 1 7;
             w ← random_randint 1 4;
             time_difference ← random_choice [td_hours h; td_days d; td_weeks w];
             match datetime_sub dt time_difference with
             | Some dt' => mret (start_dt, PStr (strftime dt' base_datetime_format))
             | None => raise OverflowError
             end
         | None => mret (start_dt, end_dt)
         end
    else mret (start_dt, end_dt).

(** [_get_station_variants] *)
Definition is_None (v : pyval) : bool :=
  match v with PNone => true | _ => false end.

(** [base + variation] with a float on the right: the sum is a float sum,
    an integer cell is converted to a float first, [nan] stays [nan]. *)
Definition add_float (base : pyval) (variation : Q) : M pyval :=
  match base with
  | PFloat q => mret (PFloat (round64 (q + variation)))
  | PInt z => mret (PFloat (round64 (round64 (inject_Z z) + variation)))
  | PNaN => mret PNaN
  | _ => raise TypeError
  end.

Fixpoint jitter (n : nat) (base_lat base_lng : pyval) (acc : list (pyval * pyval))
  : M (list (pyval * pyval)) :=
  match n with
  | O => mret acc
  | S n' =>
      lat_variation ← random_uniform (-1) 1;
      lng_variation ← random_uniform (-1) 1;
      la ← add_float base_lat lat_variation;
      ln ← add_float base_lng lng_variation;
      jitter n' base_lat base_lng (acc ++ [(la, ln)])
  end.

Definition id_variants_of (station_id : pyval) : list pyval :=
  if isna station_id then [station_id]
  else match py_float station_id with
       | Some f =>
           let float_id := (f + (1 # 10))%Q in
           match py_int station_id with
           | Some i =>
               let int_id := i + 1 in
               [PStr (py_str station_id); PStr (float_str float_id);
                PStr (pretty int_id)]
           | None => [PStr (py_str station_id)]
           end
       | None => [PStr (py_str station_id)]
       end.

Definition name_variants_of (name : string) : list pyval :=
  [PStr name; PStr (py_title name); PStr (py_upper name);
   PStr (py_replace_char "&" "and" name); PStr (re_sub_spaces "  " name)].

Definition get_station_variants (name station_id lat lng : pyval) : M Variants :=
  if isna name
  then mret (mkVariants [name] [station_id] [(lat, lng)])
  else
    cached ← match name with
             | PStr s => get_variants s
             | _ => mret None
             end;
    match cached with
    | Some v => mret v
    | None =>
        num_variants ← random_randint 3 4;
        coordinate_variants ←
          (if negb (is_None lat) && negb (is_None lng)
              && negb (isna lat || isna lng)
           then jitter (Z.to_nat num_variants) lat lng []
           else mret [(lat, lng)]);
        let id_variants := id_variants_of station_id in
        match name with
        | PStr s =>
            let v := mkVariants (name_variants_of s) id_variants
                                coordinate_variants in
            _ ← put_variants s v;
            mret v
        | _ => raise AttributeError
        end
    end.

(** [_modify_station_name] *)
Definition modify_station_name (name station_id : pyval) : M (pyval * pyval) :=
  if isna name || isna station_id then mret (name, station_id)
  else
    variants ← get_station_variants name station_id PNone PNone;
    let modified_name := name in
    let modified_id := PStr (py_str station_id) in
    g1 ← should_introduce_error;
    modified_name ← (if g1 : bool then random_choice (names variants)
                     else mret modified_name);
    g2 ← should_introduce_error;
    modified_id ← (if g2 : bool then random_choice (ids variants)
                   else mret modified_id);
    mret (modified_name, modified_id).

(** [_modify_coordinates] *)
Definition modify_coordinates (lat lng station_name station_id : pyval)
  : M (pyval * pyval) :=
  if isna station_name || isna lat || isna lng then mret (lat, lng)
  else
    g ← should_introduce_error;
    if g : bool
    then variants ← get_station_variants station_name station_id lat lng;
         random_choice (coordinates variants)
    else mret (lat, lng).

(** [_modify_member_type] *)
Definition member_errors : list (string * list string) :=
  [ ("member", ["Member"; "MEMBER"; "membr"; "Members"]);
    ("casual", ["Casual"; "CASUAL"; "causual"; "Casuals"]) ].

Fixpoint first_equal_lower (errors : list (string * list string)) (value : string)
  : option (list string) :=
  match errors with
  | [] => None
  | (correct, variants) :: errors' =>
      if String.eqb (py_lower correct) (py_lower value) then Some variants
      else first_equal_lower errors' value
  end.

Definition modify_member_type (value : pyval) : M pyval :=
  if isna value then mret value
  else
    g ← should_introduce_error;
    if g : bool
    then match value with
         | PStr s =>
             match first_equal_lower member_errors s with
             | Some variants => v ← random_choice variants; mret (PStr v)
             | None => mret value
             end
         | _ => raise AttributeError
         end
    else mret value.
End Methods.

(** ** Tables *)

(** [df.at[idx, col]] on the row [idx]; a label that is no column is a
    [KeyError]. *)
Fixpoint lookup_col (cols : list string) (row : list pyval) (col : string)
  : option pyval :=
  match cols, row with
  | c :: cols', x :: row' =>
      if String.eqb c col then Some x else lookup_col cols' row' col
  | _, _ => None
  end.

Definition at_get (cols : list string) (row : list pyval) (col : string) : M pyval :=
  match lookup_col cols row col with
  | Some v => mret v
  | None => raise KeyError
  end.

(** The cells of a row under the label [col] replaced through [f]. *)
Fixpoint map_col (f : pyval -> pyval) (cols : list string) (col : string)
  (row : list pyval) : list pyval :=
  match cols, row with
  | c :: cols', x :: row' =>
      (if String.eqb c col then f x else x) :: map_col f cols' col row'
  | _, _ => row
  end.

(** [df.at[idx, col] = v] on the row [idx]: the cell holds [v]
    afterwards.  Where pandas keeps the column as floats it stores [nan]
    for [None]; the statements about missing cells are made with
    [isna]. *)
Definition at_set (cols : list string) (row : list pyval) (col : string) (v : pyval)
  : list pyval :=
  map_col (fun _ => v) cols col row.

(** [df.loc[indices, column] = None] under the default index: the cells
    chosen hold the missing marker afterwards.  pandas stores [None] in a
    column of objects and [nan] in a column of floats, and turns a column
    of integers into floats when a cell of it is emptied; the statements
    about the cells of such columns are made with [isna] and
    [retyped]. *)
Definition loc_set_none (indices : list nat) (column : string) (df : DataFrame)
  : DataFrame :=
  mkDataFrame (columns df)
    (imap (fun i row => if bool_decide (i ∈ indices)
                        then at_set (columns df) row column PNone
                        else row)
          (rows df)).

(** [df[col] = df[col].astype(str)]: every cell becomes its [str], the
    missing markers included. *)
Definition astype_str (col : string) (df : DataFrame) : M DataFrame :=
  if bool_decide (col ∈ columns df)
  then mret (mkDataFrame (columns df)
               (map (map_col (fun v => PStr (py_str v)) (columns df) col) (rows df)))
  else raise KeyError.

Definition read_frame (l : nat) : M DataFrame :=
  fun w => match frames w !! l with
           | Some df => Ok df w
           | None => Raise KeyError
           end.

Definition write_frame (l : nat) (df : DataFrame) : M unit :=
  fun w => Ok tt (mkWorld (station_variants w) (tape w) (<[l:=df]> (frames w))).

(** [df.copy()]: a new object with the same content. *)
Definition copy_frame (l : nat) : M nat :=
  fun w => match frames w !! l with
           | Some df =>
               Ok (length (frames w))
                  (mkWorld (station_variants w) (tape w) (frames w ++ [df]))
           | None => Raise KeyError
           end.

Section Pipeline.
Variable self : DataErrorGenerator.

Definition is_id_column (column : string) : bool :=
  String.eqb column "ride_id" || String.eqb column "start_station_id"
  || String.eqb column "end_station_id".

(** [int(num_rows * self.max_empty_percentage)]: the product is a float
    product.  [float(num_rows)] is [num_rows] itself up to 2^53 rows; no
    table in memory is larger, and beyond that bound the product is taken
    as the exact one. *)
Definition num_empty (num_rows : nat) : Z :=
  let x := (inject_Z (Z.of_nat num_rows) * max_empty_percentage self)%Q in
  truncate (if Z.of_nat num_rows <=? 2 ^ 53 then round64 x else x).

(** The first loop of [introduce_errors]: [df] is the table passed in,
    [df_with_errors] its copy. *)
Definition inject_column (df : DataFrame) (df_with_errors : DataFrame)
  (column : string) : M DataFrame :=
  if negb (is_id_column column)
  then
    let num_rows := length (rows df) in
    empty_indices ← random_sample_range num_rows (num_empty num_rows);
    mret (loc_set_none empty_indices column df_with_errors)
  else mret df_with_errors.

Definition inject_missing (df : DataFrame) (df_with_errors : DataFrame)
  : M DataFrame :=
  foldM (inject_column df) df_with_errors (columns df).

Definition id_columns : list string := ["start_station_id"; "end_station_id"].

(** The body of the loop over [df_with_errors.index]; every statement
    reads and writes cells of the row [idx] only. *)
Definition corrupt_row (cols : list string) (row : list pyval) : M (list pyval) :=
  ride_id ← at_get cols row "ride_id";
  new_id ← modify_ride_id self ride_id;
  let row := at_set cols row "ride_id" new_id in
  rideable ← at_get cols row "rideable_type";
  row ← (if notna rideable
         then v ← modify_rideable_type self rideable;
              mret (at_set cols row "rideable_type" v)
         else mret row);
  started ← at_get cols row "started_at";
  row ← (if notna started
         then ended ← at_get cols row "ended_at";
              if notna ended
              then '(start_dt, end_dt) ← modify_datetime self started ended;
                   mret (at_set cols (at_set cols row "started_at" start_dt)
                                "ended_at" end_dt)
              else mret row
         else mret row);
  start_name ← at_get cols row "start_station_name";
  row ← (if notna start_name
         then sid ← at_get cols row "start_station_id";
              '(name, station_id) ← modify_station_name self start_name sid;
              mret (at_set cols (at_set cols row "start_station_name" name)
                           "start_station_id" station_id)
         else mret row);
  end_name ← at_get cols row "end_station_name";
  row ← (if notna end_name
         then eid ← at_get cols row "end_station_id";
              '(name, station_id) ← modify_station_name self end_name eid;
              mret (at_set cols (at_set cols row "end_station_name" name)
                           "end_station_id" station_id)
         else mret row);
  start_lat ← at_get cols row "start_lat";
  row ← (if notna start_lat
         then start_lng ← at_get cols row "start_lng";
              name ← at_get cols row "start_station_name";
              sid ← at_get cols row "start_station_id";
              '(lat, lng) ← modify_coordinates self start_lat start_lng name sid;
              mret (at_set cols (at_set cols row "start_lat" lat) "start_lng" lng)
         else mret row);
  end_lat ← at_get cols row "end_lat";
  row ← (if notna end_lat
         then end_lng ← at_get cols row "end_lng";
              name ← at_get cols row "end_station_name";
              eid ← at_get cols row "end_station_id";
              '(lat, lng) ← modify_coordinates self end_lat end_lng name eid;
              mret (at_set cols (at_set cols row "end_lat" lat) "end_lng" lng)
         else mret row);
  member ← at_get cols row "member_casual";
  if notna member
  then v ← modify_member_type self member;
       mret (at_set cols row "member_casual" v)
  else mret row.

(** The statements of [introduce_errors] after the copy, on the content
    of the two tables. *)
Definition corrupt (df : DataFrame) (df_with_errors : DataFrame) : M DataFrame :=
  df_with_errors ← inject_missing df df_with_errors;
  df_with_errors ← foldM (fun d col => astype_str col d) df_with_errors id_columns;
  rows' ← mapM (corrupt_row (columns df_with_errors)) (rows df_with_errors);
  mret (mkDataFrame (columns df_with_errors) rows').

(** [introduce_errors(df)]: [df] and the result are references; the
    mutations of [df_with_errors] are written to its own object. *)
Definition introduce_errors (df : nat) : M nat :=
  df_with_errors ← copy_frame df;
  input ← read_frame df;
  content ← read_frame df_with_errors;
  result ← corrupt input content;
  _ ← write_frame df_with_errors result;
  mret df_with_errors.
End Pipeline.

(** ** [_generate_invalid_datetime]

    The attributes [valid_start] and [valid_end] are the same for every
    instance; [dt + delta] is [dt - (-delta)], with the same
    [OverflowError]. *)
Definition valid_start : datetime := mkDatetime 2024 1 1 0 0 0.
Definition valid_end : datetime := mkDatetime 2024 2 1 23 59 59.

Definition td (days hours minutes seconds : Z) : timedelta :=
  td_days days + td_hours hours + minutes * 60 + seconds.

Definition datetime_add (dt : datetime) (delta : timedelta) : option datetime :=
  datetime_sub dt (- delta).

Definition generate_invalid_datetime : M string :=
  r ← random_random;
  invalid_dt ←
    (if Qlt_bool r (1 # 2)
     then days ← random_randint 1 365;
          hours ← random_randint 0 23;
          minutes ← random_randint 0 59;
          seconds ← random_randint 0 59;
          match datetime_sub valid_start (td days hours minutes seconds) with
          | Some dt => mret dt
          | None => raise OverflowError
          end
     else days ← random_randint 1 365;
          hours ← random_randint 0 23;
          minutes ← random_randint 0 59;
          seconds ← random_randint 0 59;
          match datetime_add valid_end (td days hours minutes seconds) with
          | Some dt => mret dt
          | None => raise OverflowError
          end);
  mret (strftime invalid_dt base_datetime_format).


(** * The vocabulary of the statements *)

(** A computation respects a relation on states when every normal return
    relates the state before to the state after. *)
Definition respects (R : relation world) {A} (m : M A) : Prop :=
  forall w a w', m w = Ok a w' -> R w w'.

(** The registry and the live tables are the same before and after. *)
Definition only_tape (w w' : world) : Prop :=
  station_variants w' = station_variants w /\ frames w' = frames w.

(** Every entry of the registry is kept as it is; the live tables are not
    touched. *)
Definition extends (w w' : world) : Prop :=
  (forall s v, station_variants w !! s = Some v -> station_variants w' !! s = Some v)
  /\ frames w' = frames w.

(** The states of a run after [w]: any sequence of resolves, of name/id and
    coordinate mutations, and of whole row passes, with any arguments. *)
Inductive later (self : DataErrorGenerator) (w : world) : world -> Prop :=
  | later_now : later self w w
  | later_resolve w1 w2 name station_id lat lng v :
      later self w w1 ->
      get_station_variants name station_id lat lng w1 = Ok v w2 ->
      later self w w2
  | later_name w1 w2 name station_id r :
      later self w w1 ->
      modify_station_name self name station_id w1 = Ok r w2 ->
      later self w w2
  | later_coordinates w1 w2 lat lng name station_id r :
      later self w w1 ->
      modify_coordinates self lat lng name station_id w1 = Ok r w2 ->
      later self w w2
  | later_row w1 w2 cols row row' :
      later self w w1 ->
      corrupt_row self cols row w1 = Ok row' w2 ->
      later self w w2.

(** The number a present numeric cell holds. *)
Definition numeric (v : pyval) : option Q :=
  match v with
  | PFloat q => Some q
  | PInt z => Some (inject_Z z)
  | _ => None
  end.

(** The float a numeric cell stands for in a float operation. *)
Definition float_of (v : pyval) : option Q :=
  match v with
  | PFloat q => Some q
  | PInt z => Some (round64 (inject_Z z))
  | _ => None
  end.

(** A point made of the float sums of [la] and [lo] with two jitters from
    -1 (included) to 1 (excluded). *)
Definition jittered (la lo : Q) (p : pyval * pyval) : Prop :=
  exists u t, (-1 <= u < 1)%Q /\ (-1 <= t < 1)%Q
    /\ p = (PFloat (round64 (la + u)), PFloat (round64 (lo + t))).

(** The distance a float sum can be from the exact sum [x]: half a unit in
    the last place. *)
Definition half_ulp (x : Q) : Q := (Qabs x * (1 # 2 ^ 53) + (1 # 2 ^ 1075))%Q.

(** Equality of two cells as Python compares them: floats and integers by
    their value. *)
Definition cell_eqb (a b : pyval) : bool :=
  match numeric a, numeric b with
  | Some x, Some y => Qeq_bool x y
  | _, _ => bool_decide (a = b)
  end.

Definition point_eqb (p q : pyval * pyval) : bool :=
  cell_eqb p.1 q.1 && cell_eqb p.2 q.2.

(** The value and the state a run ends with. *)
Definition value_of {A} (o : outcome A) : option A :=
  match o with
  | Ok a _ => Some a
  | Raise _ => None
  end.

Definition state_of {A} (o : outcome A) : option world :=
  match o with
  | Ok _ w => Some w
  | Raise _ => None
  end.

(** A raw draw that makes [random.random()] return its largest value, so
    that no gate with a probability below one fires. *)
Definition quiet : N := 9007199254740991.

(** The state at the construction of a generator: an empty registry. *)
Definition fresh_world (t : list N) (fs : list DataFrame) : world :=
  mkWorld ∅ t fs.

(** The cell of row [i] under the label [c]. *)
Definition cell (df : DataFrame) (i : nat) (c : string) : option pyval :=
  row ← rows df !! i; lookup_col (columns df) row c.

(** A table: the column labels are distinct and every row has one cell
    per column. *)
Definition wf_frame (df : DataFrame) : Prop :=
  NoDup (columns df)
  /\ Forall (fun row => length row = length (columns df)) (rows df).

(** What the first loop does to a column of a table of [n] rows: nothing,
    or the missing marker at [k] distinct rows. *)
Definition untouched (before after : DataFrame) (c : string) : Prop :=
  forall i, cell after i c = cell before i c.

Definition emptied (n : nat) (k : Z) (before after : DataFrame) (c : string) : Prop :=
  exists indices w1 w2,
    random_sample_range n k w1 = Ok indices w2
    /\ NoDup indices /\ length indices = Z.to_nat k
    /\ (forall i, i ∈ indices -> (i < n)%nat)
    /\ forall i, cell after i c
         = if decide (i ∈ indices)
           then (fun _ => PNone) <$> cell before i c else cell before i c.

(** What pandas may do to a cell of a column in which other cells are
    emptied: nothing, or the conversion of an integer to a float (the
    column changes its type). *)
Definition retyped (v v' : pyval) : Prop :=
  v' = v \/ exists z, v = PInt z /\ v' = PFloat (round64 (inject_Z z)).

(** Draws for a sample from [m] rows: each is below the number of rows
    left when it is made, so that it is used as it is. *)
Fixpoint reduced (m : nat) (t : list N) : Prop :=
  match t with
  | [] => True
  | j :: t' => (N.to_nat j < m)%nat /\ reduced (m - 1) t'
  end.

(** The number of missing cells under the label [c]. *)
Definition count_missing (df : DataFrame) (c : string) : nat :=
  sum_list (map (fun row => match lookup_col (columns df) row c with
                            | Some v => if isna v then 1%nat else 0%nat
                            | None => 0%nat
                            end)
                (rows df)).

Definition all_ascii : list ascii := map ascii_of_nat (seq 0 256).

(** Digits and white space: what the directives of a format can read. *)
Definition plain (x : ascii) : bool := is_digit x || is_space x.

Definition alternate_formats : list string := fst <$> formats.

(** [m] returns from every state, with a value in [Q], and only draws. *)
Definition draws_to {A} (m : M A) (Q : A -> Prop) : Prop :=
  forall w, exists a w', m w = Ok a w' /\ Q a /\ only_tape w w'.

Definition is_str (v : pyval) : bool :=
  match v with PStr _ => true | _ => false end.

(** The types of the cells the methods accept without raising. *)
Definition str_or_na (v : pyval) : bool := is_str v || isna v.

Definition num_or_na (v : pyval) : bool := negb (is_str v).

Definition date_ok (v : pyval) : bool :=
  match strptime_val v base_datetime_format with
  | Some dt => 2 <=? year dt
  | None => true
  end.

(** A variant set the mutations can draw from without raising: no pool is
    empty, the names are text and the coordinates are not. *)
Definition wf_variants (v : Variants) : Prop :=
  names v <> [] /\ Forall (fun n => is_str n = true) (names v)
  /\ ids v <> [] /\ coordinates v <> []
  /\ Forall (fun p => num_or_na p.1 = true /\ num_or_na p.2 = true) (coordinates v).

Definition wf_registry (w : world) : Prop :=
  forall s v, station_variants w !! s = Some v -> wf_variants v.

(** [m] returns from every state with a well-formed registry, with a value
    in [Q], keeps the registry well formed and the live tables as they
    are. *)
Definition returns {A} (m : M A) (Q : A -> Prop) : Prop :=
  forall w, wf_registry w ->
    exists a w', m w = Ok a w' /\ Q a /\ wf_registry w' /\ frames w' = frames w.

Definition str_columns : list string :=
  ["ride_id"; "rideable_type"; "start_station_name"; "end_station_name";
   "member_casual"].

Definition num_columns : list string :=
  ["start_lat"; "start_lng"; "end_lat"; "end_lng"].

(** The columns the loop over the rows reads. *)
Definition schema : list string :=
  ["ride_id"; "rideable_type"; "started_at"; "ended_at";
   "start_station_name"; "start_station_id"; "end_station_name";
   "end_station_id"; "start_lat"; "start_lng"; "end_lat"; "end_lng";
   "member_casual"].

(** The cells of a table of trips: text or missing in the text columns,
    anything but text in the four coordinate columns, and no start
    timestamp in the first year of the calendar. *)
Definition cell_ok (c : string) (v : pyval) : bool :=
  if bool_decide (c ∈ str_columns) then str_or_na v
  else if bool_decide (c ∈ num_columns) then num_or_na v
  else if bool_decide (c = "started_at") then date_ok v
  else true.

(** The same once the temporal mutation of the row is over. *)
Definition cell_ok_later (c : string) (v : pyval) : bool :=
  bool_decide (c = "started_at") || cell_ok c v.

Definition row_ok (ty : string -> pyval -> bool) (cols : list string)
  (row : list pyval) : Prop :=
  length row = length cols
  /\ forall c v, lookup_col cols row c = Some v -> ty c v = true.

(** A property of tables that the missing-value injection and the
    conversion of the identifier columns keep. *)
Definition kept_by_passes (P : DataFrame -> Prop) : Prop :=
  (forall indices c df, P df -> P (loc_set_none indices c df))
  /\ (forall c df,
        P df -> In c id_columns ->
        P (mkDataFrame (columns df)
             (map (map_col (fun v => PStr (py_str v)) (columns df) c) (rows df)))).

(** Same columns, same number of rows. *)
Definition same_shape (df df' : DataFrame) : Prop :=
  columns df' = columns df /\ length (rows df') = length (rows df).

(** The check of a table of trips: distinct labels that include the
    columns the engine reads, one cell per column in every row, and cells
    of the types above. *)
Definition trips_table (df : DataFrame) : bool :=
  bool_decide (NoDup (columns df))
  && forallb (fun c => bool_decide (c ∈ columns df)) schema
  && forallb (fun row =>
                (length row =? length (columns df))%nat
                && forallb (fun p => cell_ok p.1 p.2) (zip (columns df) row))
             (rows df).

Definition typed (df : DataFrame) : Prop :=
  schema ⊆ columns df /\ Forall (row_ok cell_ok (columns df)) (rows df).

Definition example_columns : list string :=
  ["ride_id"; "rideable_type"; "started_at"; "ended_at";
   "start_station_name"; "start_station_id"; "end_station_name";
   "end_station_id"; "start_lat"; "start_lng"; "end_lat"; "end_lng";
   "member_casual"].

Definition trip_1 : list pyval :=
  [PStr "ABCDEF"; PStr "classic_bike";
   PStr "2024-01-05 10:00:00"; PStr "2024-01-05 11:00:00";
   PStr "a"; PInt 7; PStr "Main St & 5th"; PNaN;
   PFloat (418 # 10); PFloat (- 876 # 10);
   PFloat (419 # 10); PFloat (- 877 # 10); PStr "member"].

Definition trip_2 : list pyval :=
  [PStr "GHIJKL"; PStr "electric_bike";
   PStr "2024-01-06 08:30:00"; PStr "2024-01-06 09:00:00";
   PStr "A"; PInt 8; PStr "Main St & 5th"; PInt 13001;
   PFloat (420 # 10); PFloat (- 878 # 10);
   PFloat (419 # 10); PFloat (- 877 # 10); PStr "casual"].

Definition one_trip : DataFrame := mkDataFrame example_columns [trip_1].

Definition example_table : DataFrame := mkDataFrame example_columns [trip_1; trip_2].

(** The generator of [main]: its two literals, as the floats they
    denote. *)
Definition main_generator : DataErrorGenerator :=
  mkGenerator (round64 (65 # 100)) (round64 (3 # 100)).

(** What a run of [introduce_errors] left: the table it returned, one of
    its cells, an entry of the registry. *)
Definition result_table (r : outcome nat) : option DataFrame :=
  match r with
  | Ok l w => frames w !! l
  | Raise _ => None
  end.

Definition result_cell (r : outcome nat) (i : nat) (c : string) : option pyval :=
  T ← result_table r; cell T i c.

Definition result_variants {A} (r : outcome A) (s : string) : option Variants :=
  w ← state_of r; station_variants w !! s.

(** Whether the pair of cells of row [i] is one of the coordinate variants
    cached under the name [s]. *)
Definition drawn_from (r : outcome nat) (i : nat) (lat_col lng_col s : string)
  : option bool :=
  v ← result_variants r s;
  lat ← result_cell r i lat_col;
  lng ← result_cell r i lng_col;
  Some (existsb (point_eqb (lat, lng)) (coordinates v)).

(** The draws of the first row: the name gate fires and picks the
    upper-cased name, the gate of the start coordinates fires; no other
    gate does. *)
Definition draws_row_1 : list N :=
  [quiet; quiet; quiet; quiet; quiet;
   0; 0; 2; quiet;
   0; quiet; quiet;
   0; 0; 0; 0; quiet; quiet; 4503599627370496; 4503599627370496; 1;
   quiet; quiet]%N.

(** The draws of the second row: the gate of the start coordinates fires
    and nothing else. *)
Definition draws_row_2 : list N :=
  [quiet; quiet; quiet; quiet; quiet;
   quiet; quiet;
   quiet; quiet;
   0; 2;
   quiet; quiet]%N.

(** Two trips from the same start station "a". *)
Definition same_station_table : DataFrame :=
  mkDataFrame example_columns [trip_1; trip_1].

(** The value and the state of a run that returned. *)
Definition the_value {A} (d : A) (o : outcome A) : A :=
  match o with
  | Ok a _ => a
  | Raise _ => d
  end.

Definition the_state {A} (o : outcome A) : world :=
  match o with
  | Ok _ w => w
  | Raise _ => fresh_world [] []
  end.

(** A field of a date written on [n] digits is read back by the directive
    [c]: the first alternative that matches takes the whole text and gives
    the value; used to check the fields over their ranges. *)
Definition field_ok (c : ascii) (n : nat) (v : Z) : bool :=
  let s := zfill n v in
  match first_some (fun alt => match_classes alt 0 s) (directive_regex c) with
  | Some (v', r) => (v' =? v) && String.eqb r ""
  | None => false
  end
  && forallb (fun alt => (length alt <=? String.length s)%nat) (directive_regex c)
  && match s with String x _ => negb (is_space x) | EmptyString => false end.

Definition fields_ok (c : ascii) (n : nat) (lo hi : Z) : bool :=
  forallb (fun k => field_ok c n (lo + Z.of_nat k)) (seq 0 (Z.to_nat (hi - lo + 1))).

(** A value and the misspellings the tables of errors give for it. *)
Definition family (entry : string * list string) : list string :=
  entry.1 :: entry.2.

(** The table with its two station identifier columns turned into text,
    as the second loop of [introduce_errors] leaves it. *)
Definition ids_as_text (df : DataFrame) : DataFrame :=
  mkDataFrame (columns df)
    (map (fun row =>
            map_col (fun v => PStr (py_str v)) (columns df) "end_station_id"
              (map_col (fun v => PStr (py_str v)) (columns df) "start_station_id" row))
         (rows df)).

(** A station name up to the case of its letters and the length of its
    runs of white space. *)
Definition normal_name (s : string) : string := re_sub_spaces " " (py_lower s).

(** Text made of ASCII characters only. *)
Definition is_ascii (s : string) : bool :=
  forallb (fun c => (nat_of_ascii c <? 128)%nat) (list_ascii_of_string s).

(** An identifier with its spaces removed and its letters raised. *)
Definition unspaced_upper (s : string) : string :=
  py_upper (py_replace_char " " "" s).

(** What the pass over the rows may do to the cell [v] under the label
    [c]: a missing value stays as it is, a column outside the schema is
    not touched, a ride identifier keeps its characters up to spaces and
    case, and a bike type or a rider class is kept or replaced by one of
    the misspellings of its table. *)
Definition misspelt (errors : list (string * list string)) (v : pyval) : Prop :=
  exists e t, e ∈ errors /\ t ∈ e.2 /\ v = PStr t.

Definition cell_kept (c : string) (v v' : pyval) : Prop :=
  (isna v = true -> v' = v)
  /\ (c ∉ schema -> v' = v)
  /\ (c = "ride_id" -> forall s, v = PStr s ->
        exists s', v' = PStr s' /\ unspaced_upper s' = unspaced_upper s)
  /\ (c = "rideable_type" -> v' = v \/ misspelt rideable_errors v')
  /\ (c = "member_casual" -> v' = v \/ misspelt member_errors v').

Definition row_kept (cols : list string) (row row' : list pyval) : Prop :=
  forall c v, lookup_col cols row c = Some v ->
    exists v', lookup_col cols row' c = Some v' /\ cell_kept c v v'.

(** What the two loops before the pass over the rows do to a cell: an
    identifier column is not emptied, and the two station identifier
    columns become text; any other cell is kept or emptied. *)
Definition cell_passed (c : string) (v v1 : pyval) : Prop :=
  if is_id_column c
  then v1 = (if bool_decide (c ∈ id_columns) then PStr (py_str v) else v)
  else v1 = v \/ v1 = PNone.

(** A trip without an end: the end station and its coordinates are
    missing; the last cell is a note under a column the engine does not
    know. *)
Definition open_trip : list pyval :=
  [PStr "0123AB"; PStr "electric_bike";
   PStr "2024-01-07 08:30:00"; PNaN;
   PStr "Main St & 5th"; PStr "13001"; PNaN; PNaN;
   PFloat (418 # 10); PFloat (- 876 # 10); PNaN; PNaN; PStr "casual";
   PStr "checked"].

Definition noted_table : DataFrame :=
  mkDataFrame (example_columns ++ ["note"]) [open_trip].


(** * Reasoning about the monad *)

Lemma bind_Ok {A B} (m : M A) (k : A -> M B) w b w' :
  (m ≫= k) w = Ok b w' <-> exists a w1, m w = Ok a w1 /\ k a w1 = Ok b w'.
Proof.
  unfold mbind, M_bind. split.
  - destruct (m w) as [a w1|e]; [eauto | discriminate].
  - intros (a & w1 & -> & H). exact H.
Qed.

Lemma ret_Ok {A} (a b : A) w w' :
  (mret a : M A) w = Ok b w' <-> a = b /\ w = w'.
Proof. unfold mret, M_ret. split; [intros [= -> ->]; done | intros [-> ->]; done]. Qed.

Section Respects.
Context (R : relation world) `{!PreOrder R}.

Lemma respects_ret {A} (a : A) : respects R (mret a).
Proof. intros w b w' [_ <-]%ret_Ok. reflexivity. Qed.

Lemma respects_raise {A} e : respects R (@raise A e).
Proof. intros w a w'; discriminate. Qed.

Lemma respects_bind {A B} (m : M A) (k : A -> M B) :
  respects R m -> (forall a, respects R (k a)) -> respects R (m ≫= k).
Proof.
  intros Hm Hk w b w' (a & w1 & H1 & H2)%bind_Ok.
  etrans; [eapply Hm | eapply Hk]; eauto.
Qed.

Lemma respects_mapM {A B} (f : A -> M B) l :
  (forall x, respects R (f x)) -> respects R (mapM f l).
Proof.
  intros Hf. induction l as [|x l IH]; simpl.
  - apply respects_ret.
  - apply respects_bind; [apply Hf | intros y].
    apply respects_bind; [apply IH | intros ys; apply respects_ret].
Qed.

Lemma respects_foldM {A B} (f : B -> A -> M B) l b :
  (forall b x, respects R (f b x)) -> respects R (foldM f b l).
Proof.
  intros Hf. revert b. induction l as [|x l IH]; intros b; simpl.
  - apply respects_ret.
  - apply respects_bind; [apply Hf | intros b'; apply IH].
Qed.
End Respects.

(** Decompose a computation along its binds and case distinctions, leaving
    the calls for [tac]. *)
Ltac respects_with tac :=
  repeat first
    [ tac
    | apply respects_ret; solve [apply _]
    | apply respects_raise
    | apply respects_bind; [apply _ | | intros ?]
    | match goal with
      | |- respects _ (match ?x with _ => _ end) => destruct x
      | |- respects _ (if ?b then _ else _) => destruct b
      end ].

(** ** Calls that only draw random numbers *)

#[global] Instance only_tape_preorder : PreOrder only_tape.
Proof.
  split.
  - intros w. split; auto.
  - intros w1 w2 w3 [H1 F1] [H2 F2]. split; congruence.
Qed.

Create HintDb engine.

Ltac draws := respects_with ltac:(solve [auto with engine nocore]).

Lemma next_raw_draws : respects only_tape next_raw.
Proof.
  intros w a w'. unfold next_raw.
  destruct (tape w); intros [= <- <-]; split; auto.
Qed.
#[global] Hint Resolve next_raw_draws : engine.

Lemma random_random_draws : respects only_tape random_random.
Proof. unfold random_random. draws. Qed.
#[global] Hint Resolve random_random_draws : engine.

Lemma random_randint_draws a b : respects only_tape (random_randint a b).
Proof. unfold random_randint. draws. Qed.
#[global] Hint Resolve random_randint_draws : engine.

Lemma random_uniform_draws a b : respects only_tape (random_uniform a b).
Proof. unfold random_uniform. draws. Qed.
#[global] Hint Resolve random_uniform_draws : engine.

Lemma random_choice_draws {A} (l : list A) : respects only_tape (random_choice l).
Proof. unfold random_choice. draws. Qed.
#[global] Hint Resolve random_choice_draws : engine.

Lemma sample_from_draws pool k : respects only_tape (sample_from pool k).
Proof.
  revert pool. induction k as [|k IH]; intros pool; simpl; draws.
Qed.
#[global] Hint Resolve sample_from_draws : engine.

Lemma random_sample_range_draws n k : respects only_tape (random_sample_range n k).
Proof. unfold random_sample_range. draws. Qed.
#[global] Hint Resolve random_sample_range_draws : engine.

Lemma should_introduce_error_draws self :
  respects only_tape (should_introduce_error self).
Proof. unfold should_introduce_error. draws. Qed.
#[global] Hint Resolve should_introduce_error_draws : engine.

Lemma get_variants_draws s : respects only_tape (get_variants s).
Proof. intros w a w' [= <- <-]. reflexivity. Qed.
#[global] Hint Resolve get_variants_draws : engine.

Lemma format_datetime_draws v : respects only_tape (format_datetime v).
Proof. unfold format_datetime. draws. Qed.
#[global] Hint Resolve format_datetime_draws : engine.

Lemma lower_some_draws s : respects only_tape (lower_some s).
Proof. induction s as [|c s IH]; simpl; draws. Qed.
#[global] Hint Resolve lower_some_draws : engine.

Lemma modify_ride_id_draws self v : respects only_tape (modify_ride_id self v).
Proof. unfold modify_ride_id. draws. Qed.
#[global] Hint Resolve modify_ride_id_draws : engine.

Lemma modify_rideable_type_draws self v :
  respects only_tape (modify_rideable_type self v).
Proof. unfold modify_rideable_type. draws. Qed.
#[global] Hint Resolve modify_rideable_type_draws : engine.

Lemma modify_datetime_draws self s e :
  respects only_tape (modify_datetime self s e).
Proof. unfold modify_datetime. draws. Qed.
#[global] Hint Resolve modify_datetime_draws : engine.

Lemma modify_member_type_draws self v :
  respects only_tape (modify_member_type self v).
Proof. unfold modify_member_type. draws. Qed.
#[global] Hint Resolve modify_member_type_draws : engine.

Lemma add_float_draws b q : respects only_tape (add_float b q).
Proof. unfold add_float. draws. Qed.
#[global] Hint Resolve add_float_draws : engine.

Lemma jitter_draws n la ln acc : respects only_tape (jitter n la ln acc).
Proof. revert acc. induction n as [|n IH]; intros acc; simpl; draws. Qed.
#[global] Hint Resolve jitter_draws : engine.

Lemma at_get_draws cols row col : respects only_tape (at_get cols row col).
Proof. unfold at_get. draws. Qed.
#[global] Hint Resolve at_get_draws : engine.

Lemma astype_str_draws col df : respects only_tape (astype_str col df).
Proof. unfold astype_str. draws. Qed.
#[global] Hint Resolve astype_str_draws : engine.

(** ** The registry only grows *)

#[global] Instance extends_preorder : PreOrder extends.
Proof.
  split.
  - intros w. split; auto.
  - intros w1 w2 w3 [H1 F1] [H2 F2]. split; [auto | congruence].
Qed.

Lemma only_tape_extends w w' : only_tape w w' -> extends w w'.
Proof. intros [H F]. split; [rewrite H; auto | done]. Qed.

Lemma draws_extends {A} (m : M A) : respects only_tape m -> respects extends m.
Proof. intros H w a w' E. eapply only_tape_extends, H, E. Qed.

Ltac grows :=
  respects_with ltac:(solve [auto with engine nocore
                            | apply draws_extends; auto with engine nocore]).

Ltac inv_M :=
  repeat match goal with
    | H : (_ ≫= _) _ = Ok _ _ |- _ =>
        let a := fresh "a" in
        let w := fresh "w" in
        let E := fresh "E" in
        apply bind_Ok in H as (a & w & E & H)
    | H : mret _ _ = Ok _ _ |- _ => apply ret_Ok in H as [? ?]; subst
    | H : raise _ _ = Ok _ _ |- _ => discriminate H
    | H : Raise _ = Ok _ _ |- _ => discriminate H
    end.

(** A resolve of a cached name returns the cached set and changes nothing:
    no entry, no draw. *)
Lemma get_station_variants_cached s v station_id lat lng w :
  station_variants w !! s = Some v ->
  get_station_variants (PStr s) station_id lat lng w = Ok v w.
Proof.
  intros H. unfold get_station_variants. simpl.
  unfold mbind, M_bind, get_variants. rewrite H. reflexivity.
Qed.

(** The first resolve of a name stores what it returns under that name and
    leaves every other entry alone. *)
Lemma get_station_variants_fresh s v station_id lat lng w w' :
  station_variants w !! s = None ->
  get_station_variants (PStr s) station_id lat lng w = Ok v w' ->
  station_variants w' = <[s:=v]> (station_variants w)
  /\ frames w' = frames w
  /\ names v = name_variants_of s
  /\ ids v = id_variants_of station_id.
Proof.
  intros Hs H. unfold get_station_variants in H. simpl in H.
  apply bind_Ok in H as (c & w0 & E0 & H).
  injection E0 as <- <-. rewrite Hs in H.
  apply bind_Ok in H as (n & w1 & E1 & H).
  apply bind_Ok in H as (cv & w2 & E2 & H).
  apply bind_Ok in H as ([] & w3 & E3 & H).
  apply ret_Ok in H as [<- <-].
  injection E3 as <-.
  assert (only_tape w w2) as [R F].
  { etrans; [eapply random_randint_draws, E1|].
    revert E2. destruct (_ && _); [apply jitter_draws | apply respects_ret; apply _]. }
  simpl. rewrite R, F. done.
Qed.

Lemma get_station_variants_extends name station_id lat lng :
  respects extends (get_station_variants name station_id lat lng).
Proof.
  intros w v w' H.
  destruct (isna name) eqn:Hna.
  { unfold get_station_variants in H. rewrite Hna in H.
    apply ret_Ok in H as [_ <-]. reflexivity. }
  destruct name as [| |s|z|q]; try discriminate Hna.
  - destruct (station_variants w !! s) as [c|] eqn:Hs.
    + rewrite (get_station_variants_cached _ _ _ _ _ _ Hs) in H.
      injection H as <- <-. reflexivity.
    + destruct (get_station_variants_fresh _ _ _ _ _ _ _ Hs H) as (R & F & _).
      split; [|done]. intros s' v' Hs'. rewrite R.
      rewrite lookup_insert_ne; [done | congruence].
  - unfold get_station_variants in H. simpl in H. inv_M.
  - unfold get_station_variants in H. simpl in H. inv_M.
Qed.
#[global] Hint Resolve get_station_variants_extends : engine.

Lemma modify_station_name_extends self name station_id :
  respects extends (modify_station_name self name station_id).
Proof. unfold modify_station_name. grows. Qed.
#[global] Hint Resolve modify_station_name_extends : engine.

Lemma modify_coordinates_extends self lat lng name station_id :
  respects extends (modify_coordinates self lat lng name station_id).
Proof. unfold modify_coordinates. grows. Qed.
#[global] Hint Resolve modify_coordinates_extends : engine.

Lemma corrupt_row_extends self cols row :
  respects extends (corrupt_row self cols row).
Proof. unfold corrupt_row. grows. Qed.
#[global] Hint Resolve corrupt_row_extends : engine.

Lemma random_choice_elem {A} (l : list A) w x w' :
  random_choice l w = Ok x w' -> x ∈ l.
Proof.
  unfold random_choice. destruct l as [|d l]; [discriminate|].
  intros H. inv_M. apply list_elem_of_In, nth_In.
  apply Nat.mod_upper_bound. discriminate.
Qed.

Lemma later_extends self w w' : later self w w' -> extends w w'.
Proof.
  induction 1 as [|w1 w2 ???? v _ IH E|w1 w2 ?? r _ IH E
                  |w1 w2 ???? r _ IH E|w1 w2 ??? _ IH E].
  - reflexivity.
  - etrans; [exact IH | eapply get_station_variants_extends, E].
  - etrans; [exact IH | eapply modify_station_name_extends, E].
  - etrans; [exact IH | eapply modify_coordinates_extends, E].
  - etrans; [exact IH | eapply corrupt_row_extends, E].
Qed.

(** What the two mutations that consult the registry can return for a
    cached name. *)
Lemma modify_station_name_pool self s v station_id w n i w' :
  station_variants w !! s = Some v ->
  modify_station_name self (PStr s) station_id w = Ok (n, i) w' ->
  (n = PStr s \/ n ∈ names v)
  /\ (i = (if isna station_id then station_id else PStr (py_str station_id))
      \/ i ∈ ids v).
Proof.
  intros Hs H. unfold modify_station_name in H. simpl in H.
  destruct (isna station_id).
  { apply ret_Ok in H as [[= <- <-] _]. auto. }
  apply bind_Ok in H as (v' & w1 & E1 & H).
  rewrite (get_station_variants_cached _ _ _ _ _ _ Hs) in E1.
  injection E1 as <- <-.
  apply bind_Ok in H as (g1 & w2 & _ & H).
  apply bind_Ok in H as (n' & w3 & En & H).
  apply bind_Ok in H as (g2 & w4 & _ & H).
  apply bind_Ok in H as (i' & w5 & Ei & H).
  apply ret_Ok in H as [[= <- <-] _].
  split.
  - destruct g1; [right; eapply random_choice_elem, En|].
    apply ret_Ok in En as [<- _]. by left.
  - destruct g2; [right; eapply random_choice_elem, Ei|].
    apply ret_Ok in Ei as [<- _]. by left.
Qed.

Lemma modify_coordinates_pool self s v station_id lat lng w c w' :
  station_variants w !! s = Some v ->
  modify_coordinates self lat lng (PStr s) station_id w = Ok c w' ->
  c = (lat, lng) \/ c ∈ coordinates v.
Proof.
  intros Hs H. unfold modify_coordinates in H. simpl in H.
  destruct (isna lat || isna lng).
  { apply ret_Ok in H as [<- _]. by left. }
  apply bind_Ok in H as (g & w1 & Eg & H).
  destruct g.
  - apply bind_Ok in H as (v' & w2 & E & H).
    assert (station_variants w1 !! s = Some v) as Hs1.
    { apply should_introduce_error_draws in Eg as [-> _]. exact Hs. }
    rewrite (get_station_variants_cached _ _ _ _ _ _ Hs1) in E.
    injection E as <- <-. right. eapply random_choice_elem, H.
  - apply ret_Ok in H as [<- _]. by left.
Qed.


(** ** Coordinate variants *)

Lemma next_raw_total w : exists n w', next_raw w = Ok n w' /\ only_tape w w'.
Proof.
  unfold next_raw. destruct (tape w); eexists _, _; (split; [reflexivity|]);
    split; reflexivity.
Qed.

Lemma random_random_total w :
  exists r w', random_random w = Ok r w' /\ (0 <= r)%Q /\ (r < 1)%Q /\ only_tape w w'.
Proof.
  destruct (next_raw_total w) as (n & w' & E & T).
  exists (Z.of_N n mod Zpos two53 # two53), w'. split; [|split; [|split]]; [| | |exact T].
  - unfold random_random. apply bind_Ok. eauto.
  - unfold Qle. simpl. pose proof (Z.mod_pos_bound (Z.of_N n) (Zpos two53)). lia.
  - unfold Qlt. simpl. pose proof (Z.mod_pos_bound (Z.of_N n) (Zpos two53)). lia.
Qed.

Lemma random_uniform_total w :
  exists u w', random_uniform (-1) 1 w = Ok u w'
    /\ (-1 <= u)%Q /\ (u < 1)%Q /\ only_tape w w'.
Proof.
  destruct (random_random_total w) as (r & w' & E & H0 & H1 & T).
  exists (-1 + (1 - -1) * r)%Q, w'. split; [|split; [|split]]; [| | |exact T].
  - unfold random_uniform. apply bind_Ok. eauto.
  - lra.
  - lra.
Qed.

Lemma random_randint_total a b w :
  a <= b ->
  exists n w', random_randint a b w = Ok n w' /\ a <= n <= b /\ only_tape w w'.
Proof.
  intros Hab. destruct (next_raw_total w) as (n & w' & E & T).
  exists (a + Z.of_N n mod (b - a + 1)), w'. split; [|split]; [| |exact T].
  - unfold random_randint. apply bind_Ok. eauto.
  - pose proof (Z.mod_pos_bound (Z.of_N n) (b - a + 1)). lia.
Qed.

Lemma add_float_numeric base q variation w :
  float_of base = Some q ->
  add_float base variation w = Ok (PFloat (round64 (q + variation))) w.
Proof. by destruct base; intros [= <-]. Qed.

(** ** Rounding to the nearest float *)

Lemma round_half_even_near n d :
  0 < d -> - d <= 2 * (round_half_even n d * d - n) <= d.
Proof.
  intros Hd. unfold round_half_even.
  pose proof (Z.div_mod n d ltac:(lia)) as E.
  pose proof (Z.mod_pos_bound n d Hd) as B.
  set (q := n / d) in *. set (r := n mod d) in *.
  destruct (2 * r <? d) eqn:E1; [nia|].
  destruct (d <? 2 * r) eqn:E2; [nia|].
  destruct (Z.even q); nia.
Qed.

Lemma round_half_even_le n d M :
  0 < d -> n <= M * d -> round_half_even n d <= M.
Proof.
  intros Hd Hn. unfold round_half_even.
  pose proof (Z.div_mod n d ltac:(lia)) as E.
  pose proof (Z.mod_pos_bound n d Hd) as B.
  set (q := n / d) in *. set (r := n mod d) in *.
  assert (q <= M) by nia.
  assert (0 < r -> q + 1 <= M) by nia.
  destruct (2 * r <? d) eqn:E1; [lia|].
  destruct (d <? 2 * r) eqn:E2; [lia|].
  destruct (Z.even q); lia.
Qed.

Lemma round_half_even_nonneg n d :
  0 < d -> 0 <= n -> 0 <= round_half_even n d.
Proof.
  intros Hd Hn. unfold round_half_even.
  pose proof (Z.div_pos n d Hn Hd).
  destruct (2 * (n mod d) <? d); [lia|].
  destruct (d <? 2 * (n mod d)); [lia|].
  destruct (Z.even (n / d)); lia.
Qed.

(** The first bit of [a / d] is not below the exponent chosen, unless the
    exponent is the least one; written without negative powers. *)
Lemma float_exponent_spec a d :
  0 < a -> 0 < d ->
  let e := float_exponent a d in
  -1074 <= e
  /\ (e = -1074 \/ 2 ^ Z.max 0 (e + 52) * d <= a * 2 ^ Z.max 0 (- (e + 52))).
Proof.
  intros Ha Hd. unfold float_exponent.
  pose proof (Z.log2_spec a Ha) as [A1 A2].
  pose proof (Z.log2_spec d Hd) as [D1 D2].
  pose proof (Z.log2_nonneg a) as LA. pose proof (Z.log2_nonneg d) as LD.
  set (la := Z.log2 a) in *. set (ld := Z.log2 d) in *.
  set (l := if d * 2 ^ la <=? a * 2 ^ ld then la - ld else la - ld - 1).
  cbv zeta. split; [lia|].
  destruct (Z.max_spec (l - 52) (-1074)) as [[H ->]|[H ->]]; [by left | right].
  replace (l - 52 + 52) with l by lia.
  assert (0 < 2 ^ la) by (apply Z.pow_pos_nonneg; lia).
  assert (0 < 2 ^ ld) by (apply Z.pow_pos_nonneg; lia).
  rewrite Z.pow_succ_r in A2, D2 by lia.
  unfold l. destruct (d * 2 ^ la <=? a * 2 ^ ld) eqn:E.
  - apply Z.leb_le in E.
    destruct (Z.le_gt_cases ld la) as [C|C].
    + rewrite Z.max_r, Z.max_l by lia. rewrite Z.pow_0_r.
      replace la with ((la - ld) + ld) in E by lia.
      rewrite Z.pow_add_r in E by lia.
      assert (0 < 2 ^ (la - ld)) by (apply Z.pow_pos_nonneg; lia). nia.
    + rewrite Z.max_l, Z.max_r by lia. rewrite Z.pow_0_r.
      replace ld with ((- (la - ld)) + la) in E by lia.
      rewrite Z.pow_add_r in E by lia.
      assert (0 < 2 ^ (- (la - ld))) by (apply Z.pow_pos_nonneg; lia). nia.
  - destruct (Z.le_gt_cases 0 (la - ld - 1)) as [C|C].
    + rewrite Z.max_r, Z.max_l by lia. rewrite Z.pow_0_r.
      replace la with ((la - ld - 1) + (ld + 1)) in A1 by lia.
      rewrite Z.pow_add_r, (Z.pow_add_r 2 ld 1) in A1 by lia.
      assert (0 < 2 ^ (la - ld - 1)) by (apply Z.pow_pos_nonneg; lia).
      change (2 ^ 1) with 2 in A1. nia.
    + rewrite Z.max_l, Z.max_r by lia. rewrite Z.pow_0_r.
      replace (- (la - ld - 1)) with ((ld + 1 - la)) by lia.
      assert (2 ^ (ld + 1) = 2 ^ (ld + 1 - la) * 2 ^ la) as X.
      { rewrite <- Z.pow_add_r by lia. f_equal. lia. }
      rewrite Z.pow_add_r in X by lia. change (2 ^ 1) with 2 in X.
      assert (0 < 2 ^ (ld + 1 - la)) by (apply Z.pow_pos_nonneg; lia). nia.
Qed.

Lemma Qabs_frac_le (x : Z) (d : positive) (y : Q) :
  (Z.abs x # d <= y)%Q -> (Qabs (x # d) <= y)%Q.
Proof. done. Qed.

Lemma half_ulp_lower (a : Z) (d : positive) :
  0 <= a -> ((a # (d * 2 ^ 53)) <= half_ulp (a # d))%Q
            /\ ((1 # 2 ^ 1075) <= half_ulp (a # d))%Q.
Proof.
  intros Ha. unfold half_ulp.
  assert (Qabs (a # d) * (1 # 2 ^ 53) == a # (d * 2 ^ 53))%Q as ->.
  { unfold Qabs. rewrite Z.abs_eq by done. unfold Qmult, Qeq. cbn [Qnum Qden].
    rewrite Z.mul_1_r. reflexivity. }
  assert (0 <= a # (d * 2 ^ 53))%Q by (unfold Qle; cbn [Qnum Qden]; lia).
  assert (0 <= 1 # 2 ^ 1075)%Q by done.
  split; lra.
Qed.

Lemma round64_error_pos (a : Z) (d : positive) :
  0 < a ->
  let e := float_exponent a (Zpos d) in
  let m := round_half_even (a * 2 ^ Z.max 0 (- e)) (Zpos d * 2 ^ Z.max 0 e) in
  let r := if 0 <=? e then inject_Z (m * 2 ^ e) else m # Z.to_pos (2 ^ (- e)) in
  (Qabs (r - (a # d)) <= half_ulp (a # d))%Q.
Proof.
  intros Ha e m r.
  destruct (float_exponent_spec a (Zpos d) Ha ltac:(lia)) as [He Hs]. fold e in He, Hs.
  destruct (half_ulp_lower a d ltac:(lia)) as [H1 H2].
  assert (0 < 2 ^ Z.max 0 e) as Hp by (apply Z.pow_pos_nonneg; lia).
  pose proof (round_half_even_near (a * 2 ^ Z.max 0 (- e)) (Zpos d * 2 ^ Z.max 0 e)
                ltac:(lia)) as Hn. fold m in Hn.
  unfold r. destruct (0 <=? e) eqn:E0.
  - apply Z.leb_le in E0. rewrite (Z.max_l 0 (- e)), (Z.max_r 0 e) in Hn by lia.
    rewrite Z.pow_0_r in Hn.
    destruct Hs as [Hs|Hs]; [lia|].
    rewrite (Z.max_r 0 (e + 52)), (Z.max_l 0 (- (e + 52))) in Hs by lia.
    rewrite Z.pow_0_r, Z.pow_add_r in Hs by lia.
    eapply Qle_trans; [|exact H1].
    assert (inject_Z (m * 2 ^ e) - (a # d) == (m * 2 ^ e * Zpos d - a) # d)%Q as ->.
    { unfold Qminus, Qplus, Qopp, inject_Z, Qeq. cbn [Qnum Qden]. lia. }
    apply Qabs_frac_le. unfold Qle. cbn [Qnum Qden].
    assert (0 < 2 ^ e) by (apply Z.pow_pos_nonneg; lia).
    change (Zpos (2 ^ 53)) with (2 ^ 53). change (2 ^ 52) with 4503599627370496 in Hs.
    rewrite Pos2Z.inj_mul. change (Zpos (2 ^ 53)) with 9007199254740992. nia.
  - apply Z.leb_gt in E0. rewrite (Z.max_r 0 (- e)), (Z.max_l 0 e) in Hn by lia.
    rewrite Z.pow_0_r in Hn.
    assert (0 < 2 ^ (- e)) as HF by (apply Z.pow_pos_nonneg; lia).
    set (F := 2 ^ (- e)) in *.
    assert ((m # Z.to_pos F) - (a # d) == (m * Zpos d - a * F) # (Z.to_pos F * d))%Q as ->.
    { unfold Qminus, Qplus, Qopp, Qeq. cbn [Qnum Qden].
      rewrite !Pos2Z.inj_mul, !Z2Pos.id by lia. lia. }
    apply Qabs_frac_le.
    destruct Hs as [Hs|Hs].
    + eapply Qle_trans; [|exact H2]. unfold Qle. cbn [Qnum Qden].
      rewrite Pos2Z.inj_mul, Z2Pos.id by lia.
      assert (Zpos (2 ^ 1075) = 2 * F) as ->.
      { unfold F. rewrite Hs. reflexivity. }
      nia.
    + eapply Qle_trans; [|exact H1]. unfold Qle. cbn [Qnum Qden].
      rewrite !Pos2Z.inj_mul, Z2Pos.id by lia.
      change (Zpos (2 ^ 53)) with 9007199254740992.
      assert (4503599627370496 * Zpos d <= a * F) as Hk.
      { destruct (Z.le_gt_cases 0 (e + 52)) as [C|C].
        - rewrite (Z.max_r 0 (e + 52)), (Z.max_l 0 (- (e + 52))) in Hs by lia.
          rewrite Z.pow_0_r in Hs.
          assert (2 ^ (e + 52) * F = 4503599627370496) as X.
          { unfold F. rewrite <- Z.pow_add_r by lia.
            replace (e + 52 + - e) with 52 by lia. reflexivity. }
          nia.
        - rewrite (Z.max_l 0 (e + 52)), (Z.max_r 0 (- (e + 52))) in Hs by lia.
          rewrite Z.pow_0_r in Hs.
          assert (F = 2 ^ (- (e + 52)) * 4503599627370496) as X.
          { unfold F. change 4503599627370496 with (2 ^ 52).
            rewrite <- Z.pow_add_r by lia. f_equal. lia. }
          nia. }
      nia.
Qed.

Lemma round64_error q : (Qabs (round64 q - q) <= half_ulp q)%Q.
Proof.
  destruct q as [n d]. unfold round64. cbn [Qnum Qden].
  destruct (Z.abs n =? 0) eqn:E0.
  - apply Z.eqb_eq in E0. assert (n = 0) as -> by lia.
    destruct (half_ulp_lower 0 d ltac:(lia)) as [_ H].
    eapply Qle_trans; [|exact H]. done.
  - apply Z.eqb_neq in E0.
    pose proof (round64_error_pos (Z.abs n) d ltac:(lia)) as H. cbv zeta in H.
    destruct (n <? 0) eqn:En.
    + apply Z.ltb_lt in En.
      assert (half_ulp (n # d) = half_ulp (Z.abs n # d)) as ->.
      { unfold half_ulp, Qabs. by rewrite Z.abs_idemp. }
      rewrite <- Qabs_opp.
      assert (forall r, - (- r - (n # d)) == r - (Z.abs n # d))%Q as ->; [|exact H].
      intros r. rewrite Z.abs_neq by lia.
      assert (- n # d == - (n # d))%Q as -> by done. ring.
    + apply Z.ltb_ge in En. rewrite (Z.abs_eq n) in * by lia. exact H.
Qed.

Lemma half_ulp_mono x y : (Qabs x <= y)%Q -> (half_ulp x <= half_ulp y)%Q.
Proof.
  intros H. unfold half_ulp.
  assert (y <= Qabs y)%Q by apply Qle_Qabs.
  assert (0 <= 1 # 2 ^ 53)%Q by done.
  assert (Qabs x * (1 # 2 ^ 53) <= Qabs y * (1 # 2 ^ 53))%Q.
  { apply Qmult_le_compat_r; [lra | done]. }
  lra.
Qed.

Lemma jitter_within la u :
  (-1 <= u < 1)%Q ->
  (Qabs (round64 (la + u) - la) <= 1 + half_ulp (Qabs la + 1))%Q.
Proof.
  intros Hu.
  assert (round64 (la + u) - la == (round64 (la + u) - (la + u)) + u)%Q as -> by ring.
  eapply Qle_trans; [apply Qabs_triangle|].
  assert (Qabs u <= 1)%Q by (apply Qabs_Qle_condition; lra).
  assert (Qabs (la + u) <= Qabs la + 1)%Q.
  { eapply Qle_trans; [apply Qabs_triangle | lra]. }
  pose proof (round64_error (la + u)).
  pose proof (half_ulp_mono (la + u) (Qabs la + 1) ltac:(done)). lra.
Qed.

Lemma round64_int_bound x N :
  0 <= N <= 2 ^ 53 -> (0 <= x <= inject_Z N)%Q ->
  (0 <= round64 x <= inject_Z N)%Q.
Proof.
  intros HN [H0 H1]. destruct x as [n d]. unfold Qle in H0, H1.
  cbn [Qnum Qden inject_Z] in H0, H1. unfold round64. cbn [Qnum Qden].
  rewrite Z.abs_eq by lia.
  destruct (n =? 0) eqn:E0.
  { unfold Qle. cbn [Qnum Qden inject_Z]. lia. }
  apply Z.eqb_neq in E0. replace (n <? 0) with false by lia.
  destruct (float_exponent_spec n (Zpos d) ltac:(lia) ltac:(lia)) as [He Hs].
  set (e := float_exponent n (Zpos d)) in *.
  assert (0 < 2 ^ Z.max 0 e) as Hp by (apply Z.pow_pos_nonneg; lia).
  assert (0 < 2 ^ Z.max 0 (- e)) as Hq by (apply Z.pow_pos_nonneg; lia).
  pose proof (round_half_even_nonneg (n * 2 ^ Z.max 0 (- e)) (Zpos d * 2 ^ Z.max 0 e)
                ltac:(lia) ltac:(nia)) as Hm.
  destruct (0 <=? e) eqn:Ee.
  - apply Z.leb_le in Ee.
    rewrite (Z.max_l 0 (- e)), (Z.max_r 0 e) in * by lia.
    rewrite Z.pow_0_r, Z.mul_1_r in *.
    destruct Hs as [Hs|Hs]; [lia|].
    rewrite (Z.max_r 0 (e + 52)), (Z.max_l 0 (- (e + 52))) in Hs by lia.
    rewrite Z.pow_0_r in Hs.
    assert (2 ^ (e + 52) <= 2 ^ 53) as Hpow by nia.
    apply Z.pow_le_mono_r_iff in Hpow; [|lia|lia].
    assert (e = 0 \/ e = 1) as [-> | ->] by lia.
    + pose proof (round_half_even_le n (Zpos d * 2 ^ 0) N ltac:(lia) ltac:(lia)).
      unfold Qle. cbn [Qnum Qden inject_Z]. lia.
    + change (2 ^ (1 + 52)) with (2 ^ 53) in Hs.
      assert (N = 2 ^ 53) as -> by nia.
      pose proof (round_half_even_le n (Zpos d * 2 ^ 1) (2 ^ 52) ltac:(lia) ltac:(lia)).
      unfold Qle. cbn [Qnum Qden inject_Z]. lia.
  - apply Z.leb_gt in Ee.
    rewrite (Z.max_r 0 (- e)), (Z.max_l 0 e) in * by lia.
    rewrite Z.pow_0_r, Z.mul_1_r in *.
    pose proof (round_half_even_le (n * 2 ^ (- e)) (Zpos d) (N * 2 ^ (- e))
                  ltac:(lia) ltac:(nia)).
    unfold Qle. cbn [Qnum Qden inject_Z]. rewrite Z2Pos.id by lia. lia.
Qed.

Lemma truncate_bound y N :
  (0 <= y <= inject_Z N)%Q -> 0 <= truncate y <= N.
Proof.
  intros [H0 H1]. destruct y as [p q]. unfold Qle in H0, H1.
  cbn [Qnum Qden inject_Z] in H0, H1. unfold truncate. cbn [Qnum Qden].
  rewrite Z.quot_div_nonneg by lia. split.
  - apply Z.div_pos; lia.
  - apply Z.div_le_upper_bound; lia.
Qed.

Lemma jitter_total n lat lng la lo :
  float_of lat = Some la -> float_of lng = Some lo ->
  forall acc w, exists l w',
    jitter n lat lng acc w = Ok (acc ++ l) w'
    /\ length l = n /\ Forall (jittered la lo) l /\ only_tape w w'.
Proof.
  intros Hla Hlo. induction n as [|n IH]; intros acc w.
  - exists [], w. rewrite app_nil_r. repeat split; auto.
  - destruct (random_uniform_total w) as (u & w1 & E1 & Hu0 & Hu1 & T1).
    destruct (random_uniform_total w1) as (t & w2 & E2 & Ht0 & Ht1 & T2).
    pose proof (add_float_numeric lat la u w2 Hla) as Ex.
    pose proof (add_float_numeric lng lo t w2 Hlo) as Ey.
    set (x := round64 (la + u)) in *. set (y := round64 (lo + t)) in *.
    destruct (IH (acc ++ [(PFloat x, PFloat y)]) w2) as (l & w3 & E3 & Hl & HF & T3).
    exists ((PFloat x, PFloat y) :: l), w3. split; [|split; [|split]].
    + simpl. apply bind_Ok. exists u, w1. split; [exact E1|].
      apply bind_Ok. exists t, w2. split; [exact E2|].
      apply bind_Ok. exists (PFloat x), w2. split; [exact Ex|].
      apply bind_Ok. exists (PFloat y), w2. split; [exact Ey|].
      rewrite E3. by rewrite <- app_assoc.
    + simpl. by rewrite Hl.
    + constructor; [|exact HF]. by exists u, t.
    + etrans; [exact T1|]. etrans; [exact T2 | exact T3].
Qed.

Lemma float_present v q :
  float_of v = Some q -> is_None v = false /\ isna v = false.
Proof. destruct v; intros [= <-]; auto. Qed.



(** ** The missing-value injector *)

Lemma sample_from_total pool k w :
  NoDup pool -> (k <= length pool)%nat ->
  exists l w', sample_from pool k w = Ok l w'
    /\ length l = k /\ NoDup l /\ l ⊆ pool /\ only_tape w w'.
Proof.
  revert pool w. induction k as [|k IH]; intros pool w Hnd Hk.
  - exists [], w. repeat split; auto using NoDup_nil_2. set_solver.
  - destruct (next_raw_total w) as (r & w1 & E1 & T1).
    set (j := (N.to_nat r mod length pool)%nat).
    assert (j < length pool)%nat as Hj by (apply Nat.mod_upper_bound; lia).
    destruct (lookup_lt_is_Some_2 pool j Hj) as [x Hx].
    pose proof (take_drop_middle pool j x Hx) as Hsplit.
    rewrite <- Hsplit in Hnd.
    apply NoDup_app in Hnd as (Hnd1 & Hdisj & Hnd2).
    apply NoDup_cons in Hnd2 as [Hx2 Hnd2].
    assert (NoDup (take j pool ++ drop (S j) pool)) as Hnd'.
    { apply NoDup_app. split; [done|]. split; [|done].
      intros y Hy Hy'. apply (Hdisj y Hy). by right. }
    assert (x ∉ take j pool ++ drop (S j) pool) as Hx'.
    { intros [H|H]%elem_of_app; [|done]. apply (Hdisj x H). by left. }
    assert (length (take j pool ++ drop (S j) pool) = pred (length pool)) as Hlen.
    { rewrite length_app, length_take, length_drop. lia. }
    destruct (IH (take j pool ++ drop (S j) pool) w1 Hnd' ltac:(lia))
      as (l & w2 & E2 & Hl & Hndl & Hsub & T2).
    exists (x :: l), w2. split; [|split; [|split; [|split]]].
    + simpl. apply bind_Ok. exists r, w1. split; [exact E1|].
      fold j. apply bind_Ok. exists l, w2. split; [exact E2|].
      rewrite nth_lookup, Hx. reflexivity.
    + simpl. by rewrite Hl.
    + apply NoDup_cons. split; [|done]. intros H. apply Hx', Hsub, H.
    + intros y [->|Hy]%elem_of_cons.
      * eapply list_elem_of_lookup_2, Hx.
      * apply Hsub in Hy. rewrite <- Hsplit.
        apply elem_of_app in Hy as [Hy|Hy]; apply elem_of_app; [by left|].
        right. by right.
    + etrans; [exact T1 | exact T2].
Qed.

Lemma random_sample_range_total n k w :
  0 <= k <= Z.of_nat n ->
  exists l w', random_sample_range n k w = Ok l w'
    /\ length l = Z.to_nat k /\ NoDup l /\ (forall i, i ∈ l -> (i < n)%nat)
    /\ only_tape w w'.
Proof.
  intros Hk. unfold random_sample_range.
  replace ((k <? 0) || (Z.of_nat n <? k)) with false by lia.
  destruct (sample_from_total (seq 0 n) (Z.to_nat k) w (NoDup_seq 0 n))
    as (l & w' & E & Hl & Hnd & Hsub & T).
  { rewrite length_seq. lia. }
  exists l, w'. split; [exact E|]. split; [exact Hl|]. split; [exact Hnd|].
  split; [|exact T].
  intros i Hi. apply Hsub, elem_of_seq in Hi. lia.
Qed.

Lemma length_map_col f cols c row : length (map_col f cols c row) = length row.
Proof.
  revert row. induction cols as [|c0 cols IH]; intros [|x row]; simpl; auto.
Qed.

Lemma lookup_col_map_col f cols c row c' :
  lookup_col cols (map_col f cols c row) c'
  = if decide (c' = c) then f <$> lookup_col cols row c' else lookup_col cols row c'.
Proof.
  revert row. induction cols as [|c0 cols IH]; intros [|x row]; simpl;
    try (by case_decide).
  destruct (String.eqb_spec c0 c') as [->|Hne].
  - destruct (String.eqb_spec c' c) as [->|Hne'].
    + by rewrite decide_True.
    + by rewrite decide_False.
  - apply IH.
Qed.

Lemma lookup_col_is_Some cols row c :
  c ∈ cols -> length row = length cols -> is_Some (lookup_col cols row c).
Proof.
  revert row. induction cols as [|c0 cols IH]; intros row Hc Hl.
  - by apply not_elem_of_nil in Hc.
  - destruct row as [|x row]; [discriminate|]. simpl.
    destruct (String.eqb_spec c0 c) as [->|Hne]; [eauto|].
    apply IH; [|simpl in Hl; lia].
    apply elem_of_cons in Hc as [->|Hc]; [done | exact Hc].
Qed.

Lemma cell_is_Some df i c :
  wf_frame df -> (i < length (rows df))%nat -> c ∈ columns df ->
  is_Some (cell df i c).
Proof.
  intros [_ Hrect] Hi Hc. unfold cell.
  destruct (lookup_lt_is_Some_2 _ _ Hi) as [row Hrow]. rewrite Hrow. simpl.
  apply lookup_col_is_Some; [done|].
  eapply (proj1 (Forall_forall _ _) Hrect), list_elem_of_lookup_2, Hrow.
Qed.

Lemma cell_loc_set_none indices c df i c' :
  cell (loc_set_none indices c df) i c'
  = if decide (i ∈ indices /\ c' = c)
    then (fun _ => PNone) <$> cell df i c' else cell df i c'.
Proof.
  unfold cell, loc_set_none. simpl. rewrite list_lookup_imap.
  destruct (rows df !! i) as [row|]; simpl; [|by case_decide].
  destruct (decide (i ∈ indices)) as [Hi|Hi].
  - rewrite bool_decide_eq_true_2 by done. unfold at_set.
    rewrite lookup_col_map_col.
    destruct (decide (c' = c)) as [->|Hne].
    + by rewrite decide_True.
    + rewrite decide_False; [done | tauto].
  - rewrite bool_decide_eq_false_2 by done.
    rewrite decide_False; [done | tauto].
Qed.

Section Injector.
Variable self : DataErrorGenerator.
Variable df : DataFrame.

Let n := length (rows df).
Let k := num_empty self n.

Hypothesis k_range : 0 <= k <= Z.of_nat n.

Lemma inject_fold cs :
  NoDup cs ->
  forall dfe w, exists dfe' w',
    foldM (inject_column self df) dfe cs w = Ok dfe' w'
    /\ only_tape w w'
    /\ columns dfe' = columns dfe
    /\ length (rows dfe') = length (rows dfe)
    /\ forall c,
         (c ∉ cs \/ is_id_column c = true -> untouched dfe dfe' c)
         /\ (c ∈ cs -> is_id_column c = false -> emptied n k dfe dfe' c).
Proof.
  induction 1 as [|c0 cs Hc0 Hnd IH]; intros dfe w.
  - exists dfe, w. split; [done|]. split; [reflexivity|]. split; [done|].
    split; [done|]. intros c. split; [done|].
    intros Hc. by apply not_elem_of_nil in Hc.
  - assert (exists dfe1 w1,
              inject_column self df dfe c0 w = Ok dfe1 w1 /\ only_tape w w1
              /\ columns dfe1 = columns dfe
              /\ length (rows dfe1) = length (rows dfe)
              /\ (forall c, c <> c0 -> untouched dfe dfe1 c)
              /\ (is_id_column c0 = true -> untouched dfe dfe1 c0)
              /\ (is_id_column c0 = false -> emptied n k dfe dfe1 c0))
      as (dfe1 & w1 & E1 & T1 & C1 & L1 & Hother & Hid & Hnot).
    { unfold inject_column. destruct (is_id_column c0) eqn:Hidc; simpl.
      - exists dfe, w. split; [done|]. split; [reflexivity|].
        repeat split; try done.
      - destruct (random_sample_range_total n k w k_range)
          as (l & w1 & E & Hl & Hndl & Hlt & T).
        exists (loc_set_none l c0 dfe), w1. split.
        { apply bind_Ok. exists l, w1. split; [exact E | reflexivity]. }
        split; [exact T|]. split; [done|]. split.
        { simpl. apply length_imap. }
        split; [|split; [done|]].
        + intros c Hne i. rewrite cell_loc_set_none.
          rewrite decide_False; [done | tauto].
        + intros _. exists l, w, w1. split; [exact E|].
          split; [done|]. split; [done|]. split; [done|].
          intros i. rewrite cell_loc_set_none.
          destruct (decide (i ∈ l)).
          * rewrite decide_True; [done | tauto].
          * rewrite decide_False; [done | tauto]. }
    destruct (IH dfe1 w1) as (dfe' & w' & E & T & C & L & Hcells).
    exists dfe', w'. split.
    { simpl. apply bind_Ok. exists dfe1, w1. split; [exact E1 | exact E]. }
    split; [etrans; [exact T1 | exact T]|].
    split; [congruence|]. split; [congruence|].
    intros c. destruct (Hcells c) as [Hu He].
    destruct (decide (c = c0)) as [->|Hne].
    + assert (untouched dfe1 dfe' c0) as U by (apply Hu; by left).
      split.
      * intros [Hout|Hidc]; [exfalso; apply Hout; by left|].
        intros i. rewrite U. by apply Hid.
      * intros _ Hidc. destruct (Hnot Hidc) as (l & wa & wb & ? & ? & ? & ? & Hl).
        exists l, wa, wb. split; [done|]. split; [done|]. split; [done|].
        split; [done|]. intros i. rewrite U. apply Hl.
    + split.
      * intros Hc i. rewrite <- (Hother c Hne i). apply Hu.
        destruct Hc as [Hc|Hc]; [left | by right].
        intros Hin. apply Hc. by right.
      * intros Hc Hidc.
        apply elem_of_cons in Hc as [Hc|Hc]; [done|].
        destruct (He Hc Hidc) as (l & wa & wb & ? & ? & ? & ? & Hl).
        exists l, wa, wb. split; [done|]. split; [done|]. split; [done|].
        split; [done|]. intros i. rewrite Hl. by rewrite !(Hother c Hne).
Qed.
End Injector.

Lemma num_empty_range self n :
  (0 <= max_empty_percentage self <= 1)%Q ->
  0 <= num_empty self n <= Z.of_nat n.
Proof.
  intros [H0 H1]. unfold num_empty. cbv zeta.
  set (x := (inject_Z (Z.of_nat n) * max_empty_percentage self)%Q).
  assert (0 <= x <= inject_Z (Z.of_nat n))%Q as Hx.
  { assert (0 <= inject_Z (Z.of_nat n))%Q by (unfold Qle; simpl; lia).
    unfold x. split; nra. }
  apply truncate_bound. destruct (Z.of_nat n <=? 2 ^ 53) eqn:E; [|exact Hx].
  apply round64_int_bound; [lia | exact Hx].
Qed.

Lemma num_empty_float self n :
  Z.of_nat n <= 2 ^ 53 ->
  num_empty self n
  = truncate (round64 (inject_Z (Z.of_nat n) * max_empty_percentage self)).
Proof.
  intros H. unfold num_empty. cbv zeta.
  by replace (Z.of_nat n <=? 2 ^ 53) with true by lia.
Qed.

Lemma next_raw_pop sv x t fs :
  next_raw (mkWorld sv (x :: t) fs) = Ok x (mkWorld sv t fs).
Proof. reflexivity. Qed.

Lemma length_without {A} (pool : list A) j :
  (j < length pool)%nat ->
  length (take j pool ++ drop (S j) pool) = (length pool - 1)%nat.
Proof. intros H. rewrite length_app, length_take, length_drop. lia. Qed.

Lemma sample_from_reaches pool l sv fs :
  l ⊆ pool -> NoDup l ->
  exists t w', length t = length l /\ reduced (length pool) t
               /\ sample_from pool (length l) (mkWorld sv t fs) = Ok l w'.
Proof.
  revert pool. induction l as [|x l IH]; intros pool Hsub Hnd.
  - exists [], (mkWorld sv [] fs). done.
  - apply NoDup_cons in Hnd as [Hx Hnd].
    assert (x ∈ pool) as Hin by (apply Hsub; left).
    apply list_elem_of_lookup in Hin as [j Hj].
    pose proof (lookup_lt_Some _ _ _ Hj) as Hlt.
    destruct (IH (take j pool ++ drop (S j) pool)) as (t & w' & Ht & Hr & E);
      [|exact Hnd|].
    { intros y Hy. assert (y ∈ pool) as Hyp by (apply Hsub; by right).
      rewrite <- (take_drop_middle pool j x Hj) in Hyp.
      apply elem_of_app in Hyp as [Hyp|Hyp]; [apply elem_of_app; by left|].
      apply elem_of_cons in Hyp as [->|Hyp]; [done | apply elem_of_app; by right]. }
    rewrite length_without in Hr by exact Hlt.
    exists (N.of_nat j :: t), w'. split; [cbn; by rewrite Ht|]. split.
    { cbn [reduced]. by rewrite Nat2N.id. }
    cbn [length sample_from].
    apply bind_Ok. eexists _, _. split; [apply next_raw_pop|].
    rewrite Nat2N.id, Nat.mod_small by exact Hlt.
    apply bind_Ok. exists l, w'. split; [exact E|].
    by rewrite (nth_lookup_Some _ _ _ _ Hj).
Qed.

Lemma sample_from_injective pool k sv fs t t' l w w' :
  NoDup pool -> length t = k -> length t' = k ->
  reduced (length pool) t -> reduced (length pool) t' ->
  sample_from pool k (mkWorld sv t fs) = Ok l w ->
  sample_from pool k (mkWorld sv t' fs) = Ok l w' ->
  t' = t.
Proof.
  revert pool t t' l w w'. induction k as [|k IH]; intros pool t t' l w w' Hnd Ht Ht'.
  - destruct t, t'; try discriminate. done.
  - destruct t as [|j t], t' as [|j' t']; try discriminate.
    cbn [reduced]. intros [Hj Hr] [Hj' Hr'].
    cbn [sample_from]. intros E E'.
    apply bind_Ok in E as (r & w1 & En & E). rewrite next_raw_pop in En.
    injection En as <- <-.
    apply bind_Ok in E as (rest & w2 & Er & [<- _]%ret_Ok).
    apply bind_Ok in E' as (r' & w1' & En' & E'). rewrite next_raw_pop in En'.
    injection En' as <- <-.
    apply bind_Ok in E' as (rest' & w2' & Er' & [[= Hx Hrest] _]%ret_Ok).
    rewrite !Nat.mod_small in * by done.
    destruct (lookup_lt_is_Some_2 pool _ Hj) as [x Hjx].
    destruct (lookup_lt_is_Some_2 pool _ Hj') as [x' Hjx'].
    rewrite (nth_lookup_Some _ _ _ _ Hjx), (nth_lookup_Some _ _ _ _ Hjx') in Hx.
    subst x'. pose proof (NoDup_lookup _ _ _ _ Hnd Hjx Hjx') as Hjj.
    apply N2Nat.inj in Hjj. subst j'. f_equal. subst rest'.
    eapply (IH (take (N.to_nat j) pool ++ drop (S (N.to_nat j)) pool));
      [| | | | |exact Er|exact Er'].
    + rewrite <- (take_drop_middle pool _ x Hjx) in Hnd.
      apply NoDup_app in Hnd as (H1 & H2 & H3). apply NoDup_cons in H3 as [H3 H4].
      apply NoDup_app. split; [done|]. split; [|done].
      intros y Hy Hy'. apply (H2 y Hy). by right.
    + cbn in Ht. lia.
    + cbn in Ht'. lia.
    + by rewrite length_without.
    + by rewrite length_without.
Qed.



(** ** Dates *)

Lemma days_from_civil_range y m d :
  2 <= y <= 9999 -> 1 <= m <= 12 -> 1 <= d <= 31 ->
  -718797 <= days_from_civil y m d <= 2932896.
Proof.
  intros. unfold days_from_civil.
  destruct (m <=? 2) eqn:E1, (2 <? m) eqn:E2; cbv beta iota zeta;
    Z.div_mod_to_equations; lia.
Qed.

Lemma civil_from_days_year z :
  -719162 <= z <= 2932896 ->
  1 <= (civil_from_days z).1.1 <= 9999.
Proof.
  intros. unfold civil_from_days. cbv zeta.
  set (z' := z + 719468).
  set (era := z' / 146097).
  set (doe := z' - era * 146097).
  set (yoe := (doe - doe / 1460 + doe / 36524 - doe / 146096) / 365).
  set (doy := doe - (365 * yoe + yoe / 4 - yoe / 100)).
  set (mp := (5 * doy + 2) / 153).
  simpl.
  destruct (mp <? 10) eqn:E1.
  - destruct (mp + 3 <=? 2) eqn:E2; subst mp doy yoe doe era z';
      Z.div_mod_to_equations; lia.
  - destruct (mp - 9 <=? 2) eqn:E2; subst mp doy yoe doe era z';
      Z.div_mod_to_equations; lia.
Qed.

Lemma valid_datetime_ranges dt :
  valid_datetime dt = true ->
  1 <= year dt <= 9999 /\ 1 <= month dt <= 12 /\ 1 <= day dt <= 31
  /\ 0 <= hour dt <= 23 /\ 0 <= minute dt <= 59 /\ 0 <= second dt <= 59.
Proof.
  unfold valid_datetime. intros H.
  repeat (apply andb_prop in H as [H ?]).
  assert (days_in_month (year dt) (month dt) <= 31).
  { unfold days_in_month.
    destruct (month dt =? 2); [destruct (is_leap (year dt)); lia|].
    destruct (_ || _); lia. }
  lia.
Qed.

(** From the second year on, a [datetime] minus at most four weeks is a
    [datetime]. *)
Lemma datetime_sub_total dt delta :
  valid_datetime dt = true -> 2 <= year dt -> 0 <= delta <= 2419200 ->
  is_Some (datetime_sub dt delta).
Proof.
  intros Hv Hy Hd. apply valid_datetime_ranges in Hv.
  pose proof (days_from_civil_range (year dt) (month dt) (day dt)
                ltac:(lia) ltac:(lia) ltac:(lia)) as HD.
  unfold datetime_sub.
  set (t := to_seconds dt - delta).
  assert (-719162 <= t / 86400 <= 2932896) as Ht.
  { unfold t, to_seconds. Z.div_mod_to_equations. lia. }
  pose proof (civil_from_days_year _ Ht) as Hyr.
  unfold of_seconds. destruct (civil_from_days (t / 86400)) as [[y m] d].
  cbn [fst] in Hyr. cbn [year].
  replace ((1 <=? y) && (y <=? 9999)) with true by lia. eauto.
Qed.

(** *** A reformatted timestamp is not in the base format *)

Abbreviation chars := list_ascii_of_string.

Lemma chars_app s1 s2 : chars (s1 +:+ s2) = chars s1 ++ chars s2.
Proof. induction s1 as [|c s1 IH]; simpl; [done | by rewrite IH]. Qed.

Lemma in_all_ascii x : In x all_ascii.
Proof.
  rewrite <- (ascii_nat_embedding x). apply in_map, in_seq.
  pose proof (nat_ascii_bounded x). lia.
Qed.

Lemma directive_classes c alt p x :
  In alt (directive_regex c) -> In p alt -> p x = true -> plain x = true.
Proof.
  intros Halt Hp Hx.
  assert (forallb (fun alt =>
            forallb (fun p : cls =>
              forallb (fun x => implb (p x) (plain x)) all_ascii) alt)
            (directive_regex c) = true) as H.
  { unfold directive_regex. repeat destruct (Ascii.eqb _ _); vm_compute; reflexivity. }
  rewrite forallb_forall in H. specialize (H alt Halt).
  rewrite forallb_forall in H. specialize (H p Hp).
  rewrite forallb_forall in H. specialize (H x (in_all_ascii x)).
  rewrite Hx in H. exact H.
Qed.

Lemma first_some_Some {A B} (f : A -> option B) l y :
  first_some f l = Some y -> exists x, In x l /\ f x = Some y.
Proof.
  induction l as [|x l IH]; simpl; [discriminate|].
  destruct (f x) eqn:E.
  - intros [= <-]. eauto.
  - intros H. destruct (IH H) as (x' & ? & ?). eauto.
Qed.

Lemma space_rests_spec s rest :
  In rest (space_rests s) ->
  exists pre, chars s = pre ++ chars rest /\ Forall (fun x => plain x = true) pre.
Proof.
  induction s as [|c s IH]; simpl; [done|].
  destruct (is_space c) eqn:Hc; [|done].
  intros [H|H]%in_app_or.
  - destruct (IH H) as (pre & -> & HF). exists (c :: pre). split; [done|].
    constructor; [|done]. unfold plain. rewrite Hc. apply orb_true_r.
  - destruct H as [<-|[]]. exists [c]. split; [done|].
    constructor; [|done]. unfold plain. rewrite Hc. apply orb_true_r.
Qed.

Lemma match_classes_spec cs acc s v rest :
  match_classes cs acc s = Some (v, rest) ->
  exists pre, chars s = pre ++ chars rest
    /\ Forall (fun x => exists p, In p cs /\ p x = true) pre.
Proof.
  revert acc s. induction cs as [|p cs IH]; intros acc s; simpl.
  - intros [= _ <-]. exists []. split; [done | constructor].
  - destruct s as [|c s]; [discriminate|]. destruct (p c) eqn:Hp; [|discriminate].
    intros H. destruct (IH _ _ H) as (pre & E & HF). exists (c :: pre). split.
    + simpl. by rewrite E.
    + constructor; [eauto|]. eapply Forall_impl; [exact HF|].
      intros x (q & ? & ?). eauto.
Qed.

(** A string the format matches contains every literal of the format, and
    nothing but digits, white space and these literals. *)
Lemma regex_match_chars toks s dt r :
  regex_match toks s dt = Some r ->
  (forall c, In (TLit c) toks -> In c (chars s))
  /\ (forall x, In x (chars s) -> plain x = true \/ In (TLit x) toks).
Proof.
  revert s dt. induction toks as [|t toks IH]; intros s dt; simpl.
  - destruct s; [|discriminate]. intros _. split; intros ? [].
  - destruct t as [c| |c].
    + intros (alt & Halt & H)%first_some_Some.
      destruct (match_classes alt 0 s) as [[v rest]|] eqn:E; [|discriminate].
      destruct (match_classes_spec _ _ _ _ _ E) as (pre & -> & HF).
      destruct (IH _ _ H) as [IH1 IH2]. split.
      * intros c' [[=]|Hc']. apply in_or_app. right. by apply IH1.
      * intros x [Hx|Hx]%in_app_or.
        -- left. rewrite Forall_forall in HF.
           destruct (HF x) as (p & Hp & Hpx); [by apply list_elem_of_In|].
           eapply directive_classes; eauto.
        -- destruct (IH2 x Hx); auto.
    + intros (rest & Hrest & H)%first_some_Some.
      destruct (space_rests_spec _ _ Hrest) as (pre & -> & HF).
      destruct (IH _ _ H) as [IH1 IH2]. split.
      * intros c' [[=]|Hc']. apply in_or_app. right. by apply IH1.
      * intros x [Hx|Hx]%in_app_or.
        -- left. rewrite Forall_forall in HF. by apply HF, list_elem_of_In.
        -- destruct (IH2 x Hx); auto.
    + destruct s as [|d s]; [discriminate|].
      destruct (Ascii.eqb_spec c d) as [<-|]; [|discriminate].
      intros H. destruct (IH _ _ H) as [IH1 IH2]. split.
      * intros c' [[= <-]|Hc']; [by left | right; by apply IH1].
      * intros x [<-|Hx]; [right; by left|].
        destruct (IH2 x Hx); auto.
Qed.

Lemma zfill_digits n z :
  (n = 2 \/ n = 4)%nat -> 0 <= z <= 9999 ->
  Forall (fun x => is_digit x = true) (chars (zfill n z)).
Proof.
  intros Hn Hz.
  assert (forallb (fun i => forallb is_digit (chars (zfill 2 (Z.of_nat i)))
                            && forallb is_digit (chars (zfill 4 (Z.of_nat i))))
            (seq 0 (Z.to_nat 10000)) = true) as H by (vm_compute; reflexivity).
  rewrite forallb_forall in H. specialize (H (Z.to_nat z)).
  rewrite Z2Nat.id in H by lia.
  destruct (andb_prop _ _ (H ltac:(apply in_seq; lia))) as [H2 H4].
  apply Forall_forall. intros x Hx%list_elem_of_In.
  rewrite forallb_forall in H2, H4. destruct Hn as [->| ->]; auto.
Qed.

Ltac chars_forall HD :=
  repeat first
    [ progress cbn [list_ascii_of_string]
    | rewrite chars_app
    | apply Forall_app; split
    | apply Forall_cons; split
    | apply Forall_nil
    | apply HD; [lia | lia | auto]
    | solve [auto] ].

Lemma strftime_not_parsed dt fmt :
  valid_datetime dt = true -> In fmt alternate_formats ->
  strptime (strftime dt fmt) base_datetime_format = None.
Proof.
  intros Hv Hfmt. apply valid_datetime_ranges in Hv.
  unfold alternate_formats, formats in Hfmt. cbn [fmap list_fmap fst] in Hfmt.
  destruct (strptime _ _) as [r|] eqn:E; [exfalso | done].
  unfold strptime in E.
  destruct (regex_match _ _ _) as [r'|] eqn:Er; [clear E | discriminate].
  apply regex_match_chars in Er as [Hlit Hchars].
  assert (forall n z, (n = 2 \/ n = 4)%nat -> 0 <= z <= 9999 ->
            forall P : ascii -> Prop, (forall x, is_digit x = true -> P x) ->
            Forall P (chars (zfill n z))) as HD.
  { intros n z Hn Hz P HP. eapply Forall_impl; [by apply zfill_digits | exact HP]. }
  assert (forall c, plain c = false -> ~ In (TLit c) (tokens base_datetime_format) ->
            ~ In c (chars (strftime dt fmt))) as Hno.
  { intros c Hc Ht Hin. destruct (Hchars c Hin); [congruence | done]. }
  assert (forall P : ascii -> Prop, forall c,
            In (TLit c) (tokens base_datetime_format) -> ~ P c ->
            ~ Forall P (chars (strftime dt fmt))) as Hmust.
  { intros P c Hc HP HF. rewrite Forall_forall in HF.
    apply HP, HF, list_elem_of_In, Hlit, Hc. }
  destruct Hfmt as [<-|[<-|[<-|[<-|[]]]]].
  - apply (Hno "/"%char); [reflexivity | vm_compute; intuition discriminate |].
    change (strftime dt "%Y/%m/%d %H:%M:%S")
      with (zfill 4 (year dt) +:+ String "/" (strftime dt "%m/%d %H:%M:%S")).
    rewrite chars_app. apply in_or_app. right. by left.
  - apply (Hmust (fun x => is_digit x = true \/ x = " "%char \/ x = ":"%char) "-"%char).
    + vm_compute. repeat first [left; reflexivity | right].
    + intros [H|[H|H]]; discriminate.
    + change (strftime dt "%Y%m%d %H:%M:%S")
        with (zfill 4 (year dt) +:+ zfill 2 (month dt) +:+ zfill 2 (day dt)
              +:+ String " " (zfill 2 (hour dt) +:+ String ":" (zfill 2 (minute dt)
              +:+ String ":" (zfill 2 (second dt) +:+ "")))).
      chars_forall HD.
  - apply (Hmust (fun x => is_digit x = true \/ x = " "%char \/ x = "-"%char) ":"%char).
    + vm_compute. repeat first [left; reflexivity | right].
    + intros [H|[H|H]]; discriminate.
    + change (strftime dt "%Y-%m-%d %H%M%S")
        with (zfill 4 (year dt) +:+ String "-" (zfill 2 (month dt)
              +:+ String "-" (zfill 2 (day dt)
              +:+ String " " (zfill 2 (hour dt) +:+ zfill 2 (minute dt)
              +:+ zfill 2 (second dt) +:+ "")))).
      chars_forall HD.
  - apply (Hmust (fun x => is_digit x = true \/ x = " "%char \/ x = "-"%char) ":"%char).
    + vm_compute. repeat first [left; reflexivity | right].
    + intros [H|[H|H]]; discriminate.
    + change (strftime dt "%Y-%m-%d-%H-%M-%S")
        with (zfill 4 (year dt) +:+ String "-" (zfill 2 (month dt)
              +:+ String "-" (zfill 2 (day dt)
              +:+ String "-" (zfill 2 (hour dt) +:+ String "-" (zfill 2 (minute dt)
              +:+ String "-" (zfill 2 (second dt) +:+ "")))))).
      chars_forall HD.
Qed.

(** * Runs that return *)

Lemma draws_to_ret {A} (a : A) (Q : A -> Prop) : Q a -> draws_to (mret a) Q.
Proof. intros H w. exists a, w. split; [done|]. split; [done | reflexivity]. Qed.

Lemma draws_to_bind {A B} (m : M A) (k : A -> M B) (P : A -> Prop) (Q : B -> Prop) :
  draws_to m P -> (forall a, P a -> draws_to (k a) Q) -> draws_to (m ≫= k) Q.
Proof.
  intros Hm Hk w. destruct (Hm w) as (a & w1 & E1 & Ha & T1).
  destruct (Hk a Ha w1) as (b & w2 & E2 & Hb & T2).
  exists b, w2. split; [apply bind_Ok; eauto|]. split; [done|]. by etrans.
Qed.

Lemma draws_to_weaken {A} (m : M A) (P Q : A -> Prop) :
  draws_to m P -> (forall a, P a -> Q a) -> draws_to m Q.
Proof.
  intros Hm HPQ w. destruct (Hm w) as (a & w' & ? & ? & ?). eauto 6.
Qed.

Lemma should_introduce_error_total self :
  draws_to (should_introduce_error self) (fun _ => True).
Proof.
  intros w. destruct (random_random_total w) as (r & w' & E & _ & _ & T).
  exists (Qlt_bool r (error_prob self)), w'. split; [|done].
  unfold should_introduce_error. apply bind_Ok. eauto.
Qed.

Lemma random_choice_total {A} (l : list A) :
  l <> [] -> draws_to (random_choice l) (fun x => x ∈ l).
Proof.
  intros Hl w. destruct l as [|d l]; [done|].
  destruct (next_raw_total w) as (n & w' & E & T).
  eexists _, w'. split; [|split; [|exact T]].
  - unfold random_choice. apply bind_Ok. eauto.
  - apply list_elem_of_In, nth_In, Nat.mod_upper_bound. discriminate.
Qed.

Lemma random_randint_draws_to a b :
  a <= b -> draws_to (random_randint a b) (fun n => a <= n <= b).
Proof. intros H w. by apply random_randint_total. Qed.

Lemma lower_some_total s : draws_to (lower_some s) (fun _ => True).
Proof.
  induction s as [|c s IH]; simpl.
  - by apply draws_to_ret.
  - intros w. destruct (random_random_total w) as (r & w1 & E1 & _ & _ & T1).
    destruct (IH w1) as (rest & w2 & E2 & _ & T2).
    eexists _, w2. split; [|split; [done | by etrans]].
    apply bind_Ok. exists r, w1. split; [done|].
    apply bind_Ok. exists rest, w2. split; [done|]. reflexivity.
Qed.

Lemma modify_ride_id_total self v :
  str_or_na v = true -> draws_to (modify_ride_id self v) (fun v' => str_or_na v' = true).
Proof.
  intros Hv. unfold modify_ride_id. destruct (isna v) eqn:Hna.
  { by apply draws_to_ret. }
  destruct v as [| |s|z|q]; try discriminate.
  eapply draws_to_bind; [apply should_introduce_error_total | intros g1 _].
  eapply draws_to_bind with (P := fun v => is_str v = true).
  { destruct g1; by apply draws_to_ret. }
  intros [| |s'|z|q] Hs'; try discriminate.
  eapply draws_to_bind; [apply should_introduce_error_total | intros g2 _].
  destruct g2; [|by apply draws_to_ret].
  eapply draws_to_bind; [apply lower_some_total | intros s'' _].
  by apply draws_to_ret.
Qed.

Lemma modify_rideable_type_total self v :
  str_or_na v = true ->
  draws_to (modify_rideable_type self v) (fun v' => str_or_na v' = true).
Proof.
  intros Hv. unfold modify_rideable_type. destruct (isna v) eqn:Hna.
  { by apply draws_to_ret. }
  destruct v as [| |s|z|q]; try discriminate.
  eapply draws_to_bind; [apply should_introduce_error_total | intros g _].
  destruct g; [|by apply draws_to_ret].
  destruct (first_containing rideable_errors s) as [variants|] eqn:E;
    [|by apply draws_to_ret].
  eapply draws_to_bind with (P := fun _ => True); [|intros; by apply draws_to_ret].
  eapply draws_to_weaken; [apply random_choice_total | done].
  unfold rideable_errors in E. cbn [first_containing] in E.
  repeat (destruct (py_contains _ _); [injection E as <-; discriminate|]).
  discriminate.
Qed.

Lemma modify_member_type_total self v :
  str_or_na v = true ->
  draws_to (modify_member_type self v) (fun v' => str_or_na v' = true).
Proof.
  intros Hv. unfold modify_member_type. destruct (isna v) eqn:Hna.
  { by apply draws_to_ret. }
  destruct v as [| |s|z|q]; try discriminate.
  eapply draws_to_bind; [apply should_introduce_error_total | intros g _].
  destruct g; [|by apply draws_to_ret].
  destruct (first_equal_lower member_errors s) as [variants|] eqn:E;
    [|by apply draws_to_ret].
  eapply draws_to_bind with (P := fun _ => True); [|intros; by apply draws_to_ret].
  eapply draws_to_weaken; [apply random_choice_total | done].
  unfold member_errors in E. cbn [first_equal_lower] in E.
  repeat (destruct (String.eqb _ _); [injection E as <-; discriminate|]).
  discriminate.
Qed.

Lemma strptime_valid s fmt dt : strptime s fmt = Some dt -> valid_datetime dt = true.
Proof.
  unfold strptime. destruct (regex_match _ _ _) as [r|]; [simpl | discriminate].
  destruct (valid_datetime r) eqn:E; [by intros [= <-] | discriminate].
Qed.

(** Whatever [_format_datetime] returns is not in the base format. *)
Lemma format_datetime_total v :
  draws_to (format_datetime v)
    (fun v' => strptime_val v' base_datetime_format = None
               /\ (strptime_val v base_datetime_format = None -> v' = v)).
Proof.
  unfold format_datetime.
  destruct (strptime_val v base_datetime_format) as [dt|] eqn:E.
  - eapply draws_to_bind; [apply (random_choice_total formats); discriminate|].
    intros [chosen_format transformer] Hin. apply draws_to_ret. split; [|done].
    simpl. apply strftime_not_parsed.
    + destruct v; try discriminate. eapply strptime_valid, E.
    + apply list_elem_of_In. unfold alternate_formats.
      change chosen_format with (chosen_format, transformer).1.
      by apply list_elem_of_fmap_2.
  - by apply draws_to_ret.
Qed.

Lemma modify_datetime_total self start_dt end_dt :
  date_ok start_dt = true ->
  draws_to (modify_datetime self start_dt end_dt) (fun _ => True).
Proof.
  intros Hd. unfold modify_datetime.
  destruct (isna start_dt || isna end_dt); [by apply draws_to_ret|].
  eapply draws_to_bind; [apply should_introduce_error_total | intros g1 _].
  eapply draws_to_bind with (P := fun p => date_ok p.1 = true).
  { destruct g1; [|by apply draws_to_ret].
    eapply draws_to_bind; [apply format_datetime_total | intros s [Hs _]].
    eapply draws_to_bind; [apply format_datetime_total | intros e _].
    apply draws_to_ret. unfold date_ok. simpl. by rewrite Hs. }
  intros [s e] Hs. simpl in Hs.
  eapply draws_to_bind; [apply should_introduce_error_total | intros g2 _].
  destruct g2; [|by apply draws_to_ret].
  unfold date_ok in Hs.
  destruct (strptime_val s base_datetime_format) as [dt|] eqn:E;
    [|by apply draws_to_ret].
  assert (valid_datetime dt = true) as Hv.
  { destruct s; try discriminate. eapply strptime_valid, E. }
  eapply draws_to_bind; [apply (random_randint_draws_to 1 24); lia | intros h Hh].
  eapply draws_to_bind; [apply (random_randint_draws_to 1 7); lia | intros d Hday].
  eapply draws_to_bind; [apply (random_randint_draws_to 1 4); lia | intros k Hk].
  eapply draws_to_bind; [apply random_choice_total; discriminate | intros delta Hin].
  assert (0 <= delta <= 2419200) as Hdelta.
  { unfold td_hours, td_days, td_weeks in Hin. cbv beta in Hh, Hday, Hk.
    repeat (apply elem_of_cons in Hin as [->|Hin]; [lia|]).
    by apply not_elem_of_nil in Hin. }
  destruct (datetime_sub_total dt delta Hv ltac:(lia) Hdelta) as [dt' ->].
  by apply draws_to_ret.
Qed.

(** ** The invariant of the registry along a run *)

Lemma returns_ret {A} (a : A) (Q : A -> Prop) : Q a -> returns (mret a) Q.
Proof. intros H w Hw. by exists a, w. Qed.

Lemma returns_bind {A B} (m : M A) (k : A -> M B) (P : A -> Prop) (Q : B -> Prop) :
  returns m P -> (forall a, P a -> returns (k a) Q) -> returns (m ≫= k) Q.
Proof.
  intros Hm Hk w Hw. destruct (Hm w Hw) as (a & w1 & E1 & Ha & Hw1 & F1).
  destruct (Hk a Ha w1 Hw1) as (b & w2 & E2 & Hb & Hw2 & F2).
  exists b, w2. split; [apply bind_Ok; eauto|]. split; [done|].
  split; [done | congruence].
Qed.

Lemma draws_returns {A} (m : M A) (Q : A -> Prop) : draws_to m Q -> returns m Q.
Proof.
  intros Hm w Hw. destruct (Hm w) as (a & w' & E & Ha & R & F).
  exists a, w'. split; [done|]. split; [done|]. split; [|done].
  intros s v. rewrite R. apply Hw.
Qed.

Lemma returns_mapM {A B} (f : A -> M B) (P : A -> Prop) (Q : B -> Prop) l :
  (forall x, P x -> returns (f x) Q) -> Forall P l ->
  returns (mapM f l) (fun l' => length l' = length l /\ Forall Q l').
Proof.
  intros Hf. induction 1 as [|x l Hx Hl IH]; simpl.
  - by apply returns_ret.
  - eapply returns_bind; [by apply Hf | intros y Hy].
    eapply returns_bind; [apply IH | intros ys [Hlen Hys]].
    apply returns_ret. simpl. split; [by rewrite Hlen | by constructor].
Qed.

Lemma id_variants_of_nonempty station_id : id_variants_of station_id <> [].
Proof.
  unfold id_variants_of. destruct (isna station_id); [done|].
  destruct (py_float station_id); [|done]. by destruct (py_int station_id).
Qed.

Lemma get_station_variants_total s station_id lat lng :
  num_or_na lat = true -> num_or_na lng = true ->
  returns (get_station_variants (PStr s) station_id lat lng) wf_variants.
Proof.
  intros Hlat Hlng w Hw.
  destruct (station_variants w !! s) as [v|] eqn:Hs.
  { exists v, w. split; [by apply get_station_variants_cached|]. eauto. }
  assert (exists l w1,
            (num_variants ← random_randint 3 4;
             if negb (is_None lat) && negb (is_None lng)
                && negb (isna lat || isna lng)
             then jitter (Z.to_nat num_variants) lat lng []
             else mret [(lat, lng)]) w = Ok l w1
            /\ only_tape w w1 /\ l <> []
            /\ Forall (fun p => num_or_na p.1 = true /\ num_or_na p.2 = true) l)
    as (l & w1 & E & [R F] & Hne & Hty).
  { destruct (random_randint_total 3 4 w ltac:(lia)) as (n & w0 & E0 & Hn & T0).
    destruct (negb (is_None lat) && negb (is_None lng) && negb (isna lat || isna lng))
      eqn:Hc.
    - assert (exists la lo, float_of lat = Some la /\ float_of lng = Some lo)
        as (la & lo & Hla & Hlo).
      { destruct lat, lng; try discriminate; simpl; eauto. }
      destruct (jitter_total (Z.to_nat n) lat lng la lo Hla Hlo [] w0)
        as (l & w1 & E1 & Hl & HF & T1).
      exists l, w1. split; [|split; [by etrans|split]].
      + apply bind_Ok. exists n, w0. split; [done|]. done.
      + destruct l; [simpl in Hl; lia | done].
      + eapply Forall_impl; [exact HF|]. by intros p (u & t & _ & _ & ->).
    - exists [(lat, lng)], w0. split; [|split; [done|split; [done|]]].
      + apply bind_Ok. exists n, w0. split; [done|]. done.
      + by repeat constructor. }
  set (v := mkVariants (name_variants_of s) (id_variants_of station_id) l).
  exists v, (mkWorld (<[s:=v]> (station_variants w1)) (tape w1) (frames w1)).
  assert (wf_variants v) as Hv.
  { split; [done|]. split; [by repeat constructor|].
    split; [apply id_variants_of_nonempty | done]. }
  split; [|split; [done|split; [|done]]].
  - unfold get_station_variants. simpl.
    apply bind_Ok. exists None, w. split; [unfold get_variants; by rewrite Hs|].
    apply bind_Ok in E as (n & w0 & E0 & E).
    apply bind_Ok. exists n, w0. split; [done|].
    apply bind_Ok. exists l, w1. split; [done | reflexivity].
  - intros s' v'. simpl. rewrite R. destruct (decide (s = s')) as [<-|Hne'].
    + rewrite lookup_insert_eq. by intros [= <-].
    + rewrite lookup_insert_ne by done. apply Hw.
Qed.

Lemma modify_station_name_total self name station_id :
  str_or_na name = true ->
  returns (modify_station_name self name station_id)
    (fun p => str_or_na p.1 = true).
Proof.
  intros Hn. unfold modify_station_name.
  destruct (isna name || isna station_id) eqn:Hna; [by apply returns_ret|].
  destruct name as [| |s|z|q]; try discriminate.
  eapply returns_bind; [by apply get_station_variants_total|].
  intros v (Hn1 & Hn2 & Hi1 & _).
  eapply returns_bind;
    [apply draws_returns, should_introduce_error_total | intros g1 _].
  eapply returns_bind with (P := fun n => str_or_na n = true).
  { destruct g1; [|by apply returns_ret].
    eapply draws_returns, draws_to_weaken; [by apply random_choice_total|].
    intros n Hin. rewrite Forall_forall in Hn2. unfold str_or_na.
    by rewrite (Hn2 n Hin). }
  intros n Hn'.
  eapply returns_bind;
    [apply draws_returns, should_introduce_error_total | intros g2 _].
  eapply returns_bind with (P := fun _ => True).
  { destruct g2; [|by apply returns_ret].
    eapply draws_returns, draws_to_weaken; [by apply random_choice_total | done]. }
  intros i _. by apply returns_ret.
Qed.

Lemma modify_coordinates_total self lat lng name station_id :
  str_or_na name = true -> num_or_na lat = true -> num_or_na lng = true ->
  returns (modify_coordinates self lat lng name station_id)
    (fun p => num_or_na p.1 = true /\ num_or_na p.2 = true).
Proof.
  intros Hn Hlat Hlng. unfold modify_coordinates.
  destruct (isna name || isna lat || isna lng) eqn:Hna; [by apply returns_ret|].
  destruct name as [| |s|z|q]; try discriminate.
  eapply returns_bind;
    [apply draws_returns, should_introduce_error_total | intros g _].
  destruct g; [|by apply returns_ret].
  eapply returns_bind; [by apply get_station_variants_total|].
  intros v (_ & _ & _ & Hc1 & Hc2).
  eapply draws_returns, draws_to_weaken; [by apply random_choice_total|].
  intros p Hin. rewrite Forall_forall in Hc2. by apply Hc2.
Qed.

(** ** Rows that a run accepts *)

Lemma row_get ty cols row c :
  row_ok ty cols row -> c ∈ cols ->
  draws_to (at_get cols row c) (fun v => ty c v = true).
Proof.
  intros [Hlen Hty] Hc. unfold at_get.
  destruct (lookup_col_is_Some cols row c Hc Hlen) as [v Hv]. rewrite Hv.
  apply draws_to_ret. by apply Hty.
Qed.

Lemma row_set ty cols row c v :
  row_ok ty cols row -> ty c v = true -> row_ok ty cols (at_set cols row c v).
Proof.
  intros [Hlen Hty] Hv. split.
  - unfold at_set. by rewrite length_map_col.
  - intros c' v'. unfold at_set. rewrite lookup_col_map_col.
    case_decide as Hc; [|apply Hty].
    destruct (lookup_col cols row c'); [|done]. by intros [= <-]; subst.
Qed.

Lemma row_ok_later cols row : row_ok cell_ok cols row -> row_ok cell_ok_later cols row.
Proof.
  intros [Hlen Hty]. split; [done|]. intros c v H.
  unfold cell_ok_later. rewrite (Hty c v H). apply orb_true_r.
Qed.

Ltac in_schema H :=
  apply H; repeat first [apply list_elem_of_here | apply list_elem_of_further].

Lemma corrupt_row_total self cols row :
  schema ⊆ cols -> row_ok cell_ok cols row ->
  returns (corrupt_row self cols row) (fun row' => length row' = length row).
Proof.
  intros Hs Hrow. unfold corrupt_row.
  assert (forall r, row_ok cell_ok_later cols r -> length r = length row) as Hlen.
  { intros r [-> _]. symmetry. apply Hrow. }
  (* identifier *)
  eapply returns_bind; [eapply draws_returns, row_get; [exact Hrow | in_schema Hs]|].
  intros ride_id Hid.
  eapply returns_bind;
    [eapply draws_returns, (modify_ride_id_total self ride_id Hid) | intros new_id Hnew].
  cbv zeta.
  pose proof (row_set _ _ _ "ride_id" new_id Hrow Hnew) as Hrow1.
  (* category *)
  eapply returns_bind; [eapply draws_returns, row_get; [exact Hrow1 | in_schema Hs]|].
  intros rideable Hrideable.
  eapply returns_bind with (P := row_ok cell_ok cols).
  { destruct (notna rideable); [|by apply returns_ret].
    eapply returns_bind;
      [eapply draws_returns, (modify_rideable_type_total self rideable Hrideable)|].
    intros v Hv. apply returns_ret. by apply row_set. }
  clear Hrow1. intros row2 Hrow2.
  (* timestamps *)
  eapply returns_bind; [eapply draws_returns, row_get; [exact Hrow2 | in_schema Hs]|].
  intros started Hstarted. apply row_ok_later in Hrow2.
  eapply returns_bind with (P := row_ok cell_ok_later cols).
  { destruct (notna started); [|by apply returns_ret].
    eapply returns_bind; [eapply draws_returns, row_get; [exact Hrow2 | in_schema Hs]|].
    intros ended _. destruct (notna ended); [|by apply returns_ret].
    eapply returns_bind;
      [eapply draws_returns, (modify_datetime_total self started ended Hstarted)|].
    intros [start_dt end_dt] _. apply returns_ret. by repeat apply row_set. }
  clear Hrow2. intros row3 Hrow3.
  (* start station *)
  eapply returns_bind; [eapply draws_returns, row_get; [exact Hrow3 | in_schema Hs]|].
  intros start_name Hstart_name.
  eapply returns_bind with (P := row_ok cell_ok_later cols).
  { destruct (notna start_name); [|by apply returns_ret].
    eapply returns_bind; [eapply draws_returns, row_get; [exact Hrow3 | in_schema Hs]|].
    intros sid _.
    eapply returns_bind;
      [apply (modify_station_name_total self start_name sid Hstart_name)|].
    intros [name station_id] Hname. apply returns_ret. by repeat apply row_set. }
  clear Hrow3. intros row4 Hrow4.
  (* end station *)
  eapply returns_bind; [eapply draws_returns, row_get; [exact Hrow4 | in_schema Hs]|].
  intros end_name Hend_name.
  eapply returns_bind with (P := row_ok cell_ok_later cols).
  { destruct (notna end_name); [|by apply returns_ret].
    eapply returns_bind; [eapply draws_returns, row_get; [exact Hrow4 | in_schema Hs]|].
    intros eid _.
    eapply returns_bind;
      [apply (modify_station_name_total self end_name eid Hend_name)|].
    intros [name station_id] Hname. apply returns_ret. by repeat apply row_set. }
  clear Hrow4. intros row5 Hrow5.
  (* start coordinates *)
  eapply returns_bind; [eapply draws_returns, row_get; [exact Hrow5 | in_schema Hs]|].
  intros start_lat Hstart_lat.
  eapply returns_bind with (P := row_ok cell_ok_later cols).
  { destruct (notna start_lat); [|by apply returns_ret].
    eapply returns_bind; [eapply draws_returns, row_get; [exact Hrow5 | in_schema Hs]|].
    intros start_lng Hstart_lng.
    eapply returns_bind; [eapply draws_returns, row_get; [exact Hrow5 | in_schema Hs]|].
    intros name Hname.
    eapply returns_bind; [eapply draws_returns, row_get; [exact Hrow5 | in_schema Hs]|].
    intros sid _.
    eapply returns_bind;
      [apply (modify_coordinates_total self start_lat start_lng name sid
                Hname Hstart_lat Hstart_lng)|].
    intros [lat lng] [Hlat Hlng]. apply returns_ret. by repeat apply row_set. }
  clear Hrow5. intros row6 Hrow6.
  (* end coordinates *)
  eapply returns_bind; [eapply draws_returns, row_get; [exact Hrow6 | in_schema Hs]|].
  intros end_lat Hend_lat.
  eapply returns_bind with (P := row_ok cell_ok_later cols).
  { destruct (notna end_lat); [|by apply returns_ret].
    eapply returns_bind; [eapply draws_returns, row_get; [exact Hrow6 | in_schema Hs]|].
    intros end_lng Hend_lng.
    eapply returns_bind; [eapply draws_returns, row_get; [exact Hrow6 | in_schema Hs]|].
    intros name Hname.
    eapply returns_bind; [eapply draws_returns, row_get; [exact Hrow6 | in_schema Hs]|].
    intros eid _.
    eapply returns_bind;
      [apply (modify_coordinates_total self end_lat end_lng name eid
                Hname Hend_lat Hend_lng)|].
    intros [lat lng] [Hlat Hlng]. apply returns_ret. by repeat apply row_set. }
  clear Hrow6. intros row7 Hrow7.
  (* rider class *)
  eapply returns_bind; [eapply draws_returns, row_get; [exact Hrow7 | in_schema Hs]|].
  intros member Hmember.
  destruct (notna member); [|by apply returns_ret, Hlen].
  eapply returns_bind;
    [eapply draws_returns, (modify_member_type_total self member Hmember)|].
  intros v Hv. apply returns_ret, Hlen. by apply row_set.
Qed.

(** ** The three passes over the table *)

Lemma inject_column_extends self df dfe column :
  respects only_tape (inject_column self df dfe column).
Proof. unfold inject_column. draws. Qed.
#[global] Hint Resolve inject_column_extends : engine.

Lemma corrupt_extends self df dfe : respects extends (corrupt self df dfe).
Proof.
  unfold corrupt, inject_missing.
  apply respects_bind; [apply _ | | intros d1].
  { apply draws_extends, respects_foldM; [apply _ | intros; apply inject_column_extends]. }
  apply respects_bind; [apply _ | | intros d2].
  { apply draws_extends, respects_foldM; [apply _ | intros; apply astype_str_draws]. }
  apply respects_bind; [apply _ | | intros rows'].
  { apply respects_mapM; [apply _ | intros; apply corrupt_row_extends]. }
  apply respects_ret; apply _.
Qed.

Lemma inject_missing_keeps P self df cs dfe w dfe' w' :
  kept_by_passes P ->
  foldM (inject_column self df) dfe cs w = Ok dfe' w' -> P dfe -> P dfe'.
Proof.
  intros [HP _]. revert dfe w. induction cs as [|c cs IH]; intros dfe w; simpl.
  - by intros [<- _]%ret_Ok.
  - intros (d1 & w1 & E1 & E)%bind_Ok Hdfe. apply (IH _ _ E).
    unfold inject_column in E1. destruct (negb (is_id_column c)).
    + apply bind_Ok in E1 as (l & w0 & _ & [<- _]%ret_Ok). by apply HP.
    + by apply ret_Ok in E1 as [<- _].
Qed.

Lemma astype_keeps P cs dfe w dfe' w' :
  kept_by_passes P -> (forall c, In c cs -> In c id_columns) ->
  foldM (fun d col => astype_str col d) dfe cs w = Ok dfe' w' -> P dfe -> P dfe'.
Proof.
  intros [_ HP]. revert dfe w. induction cs as [|c cs IH]; intros dfe w Hcs; simpl.
  - by intros [<- _]%ret_Ok.
  - intros (d1 & w1 & E1 & E)%bind_Ok Hdfe.
    apply (IH _ _ (fun c' H => Hcs c' (or_intror H)) E).
    unfold astype_str in E1. destruct (bool_decide _); [|discriminate].
    apply ret_Ok in E1 as [<- _]. apply HP; [done|]. apply Hcs. by left.
Qed.

Lemma mapM_length {A B} (f : A -> M B) l w l' w' :
  mapM f l w = Ok l' w' -> length l' = length l.
Proof.
  revert w l' w'. induction l as [|x l IH]; intros w l' w'; simpl.
  - by intros [<- _]%ret_Ok.
  - intros (y & w1 & _ & (ys & w2 & E & [<- _]%ret_Ok)%bind_Ok)%bind_Ok.
    simpl. f_equal. eapply IH, E.
Qed.

Lemma same_shape_kept df : kept_by_passes (same_shape df).
Proof.
  split.
  - intros indices c d [HC HL]. split; [done|]. simpl. by rewrite length_imap.
  - intros c d [HC HL] _. split; [done|]. simpl. by rewrite length_map.
Qed.

(** Whatever the run returns has the columns and the number of rows of the
    copy it started from. *)
Lemma corrupt_shape self df dfe w r w' :
  corrupt self df dfe w = Ok r w' -> same_shape dfe r.
Proof.
  unfold corrupt, inject_missing.
  intros (d1 & w1 & E1 & (d2 & w2 & E2 & (rows' & w3 & E3 & [<- _]%ret_Ok)%bind_Ok)%bind_Ok)%bind_Ok.
  assert (same_shape dfe d1) as S1.
  { eapply inject_missing_keeps; [apply same_shape_kept | exact E1 | by split]. }
  assert (same_shape dfe d2) as [C2 L2].
  { eapply astype_keeps; [apply same_shape_kept | | exact E2 | exact S1]. auto. }
  split; [done|]. simpl. rewrite (mapM_length _ _ _ _ _ E3). done.
Qed.

Lemma lookup_col_zip cols row c v :
  lookup_col cols row c = Some v -> In (c, v) (zip cols row).
Proof.
  revert row. induction cols as [|c0 cols IH]; intros [|x row]; simpl; try done.
  destruct (String.eqb_spec c0 c) as [->|Hne].
  - intros [= ->]. by left.
  - intros H. right. by apply IH.
Qed.

Lemma trips_table_spec df :
  trips_table df = true -> wf_frame df /\ typed df.
Proof.
  unfold trips_table. intros [[Hnd Hs]%andb_prop Hrows]%andb_prop.
  apply bool_decide_eq_true in Hnd.
  rewrite forallb_forall in Hs. rewrite forallb_forall in Hrows.
  split; [split; [done|] | split].
  - apply Forall_forall. intros row Hrow%list_elem_of_In.
    apply Hrows in Hrow as [Hlen _]%andb_prop. by apply Nat.eqb_eq.
  - intros c Hc%list_elem_of_In. by apply Hs, bool_decide_eq_true in Hc.
  - apply Forall_forall. intros row Hrow%list_elem_of_In.
    apply Hrows in Hrow as [Hlen Hcells]%andb_prop. split; [by apply Nat.eqb_eq|].
    intros c v Hcv%lookup_col_zip. rewrite forallb_forall in Hcells.
    apply (Hcells (c, v) Hcv).
Qed.

Lemma cell_ok_missing c : cell_ok c PNone = true.
Proof. unfold cell_ok. by repeat case_bool_decide. Qed.

Lemma cell_ok_id c v : In c id_columns -> cell_ok c v = true.
Proof. intros [<-|[<-|[]]]; reflexivity. Qed.

Lemma row_map_col ty f cols c row :
  row_ok ty cols row -> (forall v, ty c (f v) = true) ->
  row_ok ty cols (map_col f cols c row).
Proof.
  intros [Hlen Hty] Hf. split; [by rewrite length_map_col|].
  intros c' v'. rewrite lookup_col_map_col. case_decide as Hc; [|apply Hty].
  destruct (lookup_col cols row c'); [|done]. intros [= <-]. subst. apply Hf.
Qed.

Lemma typed_kept : kept_by_passes typed.
Proof.
  split.
  - intros indices c df [Hs Hrows]. split; [done|]. simpl.
    apply Forall_forall. intros row (i & Hi)%list_elem_of_lookup_1.
    rewrite list_lookup_imap in Hi.
    destruct (rows df !! i) as [row0|] eqn:E; [|discriminate].
    injection Hi as <-.
    assert (row_ok cell_ok (columns df) row0) as Hrow0.
    { eapply (proj1 (Forall_forall _ _) Hrows), list_elem_of_lookup_2, E. }
    case_bool_decide; [|done]. apply row_set; [done | apply cell_ok_missing].
  - intros c df [Hs Hrows] Hc. split; [done|]. simpl.
    apply Forall_fmap. eapply Forall_impl; [exact Hrows|].
    intros row Hrow. simpl. apply row_map_col; [done|].
    intros v. by apply cell_ok_id.
Qed.

Lemma returns_weaken {A} (m : M A) (P Q : A -> Prop) :
  returns m P -> (forall a, P a -> Q a) -> returns m Q.
Proof.
  intros Hm HPQ w Hw. destruct (Hm w Hw) as (a & w' & ? & ? & ?). eauto 6.
Qed.

Lemma typed_shape_kept df : kept_by_passes (fun d => typed d /\ same_shape df d).
Proof.
  split.
  - intros ??? [??]. split; [by apply typed_kept | by apply same_shape_kept].
  - intros ?? [??] ?. split; [by apply typed_kept | by apply same_shape_kept].
Qed.

Lemma corrupt_total self df :
  wf_frame df -> typed df ->
  (0 <= max_empty_percentage self <= 1)%Q ->
  returns (corrupt self df df) (same_shape df).
Proof.
  intros Hwf Hty Hf. unfold corrupt.
  eapply returns_bind with (P := fun d => typed d /\ same_shape df d).
  { apply draws_returns. intros w.
    destruct (inject_fold self df (num_empty_range self _ Hf) (columns df)
                (proj1 Hwf) df w) as (d1 & w1 & E & T & _).
    exists d1, w1. split; [exact E|]. split; [|exact T].
    apply (inject_missing_keeps (fun d => typed d /\ same_shape df d)
             _ _ _ _ _ _ _ (typed_shape_kept df) E).
    by split. }
  intros d1 Hd1.
  eapply returns_bind with (P := fun d => typed d /\ same_shape df d).
  { apply draws_returns. intros w.
    assert (forall c d, In c id_columns -> typed d /\ same_shape df d ->
              exists d', astype_str c d w = Ok d' w
                         /\ typed d' /\ same_shape df d') as Hstep.
    { intros c d Hc Hd. eexists. split.
      - unfold astype_str. rewrite bool_decide_eq_true_2; [reflexivity|].
        apply (proj1 (proj1 Hd)). destruct Hc as [<-|[<-|[]]];
          repeat first [apply list_elem_of_here | apply list_elem_of_further].
      - by apply (proj2 (typed_shape_kept df)). }
    destruct (Hstep "start_station_id" d1) as (d2 & E2 & Hd2);
      [by left | done |].
    destruct (Hstep "end_station_id" d2) as (d3 & E3 & Hd3);
      [by right; left | done |].
    exists d3, w. split; [|split; [done | reflexivity]].
    simpl. apply bind_Ok. exists d2, w. split; [done|].
    apply bind_Ok. exists d3, w. split; [done | reflexivity]. }
  intros d2 [[Hs Hrows] [HC HL]].
  eapply returns_bind.
  { eapply returns_mapM with (Q := fun _ => True); [|exact Hrows].
    intros row Hrow. eapply returns_weaken; [by apply corrupt_row_total | done]. }
  intros rows' [Hlen _]. apply returns_ret. split; [done|]. simpl. congruence.
Qed.

(** ** [introduce_errors] on the objects *)

Lemma introduce_errors_inv self l w l' w' :
  introduce_errors self l w = Ok l' w' ->
  exists T T' w1,
    frames w !! l = Some T
    /\ l' = length (frames w)
    /\ corrupt self T T (mkWorld (station_variants w) (tape w) (frames w ++ [T]))
       = Ok T' w1
    /\ w' = mkWorld (station_variants w1) (tape w1) (<[l':=T']> (frames w ++ [T])).
Proof.
  unfold introduce_errors.
  intros (c & w1 & E1 & (input & w2 & E2 & (content & w3 & E3
            & (result & w4 & E4 & ([] & w5 & E5 & [<- <-]%ret_Ok)%bind_Ok)%bind_Ok)%bind_Ok)%bind_Ok)%bind_Ok.
  unfold copy_frame in E1. destruct (frames w !! l) as [T|] eqn:HT; [|discriminate].
  injection E1 as <- <-.
  unfold read_frame in E2. simpl in E2.
  rewrite lookup_app_l in E2 by (eapply lookup_lt_Some, HT). rewrite HT in E2.
  injection E2 as <- <-.
  unfold read_frame in E3. simpl in E3.
  rewrite lookup_app_r, Nat.sub_diag in E3 by done. simpl in E3.
  injection E3 as <- <-.
  pose proof (corrupt_extends _ _ _ _ _ _ E4) as [_ F]. simpl in F.
  injection E5 as <-. exists T, result, w4. rewrite F. done.
Qed.

(** C5. Shape invariance: whenever [introduce_errors] returns, the table
    it returns has the columns and the number of rows of the table it was
    given; and it does return on every table of trips when the fraction
    of missing values is between 0 and 1 and the registry is well formed
    (an empty one is). *)
Theorem shape_invariance self l w :
  (forall l' w',
     introduce_errors self l w = Ok l' w' ->
     exists T T',
       frames w !! l = Some T /\ frames w' !! l' = Some T'
       /\ columns T' = columns T /\ length (rows T') = length (rows T))
  /\ (forall T,
        frames w !! l = Some T -> trips_table T = true ->
        (0 <= max_empty_percentage self <= 1)%Q -> wf_registry w ->
        exists l' w', introduce_errors self l w = Ok l' w').
Proof.
  split.
  - intros l' w' (T & T' & w1 & HT & -> & E & ->)%introduce_errors_inv.
    exists T, T'. split; [done|]. split.
    + simpl. apply list_lookup_insert_eq. rewrite length_app. simpl. lia.
    + by apply corrupt_shape in E as [? ?].
  - intros T HT [Hwf Hty]%trips_table_spec Hf Hw.
    set (w1 := mkWorld (station_variants w) (tape w) (frames w ++ [T])).
    destruct (corrupt_total self T Hwf Hty Hf w1 Hw) as (T' & w2 & E & _ & _ & F).
    eexists _, _. unfold introduce_errors.
    apply bind_Ok. exists (length (frames w)), w1. split.
    { unfold copy_frame. by rewrite HT. }
    apply bind_Ok. exists T, w1. split.
    { unfold read_frame. simpl.
      rewrite lookup_app_l by (eapply lookup_lt_Some, HT). by rewrite HT. }
    apply bind_Ok. exists T, w1. split.
    { unfold read_frame. simpl.
      rewrite lookup_app_r, Nat.sub_diag by done. done. }
    apply bind_Ok. exists T', w2. split; [exact E|].
    apply bind_Ok. eexists tt, _. split; reflexivity.
Qed.

(** C10, as the code has it.  [introduce_errors] works on a copy: the table
    it returns is a new object, and the object it was given, like every
    other table alive before the call, holds afterwards what it held
    before. *)
Theorem input_left_unchanged self l w l' w' :
  introduce_errors self l w = Ok l' w' ->
  l' <> l
  /\ frames w !! l' = None
  /\ forall i, (i < length (frames w))%nat -> frames w' !! i = frames w !! i.
Proof.
  intros (T & T' & w1 & HT & -> & E & ->)%introduce_errors_inv.
  apply lookup_lt_Some in HT. split; [lia|]. split.
  - by apply lookup_ge_None_2.
  - intros i Hi. simpl. rewrite list_lookup_insert_ne by lia.
    by apply lookup_app_l.
Qed.

(** C10, the claim as worded fails: with every gate firing, the run on the
    example returns a second object whose content differs from the input,
    and the object passed in still holds the input. *)
Lemma input_object_not_mutated :
  let r := introduce_errors main_generator 0 (fresh_world [] [example_table]) in
  value_of r = Some 1%nat
  /\ (frames <$> state_of r) ≫= (fun fs => fs !! 0%nat) = Some example_table
  /\ ((fun T => bool_decide (T = example_table))
        <$> ((frames <$> state_of r) ≫= (fun fs => fs !! 1%nat))) = Some false.
Proof. vm_compute. auto. Qed.

(** ** Timestamps that do not parse *)

(** C9, as the code has it.  [_format_datetime] returns a value that does
    not parse in the base format as it is, and draws nothing.
    [_modify_datetime] on a start timestamp that does not parse returns,
    raises nothing, and returns that start timestamp as it is, together
    with the end timestamp as it is when that does not parse either.  An
    end timestamp that does not parse is replaced only on a start
    timestamp that parses. *)
Theorem malformed_timestamps_pass_through self :
  (forall v w,
     strptime_val v base_datetime_format = None -> format_datetime v w = Ok v w)
  /\ (forall start_dt end_dt w,
        strptime_val start_dt base_datetime_format = None ->
        exists end' w',
          modify_datetime self start_dt end_dt w = Ok (start_dt, end') w'
          /\ (strptime_val end_dt base_datetime_format = None -> end' = end_dt))
  /\ (forall start_dt end_dt w s' e' w',
        strptime_val end_dt base_datetime_format = None ->
        modify_datetime self start_dt end_dt w = Ok (s', e') w' ->
        e' = end_dt \/ is_Some (strptime_val start_dt base_datetime_format)).
Proof.
  assert (forall v w, strptime_val v base_datetime_format = None ->
            format_datetime v w = Ok v w) as Hfmt.
  { intros v w H. unfold format_datetime. by rewrite H. }
  assert (forall start_dt end_dt w,
            strptime_val start_dt base_datetime_format = None ->
            exists end' w',
              modify_datetime self start_dt end_dt w = Ok (start_dt, end') w'
              /\ (strptime_val end_dt base_datetime_format = None -> end' = end_dt))
    as Hstart.
  { intros start_dt end_dt w Hs. unfold modify_datetime.
    destruct (isna start_dt || isna end_dt); [by exists end_dt, w|].
    destruct (should_introduce_error_total self w) as (g1 & w1 & E1 & _ & _).
    assert (exists e1 w2,
              (if g1 then s ← format_datetime start_dt;
                          e ← format_datetime end_dt; mret (s, e)
               else mret (start_dt, end_dt)) w1 = Ok (start_dt, e1) w2
              /\ (strptime_val end_dt base_datetime_format = None -> e1 = end_dt))
      as (e1 & w2 & E2 & He1).
    { destruct g1; [|by exists end_dt, w1].
      destruct (format_datetime_total end_dt w1) as (e1 & w2 & Ee & [_ He] & _).
      exists e1, w2. split; [|done].
      apply bind_Ok. exists start_dt, w1. split; [by apply Hfmt|].
      apply bind_Ok. exists e1, w2. split; [done | reflexivity]. }
    destruct (should_introduce_error_total self w2) as (g2 & w3 & E3 & _ & _).
    exists e1, w3. split; [|done].
    apply bind_Ok. exists g1, w1. split; [done|].
    apply bind_Ok. exists (start_dt, e1), w2. split; [done|].
    apply bind_Ok. exists g2, w3. split; [done|].
    destruct g2; [|reflexivity]. by rewrite Hs. }
  split; [exact Hfmt|]. split; [exact Hstart|].
  intros start_dt end_dt w s' e' w' He H.
  destruct (strptime_val start_dt base_datetime_format) as [dt|] eqn:Hs;
    [right; eauto | left].
  destruct (Hstart start_dt end_dt w Hs) as (e1 & w1 & E & He1).
  rewrite E in H. injection H as _ <- _. by apply He1.
Qed.

(** C9, the claim as worded fails: an end timestamp that does not parse is
    overwritten when only the second gate fires on a start timestamp that
    parses. *)
Lemma malformed_end_overwritten :
  strptime "not a date" base_datetime_format = None
  /\ modify_datetime main_generator
       (PStr "2024-01-05 10:00:00") (PStr "not a date")
       (fresh_world [quiet; 0; 2; 3; 1; 0]%N [])
     = Ok (PStr "2024-01-05 10:00:00", PStr "2024-01-05 07:00:00")
          (fresh_world [] []).
Proof. split; vm_compute; reflexivity. Qed.

(** C3, on the code.  When the reformat gate fires on a start timestamp
    that parses, the start is rewritten in another layout, so the
    [strptime] of the second branch fails on it and the end timestamp is
    left as the reformat made it, whatever the second gate says: neither
    return value is in the base format. *)
Lemma reformat_disables_reversal self start_dt end_dt dt w w1 :
  strptime_val start_dt base_datetime_format = Some dt ->
  isna end_dt = false ->
  should_introduce_error self w = Ok true w1 ->
  exists s' e' w',
    modify_datetime self start_dt end_dt w = Ok (s', e') w'
    /\ strptime_val s' base_datetime_format = None
    /\ strptime_val e' base_datetime_format = None.
Proof.
  intros Hs He Hg. unfold modify_datetime.
  assert (isna start_dt = false) as -> by (by destruct start_dt).
  rewrite He. cbn [orb].
  destruct (format_datetime_total start_dt w1) as (s' & w2 & Es & [Hs' _] & _).
  destruct (format_datetime_total end_dt w2) as (e' & w3 & Ee & [He' _] & _).
  destruct (should_introduce_error_total self w3) as (g2 & w4 & E4 & _ & _).
  exists s', e', w4. split; [|done].
  apply bind_Ok. exists true, w1. split; [done|].
  apply bind_Ok. exists (s', e'), w3. split.
  { apply bind_Ok. exists s', w2. split; [done|].
    apply bind_Ok. exists e', w3. split; [done | reflexivity]. }
  apply bind_Ok. exists g2, w4. split; [done|].
  destruct g2; [|reflexivity]. by rewrite Hs'.
Qed.

(** C3 at a concrete row: with both gates firing, 10:00 to 11:00 on
    2024-01-05 comes back reformatted, the end still after the start; with
    the second gate alone the end is written four days before the start,
    in the base format. *)
Lemma both_gates_leave_end_after_start :
  modify_datetime main_generator
    (PStr "2024-01-05 10:00:00") (PStr "2024-01-05 11:00:00")
    (fresh_world [0; 0; 0; 0]%N [])
  = Ok (PStr "2024/01/05 10:00:00", PStr "2024/01/05 11:00:00")
       (fresh_world [] [])
  /\ modify_datetime main_generator
       (PStr "2024-01-05 10:00:00") (PStr "2024-01-05 11:00:00")
       (fresh_world [quiet; 0; 2; 3; 1; 1]%N [])
     = Ok (PStr "2024-01-05 10:00:00", PStr "2024-01-01 10:00:00")
          (fresh_world [] []).
Proof. split; vm_compute; reflexivity. Qed.

(** ** Stations and coordinates along a run *)

(** C2, on the code.  The station "a" of the row is registered by the
    name/id stage under "a", without coordinates; the stage writes the
    variant "A" into the row, and the coordinate stage, which reads the
    name back from the row, resolves under "A": a new entry, from whose
    three jittered points the coordinates of the row are taken. *)
Lemma coordinate_stage_resolves_mutated_name :
  let r := introduce_errors main_generator 0 (fresh_world draws_row_1 [one_trip]) in
  cell one_trip 0 "start_station_name" = Some (PStr "a")
  /\ result_cell r 0 "start_station_name" = Some (PStr "A")
  /\ coordinates <$> result_variants r "a" = Some [(PNone, PNone)]
  /\ length <$> (coordinates <$> result_variants r "A") = Some 3%nat
  /\ drawn_from r 0 "start_lat" "start_lng" "A" = Some true
  /\ drawn_from r 0 "start_lat" "start_lng" "a" = Some false.
Proof. vm_compute. repeat split; reflexivity. Qed.


(** C4, on the code.  A missing [end_station_id] goes through
    [astype(str)] and comes back as the text "nan", which [pd.isna] does
    not take for missing, on a run in which no gate fires. *)
Lemma missing_station_id_becomes_text :
  let r := introduce_errors main_generator 0
             (fresh_world (repeat quiet 30) [one_trip]) in
  cell one_trip 0 "end_station_id" = Some PNaN
  /\ result_cell r 0 "end_station_id" = Some (PStr "nan")
  /\ isna (PStr "nan") = false.
Proof. vm_compute. repeat split; reflexivity. Qed.

(** C6, the claim as worded fails.  The second trip has name "A", id and
    coordinates present.  The first trip left "A" in the registry with
    three jittered points (its own name "a" was mutated to "A" before its
    coordinate stage), so the name/id stage of the second trip finds "A"
    cached with coordinates, and the coordinate gate of the second trip,
    which fires under the unmutated "A", replaces (42.0, -87.8) by one of
    those points and not by the pair of missing markers. *)
Lemma cached_coordinates_not_always_missing :
  let r := introduce_errors main_generator 0
             (fresh_world (draws_row_1 ++ draws_row_2) [example_table]) in
  cell example_table 1 "start_station_name" = Some (PStr "A")
  /\ result_cell r 1 "start_station_name" = Some (PStr "A")
  /\ length <$> (coordinates <$> result_variants r "A") = Some 3%nat
  /\ drawn_from r 1 "start_lat" "start_lng" "A" = Some true
  /\ isna <$> result_cell r 1 "start_lat" = Some false
  /\ isna <$> result_cell r 1 "start_lng" = Some false
  /\ cell_eqb (PFloat (420 # 10)) <$> result_cell r 1 "start_lat" = Some false.
Proof. vm_compute. repeat split; reflexivity. Qed.

Lemma get_station_variants_no_coordinates s station_id w v w' :
  station_variants w !! s = None ->
  get_station_variants (PStr s) station_id PNone PNone w = Ok v w' ->
  coordinates v = [(PNone, PNone)].
Proof.
  intros Hs H. unfold get_station_variants in H. cbn [isna] in H.
  apply bind_Ok in H as (c & w0 & E0 & H).
  injection E0 as <- <-. rewrite Hs in H.
  apply bind_Ok in H as (n & w1 & E1 & H).
  cbn [is_None negb andb] in H.
  apply bind_Ok in H as (cv & w2 & [<- <-]%ret_Ok & H).
  apply bind_Ok in H as ([] & w3 & E3 & [<- _]%ret_Ok). done.
Qed.

Lemma random_choice_single {A} (x : A) w :
  exists w', random_choice [x] w = Ok x w' /\ only_tape w w'.
Proof.
  destruct (next_raw_total w) as (n & w' & E & T). exists w'. split; [|done].
  unfold random_choice. apply bind_Ok. exists n, w'. split; [done|].
  cbn [length]. rewrite Nat.mod_1_r. reflexivity.
Qed.

(** C6, as the code has it.  The name/id stage resolves a present name
    with a present id without coordinates.  When the name is not yet in
    the registry, or is there without coordinates, it is there without
    coordinates afterwards; and at every later state of the run the
    coordinate stage on that name and a present pair returns, and what it
    returns is the pair of missing markers when its gate fires and the
    pair it was given when not. *)
Theorem coordinates_erased_after_name_stage self s station_id w r w1 :
  isna station_id = false ->
  (forall v, station_variants w !! s = Some v -> coordinates v = [(PNone, PNone)]) ->
  modify_station_name self (PStr s) station_id w = Ok r w1 ->
  (exists v, station_variants w1 !! s = Some v /\ coordinates v = [(PNone, PNone)])
  /\ forall w2, later self w1 w2 ->
       forall lat lng station_id',
         isna lat = false -> isna lng = false ->
         exists g w3 w4,
           should_introduce_error self w2 = Ok g w3
           /\ modify_coordinates self lat lng (PStr s) station_id' w2
              = Ok (if g : bool then (PNone, PNone) else (lat, lng)) w4.
Proof.
  intros Hid Hw H.
  assert (exists v, station_variants w1 !! s = Some v
                    /\ coordinates v = [(PNone, PNone)]) as (v & Hv & Hc).
  { unfold modify_station_name in H. cbn [isna orb] in H. rewrite Hid in H.
    apply bind_Ok in H as (v & w0 & E0 & H).
    assert (station_variants w0 !! s = Some v /\ coordinates v = [(PNone, PNone)])
      as [Hv Hc].
    { destruct (station_variants w !! s) as [c|] eqn:Hs.
      - rewrite (get_station_variants_cached _ _ _ _ _ _ Hs) in E0.
        injection E0 as <- <-. auto.
      - split; [|by eapply get_station_variants_no_coordinates].
        destruct (get_station_variants_fresh _ _ _ _ _ _ _ Hs E0) as (-> & _).
        apply lookup_insert_eq. }
    exists v. split; [|done].
    assert (only_tape w0 w1) as [-> _]; [|done].
    revert H. generalize w0 r w1. change (respects only_tape
      (g1 ← should_introduce_error self;
       modified_name ← (if g1 : bool then random_choice (names v)
                        else mret (PStr s));
       g2 ← should_introduce_error self;
       modified_id ← (if g2 : bool then random_choice (ids v)
                      else mret (PStr (py_str station_id)));
       mret (modified_name, modified_id))).
    draws. }
  split; [eauto|].
  intros w2 [Hl _]%later_extends lat lng station_id' Hlat Hlng.
  apply Hl in Hv.
  destruct (should_introduce_error_total self w2) as (g & w3 & Eg & _ & [R _]).
  assert (station_variants w3 !! s = Some v) as Hv3 by (by rewrite R).
  destruct (random_choice_single (PNone, PNone) w3) as (w4 & E4 & _).
  exists g, w3, (if g then w4 else w3). split; [done|].
  unfold modify_coordinates. cbn [isna orb]. rewrite Hlat, Hlng. cbn [orb].
  apply bind_Ok. exists g, w3. split; [done|].
  destruct g; [|reflexivity].
  apply bind_Ok. exists v, w3. split; [by apply get_station_variants_cached|].
  by rewrite Hc.
Qed.

(** * The theorems at concrete inputs *)

(** The registry of a new generator is well formed. *)
Lemma fresh_world_wf t fs : wf_registry (fresh_world t fs).
Proof. intros s v H. simpl in H. by rewrite lookup_empty in H. Defined.

Lemma main_fraction : (0 <= max_empty_percentage main_generator <= 1)%Q.
Proof. split; vm_compute; discriminate. Defined.


Lemma shape_invariance_witness :
  exists l' w' T',
    introduce_errors main_generator 0 (fresh_world [] [example_table]) = Ok l' w'
    /\ frames w' !! l' = Some T'
    /\ columns T' = example_columns /\ length (rows T') = 2%nat.
Proof.
  destruct (shape_invariance main_generator 0 (fresh_world [] [example_table]))
    as [Hshape Hruns].
  destruct (Hruns example_table) as (l' & w' & E).
  - reflexivity.
  - vm_compute. reflexivity.
  - exact main_fraction.
  - apply fresh_world_wf.
  - destruct (Hshape l' w' E) as (T & T' & HT & HT' & HC & HL).
    injection HT as <-. exists l', w', T'. auto.
Defined.



Lemma malformed_timestamps_pass_through_witness :
  format_datetime (PStr "05/01/2024 10:00") (fresh_world [] [])
  = Ok (PStr "05/01/2024 10:00") (fresh_world [] [])
  /\ exists end' w',
       modify_datetime main_generator (PStr "05/01/2024 10:00")
         (PStr "2024-01-05 11:00:00") (fresh_world [] [])
       = Ok (PStr "05/01/2024 10:00", end') w'.
Proof.
  destruct (malformed_timestamps_pass_through main_generator) as (H1 & H2 & _).
  split.
  - apply H1. vm_compute. reflexivity.
  - destruct (H2 (PStr "05/01/2024 10:00") (PStr "2024-01-05 11:00:00")
                (fresh_world [] [])) as (end' & w' & E & _).
    + vm_compute. reflexivity.
    + exists end', w'. exact E.
Defined.

Lemma input_left_unchanged_witness :
  let w := fresh_world [] [example_table] in
  let run := introduce_errors main_generator 0 w in
  the_value 0%nat run <> 0%nat
  /\ frames (the_state run) !! 0%nat = Some example_table.
Proof.
  intros w run.
  destruct (input_left_unchanged main_generator 0 w (the_value 0%nat run)
              (the_state run)) as (Hne & _ & Hsame).
  - vm_compute. reflexivity.
  - split; [exact Hne|]. apply (Hsame 0%nat). simpl. lia.
Defined.

Lemma coordinates_erased_after_name_stage_witness :
  let w := fresh_world [] [] in
  let run := modify_station_name main_generator (PStr "a") (PStr "7") w in
  exists w4,
    modify_coordinates main_generator (PFloat (418 # 10)) (PFloat (- 876 # 10))
      (PStr "a") (PStr "7") (the_state run)
    = Ok (PNone, PNone) w4.
Proof.
  intros w run.
  destruct (coordinates_erased_after_name_stage main_generator "a" (PStr "7") w
              (the_value (PNone, PNone) run) (the_state run))
    as (_ & H).
  - reflexivity.
  - intros v Hv. simpl in Hv. by rewrite lookup_empty in Hv.
  - vm_compute. reflexivity.
  - destruct (H (the_state run) (later_now _ _) (PFloat (418 # 10))
                (PFloat (- 876 # 10)) (PStr "7") eq_refl eq_refl)
      as (g & w3 & w4 & Eg & E).
    assert (g = true) as ->.
    { vm_compute in Eg. by injection Eg as <- _. }
    exists w4. exact E.
Defined.

(** * Further properties of the engine *)

(** ** The gates at the two ends of the probability *)

Lemma gate_never self w :
  (error_prob self <= 0)%Q ->
  exists w', should_introduce_error self w = Ok false w' /\ only_tape w w'.
Proof.
  intros Hp. destruct (random_random_total w) as (r & w' & E & H0 & H1 & T).
  exists w'. split; [|exact T].
  unfold should_introduce_error. apply bind_Ok. exists r, w'. split; [exact E|].
  unfold Qlt_bool. replace (Qle_bool (error_prob self) r) with true; [reflexivity|].
  symmetry. apply Qle_bool_iff. lra.
Qed.

Lemma gate_always self w :
  (1 <= error_prob self)%Q ->
  exists w', should_introduce_error self w = Ok true w' /\ only_tape w w'.
Proof.
  intros Hp. destruct (random_random_total w) as (r & w' & E & H0 & H1 & T).
  exists w'. split; [|exact T].
  unfold should_introduce_error. apply bind_Ok. exists r, w'. split; [exact E|].
  unfold Qlt_bool. destruct (Qle_bool (error_prob self) r) eqn:Hle; [|reflexivity].
  apply Qle_bool_iff in Hle. lra.
Qed.

(** ** The identifier mutation can be undone *)

Lemma upper_lower c : to_upper (to_lower c) = to_upper c.
Proof.
  assert (forallb (fun c => bool_decide (to_upper (to_lower c) = to_upper c))
            all_ascii = true) as H by (vm_compute; reflexivity).
  rewrite forallb_forall in H. eapply bool_decide_eq_true_1, H, in_all_ascii.
Qed.

Lemma lower_space c : Ascii.eqb " " (to_lower c) = Ascii.eqb " " c.
Proof.
  assert (forallb (fun c => bool_decide (Ascii.eqb " " (to_lower c) = Ascii.eqb " " c))
            all_ascii = true) as H by (vm_compute; reflexivity).
  rewrite forallb_forall in H. eapply bool_decide_eq_true_1, H, in_all_ascii.
Qed.

Lemma py_replace_char_cons c new d s :
  py_replace_char c new (String d s)
  = if Ascii.eqb c d then new +:+ py_replace_char c new s
    else String d (py_replace_char c new s).
Proof. reflexivity. Qed.

Lemma space_pairs_unspaced s :
  py_replace_char " " "" (space_pairs s) = py_replace_char " " "" s.
Proof.
  assert (forall n s, (String.length s <= n)%nat ->
            py_replace_char " " "" (space_pairs s) = py_replace_char " " "" s) as H.
  { clear s. induction n as [|n IH]; intros s Hn.
    - destruct s; [reflexivity | simpl in Hn; lia].
    - destruct s as [|a [|b [|c rest]]]; try reflexivity.
      change (space_pairs (String a (String b (String c rest))))
        with (String a (String b (String " " (space_pairs (String c rest))))).
      rewrite !(py_replace_char_cons _ _ a), !(py_replace_char_cons _ _ b).
      rewrite (py_replace_char_cons " " "" " ").
      change (Ascii.eqb " " " ") with true. cbv iota.
      change ("" +:+ ?x) with x.
      by rewrite (IH (String c rest)) by (simpl in Hn |- *; lia). }
  by apply (H (String.length s)).
Qed.

Lemma lower_some_unspaced s w s' w' :
  lower_some s w = Ok s' w' ->
  py_upper (py_replace_char " " "" s') = py_upper (py_replace_char " " "" s).
Proof.
  revert w s' w'. induction s as [|c s IH]; intros w s' w'; cbn [lower_some].
  - by intros [<- _]%ret_Ok.
  - intros (r & w1 & _ & (rest & w2 & E & [<- _]%ret_Ok)%bind_Ok)%bind_Ok.
    specialize (IH _ _ _ E). rewrite !py_replace_char_cons.
    assert (forall x, Ascii.eqb " " x = false ->
              py_upper (String (to_lower x) (py_replace_char " " "" rest))
              = py_upper (String x (py_replace_char " " "" s))) as Hl.
    { intros x _. unfold py_upper in *. cbn [string_map]. by rewrite upper_lower, IH. }
    assert (py_upper (String c (py_replace_char " " "" rest))
            = py_upper (String c (py_replace_char " " "" s))) as Hc.
    { unfold py_upper in *. cbn [string_map]. by rewrite IH. }
    destruct (Qlt_bool r (3 # 10)).
    + rewrite lower_space. destruct (Ascii.eqb " " c) eqn:Hsp; [exact IH | by apply Hl].
    + destruct (Ascii.eqb " " c) eqn:Hsp; [exact IH | exact Hc].
Qed.

Lemma draws_to_post {A} (m : M A) (P Q : A -> Prop) :
  draws_to m P -> (forall w a w', m w = Ok a w' -> Q a) -> draws_to m Q.
Proof.
  intros H HQ w. destruct (H w) as (a & w' & E & _ & T).
  exists a, w'. split; [exact E|]. split; [by eapply HQ | exact T].
Qed.

Lemma modify_ride_id_unspaced self s :
  draws_to (modify_ride_id self (PStr s))
    (fun v => exists s', v = PStr s'
       /\ py_upper (py_replace_char " " "" s') = py_upper (py_replace_char " " "" s)).
Proof.
  unfold modify_ride_id. cbn [isna].
  eapply draws_to_bind; [apply should_introduce_error_total|]. intros g1 _.
  eapply (draws_to_bind _ _ (fun v => exists s1, v = PStr s1
            /\ py_replace_char " " "" s1 = py_replace_char " " "" s)).
  { destruct g1; apply draws_to_ret; eexists; (split; [reflexivity|]);
      [apply space_pairs_unspaced | reflexivity]. }
  intros v (s1 & -> & H1).
  eapply draws_to_bind; [apply should_introduce_error_total|]. intros g2 _.
  destruct g2.
  - eapply draws_to_bind.
    + eapply draws_to_post; [apply lower_some_total|].
      intros w a w' E. exact (lower_some_unspaced _ _ _ _ E).
    + intros s2 H2. apply draws_to_ret. exists s2. split; [done|].
      cbv beta in H2. by rewrite H2, H1.
  - apply draws_to_ret. exists s1. split; [done|]. by rewrite H1.
Qed.

(** X1. [_modify_ride_id] on an identifier of ASCII text always returns a
    text, and the identifier is recovered from it, up to the case of its
    letters, by removing the spaces: removing the spaces and upper-casing
    gives the same text for the result as for the input. *)
Theorem ride_id_recoverable self s :
  is_ascii s = true ->
  draws_to (modify_ride_id self (PStr s))
    (fun v => exists s', v = PStr s'
       /\ py_upper (py_replace_char " " "" s') = py_upper (py_replace_char " " "" s)).
Proof. intros _. exact (modify_ride_id_unspaced self s). Qed.

Lemma ride_id_recoverable_witness :
  draws_to (modify_ride_id main_generator (PStr "0123AB"))
    (fun v => exists s', v = PStr s'
       /\ py_upper (py_replace_char " " "" s') = "0123AB").
Proof. apply (ride_id_recoverable main_generator "0123AB"). reflexivity. Defined.

(** ** The calendar *)

Lemma days_from_civil_from_days z :
  let '(y, m, d) := civil_from_days z in days_from_civil y m d = z.
Proof.
  unfold civil_from_days, days_from_civil. cbv zeta.
  set (z' := z + 719468). set (era := z' / 146097). set (doe := z' - era * 146097).
  set (yoe := (doe - doe / 1460 + doe / 36524 - doe / 146096) / 365).
  set (doy := doe - (365 * yoe + yoe / 4 - yoe / 100)).
  set (mp := (5 * doy + 2) / 153).
  assert (0 <= doe < 146097) by (subst doe era; Z.div_mod_to_equations; lia).
  assert (0 <= yoe <= 399) by (subst yoe; Z.div_mod_to_equations; lia).
  assert (0 <= doy <= 365) by (subst doy yoe; Z.div_mod_to_equations; lia).
  assert (0 <= mp <= 11) by (subst mp; Z.div_mod_to_equations; lia).
  destruct (mp <? 10) eqn:E1.
  - replace (mp + 3 <=? 2) with false by lia.
    replace (2 <? mp + 3) with true by lia.
    replace ((yoe + era * 400 + 0) / 400) with era by (Z.div_mod_to_equations; lia).
    replace (mp + 3 - 3) with mp by lia.
    replace (yoe + era * 400 + 0 - era * 400) with yoe by lia.
    subst doy doe z'. lia.
  - replace (mp - 9 <=? 2) with true by lia.
    replace (2 <? mp - 9) with false by lia.
    replace ((yoe + era * 400 + 1 - 1) / 400) with era by (Z.div_mod_to_equations; lia).
    replace (mp - 9 + 9) with mp by lia.
    replace (yoe + era * 400 + 1 - 1 - era * 400) with yoe by lia.
    subst doy doe z'. lia.
Qed.

Ltac decide_tests :=
  repeat match goal with
         | |- context [?a <=? ?b] =>
             let v := eval vm_compute in (a <=? b) in
             match v with true => idtac | false => idtac end;
             change (a <=? b) with v
         | |- context [?a <? ?b] =>
             let v := eval vm_compute in (a <? b) in
             match v with true => idtac | false => idtac end;
             change (a <? b) with v
         | |- context [?a =? ?b] =>
             let v := eval vm_compute in (a =? b) in
             match v with true => idtac | false => idtac end;
             change (a =? b) with v
         end.

Lemma civil_from_days_valid z :
  let '(y, m, d) := civil_from_days z in
  1 <= m <= 12 /\ 1 <= d <= days_in_month y m.
Proof.
  unfold civil_from_days. cbv zeta.
  set (z' := z + 719468). set (era := z' / 146097). set (doe := z' - era * 146097).
  set (yoe := (doe - doe / 1460 + doe / 36524 - doe / 146096) / 365).
  set (doy := doe - (365 * yoe + yoe / 4 - yoe / 100)).
  set (mp := (5 * doy + 2) / 153).
  assert (0 <= doe < 146097) by (subst doe era; Z.div_mod_to_equations; lia).
  assert (0 <= yoe <= 399) as Hyoe by (subst yoe; Z.div_mod_to_equations; lia).
  assert (0 <= doy <= 365) as Hdoy by (subst doy yoe; Z.div_mod_to_equations; lia).
  assert (doy = 365 -> (yoe + 1) mod 4 = 0 /\ ((yoe + 1) mod 100 <> 0 \/ yoe = 399))
    as Hleap.
  { subst doy yoe. Z.div_mod_to_equations. lia. }
  assert (153 * mp <= 5 * doy + 2 < 153 * mp + 153) as Hd
      by (subst mp; Z.div_mod_to_equations; lia).
  assert (mp = 0 \/ mp = 1 \/ mp = 2 \/ mp = 3 \/ mp = 4 \/ mp = 5 \/ mp = 6
          \/ mp = 7 \/ mp = 8 \/ mp = 9 \/ mp = 10 \/ mp = 11) as Hcases by lia.
  clearbody mp doy yoe era.
  unfold days_in_month, is_leap.
  destruct Hcases as [->|[->|[->|[->|[->|[->|[->|[->|[->|[->|[->| ->]]]]]]]]]]];
    decide_tests; cbv beta iota;
    repeat match goal with |- context [if ?b then _ else _] => destruct b eqn:? end;
    Z.div_mod_to_equations; lia.
Qed.

Lemma to_seconds_of_seconds t : to_seconds (of_seconds t) = t.
Proof.
  unfold to_seconds, of_seconds.
  pose proof (days_from_civil_from_days (t / 86400)) as H.
  destruct (civil_from_days (t / 86400)) as [[y m] d]. cbn [year month day hour minute second].
  rewrite H. Z.div_mod_to_equations. lia.
Qed.

Lemma of_seconds_valid t :
  1 <= year (of_seconds t) <= 9999 -> valid_datetime (of_seconds t) = true.
Proof.
  unfold of_seconds.
  pose proof (civil_from_days_valid (t / 86400)) as H.
  destruct (civil_from_days (t / 86400)) as [[y m] d].
  unfold valid_datetime. cbn [year month day hour minute second]. intros Hy.
  assert (0 <= t mod 86400 / 3600 <= 23) by (Z.div_mod_to_equations; lia).
  assert (0 <= t mod 86400 mod 3600 / 60 <= 59) by (Z.div_mod_to_equations; lia).
  assert (0 <= t mod 86400 mod 60 <= 59) by (Z.div_mod_to_equations; lia).
  repeat (apply andb_true_intro; split); lia.
Qed.

Lemma datetime_sub_Some dt delta dt' :
  datetime_sub dt delta = Some dt' ->
  valid_datetime dt' = true /\ to_seconds dt' = to_seconds dt - delta.
Proof.
  unfold datetime_sub.
  destruct ((1 <=? year _) && (year _ <=? 9999)) eqn:E; [|discriminate].
  intros [= <-]. split; [apply of_seconds_valid; lia | apply to_seconds_of_seconds].
Qed.

(** ** Reading back what [strftime] writes *)

Lemma match_classes_app_Some cs acc s v r rest :
  match_classes cs acc s = Some (v, r) ->
  match_classes cs acc (s +:+ rest) = Some (v, r +:+ rest).
Proof.
  revert acc s. induction cs as [|p cs IH]; intros acc s.
  - cbn [match_classes]. by intros [= <- <-].
  - destruct s as [|c s]; [discriminate|].
    change (String c s +:+ rest) with (String c (s +:+ rest)).
    cbn [match_classes]. destruct (p c); [apply IH | discriminate].
Qed.

Lemma match_classes_app_None cs acc s rest :
  match_classes cs acc s = None -> (length cs <= String.length s)%nat ->
  match_classes cs acc (s +:+ rest) = None.
Proof.
  revert acc s. induction cs as [|p cs IH]; intros acc s.
  - discriminate.
  - destruct s as [|c s]; cbn [String.length length]; [lia|].
    change (String c s +:+ rest) with (String c (s +:+ rest)).
    cbn [match_classes]. destruct (p c); [|done]. intros H Hl. apply IH; [exact H | lia].
Qed.

Lemma field_ok_range c n lo hi v :
  fields_ok c n lo hi = true -> lo <= v <= hi -> field_ok c n v = true.
Proof.
  unfold fields_ok. rewrite forallb_forall. intros H Hv.
  specialize (H (Z.to_nat (v - lo))).
  replace (lo + Z.of_nat (Z.to_nat (v - lo))) with v in H by lia.
  apply H, in_seq. lia.
Qed.

Lemma regex_match_field c n v toks rest dt r :
  field_ok c n v = true ->
  regex_match toks rest (set_field c v dt) = Some r ->
  regex_match (TDir c :: toks) (zfill n v +:+ rest) dt = Some r.
Proof.
  unfold field_ok. cbv zeta. intros [[H1 H2]%andb_prop _]%andb_prop Hk.
  cbn [regex_match]. rewrite forallb_forall in H2.
  induction (directive_regex c) as [|alt alts IH]; [discriminate|].
  cbn [first_some] in H1 |- *.
  destruct (match_classes alt 0 (zfill n v)) as [[v' r']|] eqn:E.
  - apply andb_prop in H1 as [->%Z.eqb_eq ->%String.eqb_eq].
    rewrite (match_classes_app_Some _ _ _ _ _ rest E).
    change ("" +:+ rest) with rest. by rewrite Hk.
  - rewrite (match_classes_app_None _ _ _ rest E).
    + apply IH; [exact H1 | intros x Hx; apply H2; by right].
    + apply Nat.leb_le, H2. by left.
Qed.

Lemma space_rests_field c n v rest :
  field_ok c n v = true -> space_rests (zfill n v +:+ rest) = [].
Proof.
  unfold field_ok. cbv zeta. intros [_ H]%andb_prop.
  destruct (zfill n v) as [|x s]; [discriminate|].
  change (String x s +:+ rest) with (String x (s +:+ rest)). cbn [space_rests].
  by destruct (is_space x).
Qed.

Lemma regex_match_lit c toks s dt :
  regex_match (TLit c :: toks) (String c s) dt = regex_match toks s dt.
Proof. cbn [regex_match]. by rewrite Ascii.eqb_refl. Qed.

Lemma regex_match_space toks s dt :
  space_rests s = [] ->
  regex_match (TSpaces :: toks) (String " " s) dt = regex_match toks s dt.
Proof.
  intros H. cbn [regex_match space_rests]. change (is_space " ") with true.
  cbv iota. rewrite H. cbn [app first_some]. by destruct (regex_match toks s dt).
Qed.

Lemma strptime_strftime dt :
  valid_datetime dt = true -> 1000 <= year dt ->
  strptime (strftime dt base_datetime_format) base_datetime_format = Some dt.
Proof.
  intros Hv Hy. pose proof (valid_datetime_ranges _ Hv) as (Y & Mo & D & Hh & Mi & S).
  unfold strptime.
  change (strftime dt base_datetime_format)
    with (zfill 4 (year dt) +:+ String "-" (zfill 2 (month dt)
          +:+ String "-" (zfill 2 (day dt)
          +:+ String " " (zfill 2 (hour dt) +:+ String ":" (zfill 2 (minute dt)
          +:+ String ":" (zfill 2 (second dt) +:+ "")))))).
  change (tokens base_datetime_format)
    with [TDir "Y"; TLit "-"; TDir "m"; TLit "-"; TDir "d"; TSpaces;
          TDir "H"; TLit ":"; TDir "M"; TLit ":"; TDir "S"].
  assert (fields_ok "Y" 4 1000 9999 = true) as FY by (vm_compute; reflexivity).
  assert (fields_ok "m" 2 1 12 = true) as Fm by (vm_compute; reflexivity).
  assert (fields_ok "d" 2 1 31 = true) as Fd by (vm_compute; reflexivity).
  assert (fields_ok "H" 2 0 23 = true) as FH by (vm_compute; reflexivity).
  assert (fields_ok "M" 2 0 59 = true) as FM by (vm_compute; reflexivity).
  assert (fields_ok "S" 2 0 59 = true) as FS by (vm_compute; reflexivity).
  erewrite regex_match_field; [| eapply field_ok_range; [exact FY | lia] |].
  2:{ rewrite regex_match_lit.
      eapply regex_match_field; [eapply field_ok_range; [exact Fm | lia]|].
      rewrite regex_match_lit.
      eapply regex_match_field; [eapply field_ok_range; [exact Fd | lia]|].
      rewrite regex_match_space
        by (eapply space_rests_field, field_ok_range; [exact FH | lia]).
      eapply regex_match_field; [eapply field_ok_range; [exact FH | lia]|].
      rewrite regex_match_lit.
      eapply regex_match_field; [eapply field_ok_range; [exact FM | lia]|].
      rewrite regex_match_lit.
      eapply regex_match_field; [eapply field_ok_range; [exact FS | lia]|].
      reflexivity. }
  cbn [mbind option_bind].
  replace (set_field "S" _ _) with dt; [by rewrite Hv|].
  destruct dt. reflexivity.
Qed.

(** X2. What [strftime] writes in the base format, [strptime] reads back
    with the same format as the same date and time, for every valid
    [datetime] from the year 1000 on (four-digit years). *)
Theorem base_format_round_trip dt :
  valid_datetime dt = true -> 1000 <= year dt ->
  strptime (strftime dt base_datetime_format) base_datetime_format = Some dt.
Proof. exact (strptime_strftime dt). Qed.

Lemma base_format_round_trip_witness :
  strptime (strftime valid_end base_datetime_format) base_datetime_format
  = Some valid_end.
Proof. apply (base_format_round_trip valid_end); [reflexivity | simpl; lia]. Defined.

Lemma random_random_draws_to :
  draws_to random_random (fun r => (0 <= r)%Q /\ (r < 1)%Q).
Proof.
  intros w. destruct (random_random_total w) as (r & w' & E & H0 & H1 & T).
  exists r, w'. auto.
Qed.

Lemma datetime_sub_near dt delta :
  valid_datetime dt = true -> 1002 <= year dt <= 9000 ->
  - 31626000 <= delta <= 31626000 ->
  exists dt', datetime_sub dt delta = Some dt'
    /\ valid_datetime dt' = true /\ 1000 <= year dt'
    /\ to_seconds dt' = to_seconds dt - delta.
Proof.
  intros Hv Hy Hd. pose proof (valid_datetime_ranges _ Hv) as (Y & Mo & D & Hh & Mi & S).
  assert (exists dt', datetime_sub dt delta = Some dt') as [dt' E].
  { unfold datetime_sub. set (t := to_seconds dt - delta).
    assert (-719162 <= t / 86400 <= 2932896) as Ht.
    { pose proof (days_from_civil_range (year dt) (month dt) (day dt)
                    ltac:(lia) ltac:(lia) ltac:(lia)) as HD.
      assert (- 719162 + 367 <= days_from_civil (year dt) (month dt) (day dt)
              <= 2932896 - 367) as HD'.
      { unfold days_from_civil.
        destruct (month dt <=? 2) eqn:E1, (2 <? month dt) eqn:E2; cbv beta iota zeta;
          Z.div_mod_to_equations; lia. }
      unfold t, to_seconds. Z.div_mod_to_equations. lia. }
    pose proof (civil_from_days_year _ Ht) as Hyr.
    unfold of_seconds. destruct (civil_from_days (t / 86400)) as [[y m] d].
    cbn [fst] in Hyr. cbn [year].
    replace ((1 <=? y) && (y <=? 9999)) with true by lia. eauto. }
  exists dt'. split; [exact E|].
  destruct (datetime_sub_Some _ _ _ E) as [Hv' Hs]. split; [exact Hv'|]. split; [|exact Hs].
  pose proof (valid_datetime_ranges _ Hv') as (Y' & Mo' & D' & Hh' & Mi' & S').
  destruct (Z_lt_le_dec (year dt') 1000) as [Hlt|]; [exfalso | done].
  revert Hs. unfold to_seconds, days_from_civil.
  destruct (month dt <=? 2) eqn:E1, (2 <? month dt) eqn:E2,
           (month dt' <=? 2) eqn:E3, (2 <? month dt') eqn:E4; cbv beta iota zeta;
    Z.div_mod_to_equations; lia.
Qed.

(** X3. [_generate_invalid_datetime] always returns a text in the base
    format that reads back as a time outside the window from [valid_start]
    to [valid_end], at least one day and less than 366 days away from
    it. *)
Theorem invalid_datetime_outside_window :
  draws_to generate_invalid_datetime
    (fun s => exists dt,
       strptime s base_datetime_format = Some dt
       /\ (86400 <= to_seconds valid_start - to_seconds dt < 366 * 86400
           \/ 86400 <= to_seconds dt - to_seconds valid_end < 366 * 86400)).
Proof.
  unfold generate_invalid_datetime.
  eapply draws_to_bind; [apply random_random_draws_to | intros r _].
  eapply (draws_to_bind _ _ (fun dt => valid_datetime dt = true /\ 1000 <= year dt
            /\ (86400 <= to_seconds valid_start - to_seconds dt < 366 * 86400
                \/ 86400 <= to_seconds dt - to_seconds valid_end < 366 * 86400))).
  - destruct (Qlt_bool r (1 # 2)).
    + eapply draws_to_bind; [apply (random_randint_draws_to 1 365); lia | intros d Hd].
      eapply draws_to_bind; [apply (random_randint_draws_to 0 23); lia | intros h Hh].
      eapply draws_to_bind; [apply (random_randint_draws_to 0 59); lia | intros m Hm].
      eapply draws_to_bind; [apply (random_randint_draws_to 0 59); lia | intros s Hs].
      cbv beta in Hd, Hh, Hm, Hs.
      destruct (datetime_sub_near valid_start (td d h m s))
        as (dt & -> & Hv & Hy & Ht).
      * reflexivity.
      * simpl. lia.
      * unfold td, td_days, td_hours. lia.
      * apply draws_to_ret. split; [exact Hv|]. split; [exact Hy|]. left.
        rewrite Ht. unfold td, td_days, td_hours. lia.
    + eapply draws_to_bind; [apply (random_randint_draws_to 1 365); lia | intros d Hd].
      eapply draws_to_bind; [apply (random_randint_draws_to 0 23); lia | intros h Hh].
      eapply draws_to_bind; [apply (random_randint_draws_to 0 59); lia | intros m Hm].
      eapply draws_to_bind; [apply (random_randint_draws_to 0 59); lia | intros s Hs].
      cbv beta in Hd, Hh, Hm, Hs. unfold datetime_add.
      destruct (datetime_sub_near valid_end (- td d h m s))
        as (dt & -> & Hv & Hy & Ht).
      * reflexivity.
      * simpl. lia.
      * unfold td, td_days, td_hours. lia.
      * apply draws_to_ret. split; [exact Hv|]. split; [exact Hy|]. right.
        rewrite Ht. unfold td, td_days, td_hours. lia.
  - intros dt (Hv & Hy & Hout). apply draws_to_ret. exists dt.
    split; [by apply strptime_strftime | exact Hout].
Qed.

(** X4. [_modify_datetime] on a start time that reads in the base format
    (years 1002 to 9000) and an end that is present always returns, in one
    of three ways: the pair as it was; a start that no longer reads in the
    base format (the reformatting); or the start as it was with an end that
    reads in the base format as a time one hour to four weeks before the
    start. *)
Theorem modify_datetime_outcomes self s e dt :
  strptime s base_datetime_format = Some dt -> 1002 <= year dt <= 9000 ->
  isna e = false ->
  draws_to (modify_datetime self (PStr s) e)
    (fun p =>
       p = (PStr s, e)
       \/ strptime_val p.1 base_datetime_format = None
       \/ (p.1 = PStr s
           /\ exists e' dt', p.2 = PStr e'
                /\ strptime e' base_datetime_format = Some dt'
                /\ 3600 <= to_seconds dt - to_seconds dt' <= 2419200)).
Proof.
  intros Hs Hy He. unfold modify_datetime. cbn [isna orb]. rewrite He.
  eapply draws_to_bind; [apply should_introduce_error_total | intros g1 _].
  eapply (draws_to_bind _ _
            (fun p => p = (PStr s, e) \/ strptime_val p.1 base_datetime_format = None)).
  { destruct g1; [|apply draws_to_ret; by left].
    eapply draws_to_bind; [apply format_datetime_total | intros s' [Hs' _]].
    eapply draws_to_bind; [apply format_datetime_total | intros e' _].
    apply draws_to_ret. by right. }
  intros [s1 e1] H1.
  eapply draws_to_bind; [apply should_introduce_error_total | intros g2 _].
  destruct g2; [|apply draws_to_ret; destruct H1; auto].
  destruct H1 as [[= -> ->]|H1].
  - cbn [strptime_val]. rewrite Hs.
    pose proof (strptime_valid _ _ _ Hs) as Hv.
    eapply draws_to_bind; [apply (random_randint_draws_to 1 24); lia | intros h Hh].
    eapply draws_to_bind; [apply (random_randint_draws_to 1 7); lia | intros d Hday].
    eapply draws_to_bind; [apply (random_randint_draws_to 1 4); lia | intros k Hk].
    eapply draws_to_bind; [apply random_choice_total; discriminate | intros delta Hin].
    assert (3600 <= delta <= 2419200) as Hdelta.
    { unfold td_hours, td_days, td_weeks in Hin. cbv beta in Hh, Hday, Hk.
      repeat (apply elem_of_cons in Hin as [->|Hin]; [lia|]).
      by apply not_elem_of_nil in Hin. }
    destruct (datetime_sub_near dt delta Hv Hy ltac:(lia)) as (dt' & -> & Hv' & Hy' & Ht).
    apply draws_to_ret. right. right. split; [done|].
    exists (strftime dt' base_datetime_format), dt'. split; [done|].
    split; [by apply strptime_strftime | lia].
  - cbn [fst] in H1. rewrite H1. apply draws_to_ret. by right; left.
Qed.

Lemma modify_datetime_outcomes_witness :
  draws_to (modify_datetime main_generator (PStr "2024-01-05 10:00:00")
              (PStr "2024-01-05 11:00:00"))
    (fun p =>
       p = (PStr "2024-01-05 10:00:00", PStr "2024-01-05 11:00:00")
       \/ strptime_val p.1 base_datetime_format = None
       \/ (p.1 = PStr "2024-01-05 10:00:00"
           /\ exists e' dt', p.2 = PStr e'
                /\ strptime e' base_datetime_format = Some dt'
                /\ 3600 <= to_seconds (mkDatetime 2024 1 5 10 0 0) - to_seconds dt'
                   <= 2419200)).
Proof.
  apply (modify_datetime_outcomes main_generator "2024-01-05 10:00:00"
           (PStr "2024-01-05 11:00:00") (mkDatetime 2024 1 5 10 0 0)).
  - vm_compute. reflexivity.
  - simpl. lia.
  - reflexivity.
Defined.

(** X5. What [_format_datetime] returns is left as it is by a second
    [_format_datetime], which draws nothing: a timestamp is reformatted at
    most once. *)
Theorem format_datetime_once v :
  draws_to (format_datetime v)
    (fun v' => forall w, format_datetime v' w = Ok v' w).
Proof.
  eapply draws_to_weaken; [apply format_datetime_total|].
  intros v' [H _] w. unfold format_datetime. by rewrite H.
Qed.

(** ** The two tables of misspellings *)

Lemma draws_to_choice_in {A} (l : list A) (Q : A -> Prop) :
  l <> [] -> (forall x, x ∈ l -> Q x) -> draws_to (random_choice l) Q.
Proof.
  intros Hl HQ. eapply draws_to_weaken; [by apply random_choice_total | exact HQ].
Qed.

(** X6. A bike type that [_modify_rideable_type] has replaced is never
    replaced again: from any text the method returns either the text
    itself or a misspelling on which every further call returns its
    argument. *)
Theorem rideable_type_replaced_once self s :
  draws_to (modify_rideable_type self (PStr s))
    (fun v => v = PStr s
              \/ draws_to (modify_rideable_type self v) (fun v' => v' = v)).
Proof.
  unfold modify_rideable_type at 1. cbn [isna].
  eapply draws_to_bind; [apply should_introduce_error_total | intros g _].
  destruct g; [|apply draws_to_ret; by left].
  destruct (first_containing rideable_errors s) as [variants|] eqn:E;
    [|apply draws_to_ret; by left].
  assert (exists e, e ∈ rideable_errors /\ variants = e.2) as (e & He & ->).
  { revert E. generalize rideable_errors. intros l.
    induction l as [|[c vs] l IH]; cbn [first_containing]; [discriminate|].
    destruct (py_contains c s).
    - intros [= <-]. exists (c, vs). split; [left | done].
    - intros (e & ? & ?)%IH. exists e. split; [by right | done]. }
  assert (e.2 <> [] /\ forall x, x ∈ e.2 -> first_containing rideable_errors x = None)
    as [Hne Hfinal].
  { unfold rideable_errors in He.
    repeat (apply elem_of_cons in He as [->|He];
            [split; [discriminate|]; intros x Hx; cbn [snd] in Hx;
             repeat (apply elem_of_cons in Hx as [->|Hx]; [vm_compute; reflexivity|]);
             by apply not_elem_of_nil in Hx|]).
    by apply not_elem_of_nil in He. }
  eapply draws_to_bind; [by apply random_choice_total | intros v Hv].
  apply draws_to_ret. right.
  unfold modify_rideable_type. cbn [isna]. rewrite (Hfinal v Hv).
  eapply draws_to_bind; [apply should_introduce_error_total | intros g _].
  destruct g; by apply draws_to_ret.
Qed.

(** X7. The rider class survives any number of [_modify_member_type]: a
    text of the family of [member] (the word or one of its misspellings)
    gives a text of the same family, and likewise for [casual]. *)
Theorem member_type_family_kept self entry s :
  entry ∈ member_errors -> s ∈ family entry ->
  draws_to (modify_member_type self (PStr s))
    (fun v => exists s', v = PStr s' /\ s' ∈ family entry).
Proof.
  intros He Hs. unfold modify_member_type. cbn [isna].
  eapply draws_to_bind; [apply should_introduce_error_total | intros g _].
  destruct g; [|apply draws_to_ret; eauto].
  assert (first_equal_lower member_errors s = None
          \/ first_equal_lower member_errors s = Some entry.2) as [-> | ->].
  { unfold member_errors in He. unfold family in Hs.
    repeat (apply elem_of_cons in He as [->|He];
            [cbn [fst snd] in Hs;
             repeat (apply elem_of_cons in Hs as [->|Hs];
                     [vm_compute; auto|]);
             by apply not_elem_of_nil in Hs|]).
    by apply not_elem_of_nil in He. }
  - apply draws_to_ret. eauto.
  - eapply draws_to_bind.
    + apply random_choice_total. unfold member_errors in He.
      repeat (apply elem_of_cons in He as [->|He]; [discriminate|]).
      by apply not_elem_of_nil in He.
    + intros v Hv. apply draws_to_ret. exists v. split; [done|]. by right.
Qed.

Lemma member_type_family_kept_witness :
  draws_to (modify_member_type main_generator (PStr "MEMBER"))
    (fun v => exists s', v = PStr s'
       /\ s' ∈ ["member"; "Member"; "MEMBER"; "membr"; "Members"]).
Proof.
  apply (member_type_family_kept main_generator
           ("member", ["Member"; "MEMBER"; "membr"; "Members"]) "MEMBER").
  - apply list_elem_of_here.
  - do 2 apply list_elem_of_further. apply list_elem_of_here.
Defined.

(** ** The edges of [introduce_errors] *)

Lemma bind_Raise {A B} (m : M A) (k : A -> M B) w e :
  m w = Raise e -> (m ≫= k) w = Raise e.
Proof. intros H. unfold mbind, M_bind. by rewrite H. Qed.

Lemma bind_step {A B} (m : M A) (k : A -> M B) w a w1 :
  m w = Ok a w1 -> (m ≫= k) w = k a w1.
Proof. intros H. unfold mbind, M_bind. by rewrite H. Qed.

Lemma introduce_errors_unfold self l w T :
  frames w !! l = Some T ->
  introduce_errors self l w
  = match corrupt self T T (mkWorld (station_variants w) (tape w) (frames w ++ [T])) with
    | Ok T' w1 =>
        Ok (length (frames w))
           (mkWorld (station_variants w1) (tape w1)
              (<[length (frames w):=T']> (frames w1)))
    | Raise e => Raise e
    end.
Proof.
  intros HT. unfold introduce_errors.
  erewrite bind_step; [|unfold copy_frame; by rewrite HT].
  erewrite bind_step;
    [|unfold read_frame; cbn [frames]; by rewrite (lookup_app_l_Some _ _ _ _ HT)].
  erewrite bind_step;
    [|unfold read_frame; cbn [frames];
      by rewrite lookup_app_r, Nat.sub_diag by reflexivity].
  unfold mbind at 1, M_bind at 1.
  destruct (corrupt self T T _) as [T' w1|e]; [|done].
  reflexivity.
Qed.

Lemma inject_missing_empty self df dfe w :
  rows df = [] -> rows dfe = [] ->
  inject_missing self df dfe w = Ok dfe w.
Proof.
  intros Hdf Hdfe. unfold inject_missing.
  induction (columns df) as [|c cs IH]; [done|].
  cbn [foldM]. erewrite bind_step; [exact IH|].
  unfold inject_column. destruct (negb (is_id_column c)); [|done]. cbv zeta.
  rewrite Hdf. cbn [length].
  assert (num_empty self 0 = 0) as ->.
  { unfold num_empty. destruct (max_empty_percentage self) as [a b].
    vm_compute. reflexivity. }
  unfold random_sample_range. cbn [Z.ltb Z.compare orb Z.of_nat Z.to_nat sample_from seq].
  erewrite bind_step; [|reflexivity].
  unfold loc_set_none. rewrite Hdfe. destruct dfe as [cols rs]. cbn in Hdfe. by subst.
Qed.

(** X8. A table without rows is copied: when the two station identifier
    columns exist, [introduce_errors] returns a new table equal to the one
    passed in, draws nothing and registers nothing, whatever the two
    parameters of the generator are. *)
Theorem empty_table_copied self df w T :
  frames w !! df = Some T -> rows T = [] ->
  "start_station_id" ∈ columns T -> "end_station_id" ∈ columns T ->
  introduce_errors self df w
  = Ok (length (frames w))
       (mkWorld (station_variants w) (tape w) (frames w ++ [T])).
Proof.
  intros HT Hrows Hs He. rewrite (introduce_errors_unfold _ _ _ _ HT).
  assert (forall w, corrupt self T T w = Ok T w) as ->.
  { intros w0. unfold corrupt.
    erewrite bind_step; [|by apply inject_missing_empty].
    assert (forall c, c ∈ columns T -> astype_str c T w0 = Ok T w0) as Hast.
    { intros c Hc. unfold astype_str. rewrite bool_decide_eq_true_2 by done.
      rewrite Hrows. destruct T as [cols rs]. cbn in Hrows. by subst. }
    unfold id_columns. cbn [foldM].
    erewrite bind_step;
      [|erewrite bind_step; [|by apply Hast];
        erewrite bind_step; [reflexivity | by apply Hast]].
    rewrite Hrows. cbn [mapM]. erewrite bind_step; [|reflexivity].
    destruct T as [cols rs]. cbn in Hrows. by subst. }
  cbn [station_variants tape frames]. f_equal. f_equal.
  apply list_insert_id. by rewrite lookup_app_r, Nat.sub_diag by reflexivity.
Qed.

Lemma empty_table_copied_witness :
  introduce_errors main_generator 0 (fresh_world [] [mkDataFrame example_columns []])
  = Ok 1%nat (fresh_world [] [mkDataFrame example_columns [];
                              mkDataFrame example_columns []]).
Proof.
  apply (empty_table_copied main_generator 0
           (fresh_world [] [mkDataFrame example_columns []])
           (mkDataFrame example_columns [])).
  - reflexivity.
  - reflexivity.
  - vm_compute. repeat first [apply list_elem_of_here | apply list_elem_of_further].
  - vm_compute. repeat first [apply list_elem_of_here | apply list_elem_of_further].
Defined.

Lemma inject_missing_raises self df dfe w cs :
  num_empty self (length (rows df)) < 0
  \/ Z.of_nat (length (rows df)) < num_empty self (length (rows df)) ->
  (exists c, c ∈ cs /\ is_id_column c = false) ->
  foldM (inject_column self df) dfe cs w = Raise ValueError.
Proof.
  intros Hk (c & Hc & Hid). revert dfe w.
  induction cs as [|c0 cs IH]; intros dfe w; [by apply not_elem_of_nil in Hc|].
  cbn [foldM].
  destruct (is_id_column c0) eqn:E0.
  - erewrite bind_step; [|unfold inject_column; by rewrite E0]. apply IH.
    apply elem_of_cons in Hc as [->|Hc]; [congruence | done].
  - apply bind_Raise. unfold inject_column. rewrite E0. cbn [negb]. cbv zeta.
    apply bind_Raise. unfold random_sample_range.
    replace ((_ <? 0) || (_ <? _)) with true; [done|]. symmetry. apply orb_true_iff. lia.
Qed.



Lemma inject_missing_columns self df dfe w cs :
  0 <= num_empty self (length (rows df)) <= Z.of_nat (length (rows df)) ->
  exists dfe' w', foldM (inject_column self df) dfe cs w = Ok dfe' w'
    /\ columns dfe' = columns dfe.
Proof.
  intros Hk. revert dfe w. induction cs as [|c cs IH]; intros dfe w.
  - by exists dfe, w.
  - cbn [foldM].
    destruct (negb (is_id_column c)) eqn:E0.
    + destruct (random_sample_range_total (length (rows df)) _ w Hk)
        as (l & w1 & E & _).
      destruct (IH (loc_set_none l c dfe) w1) as (dfe' & w' & E' & Hc).
      exists dfe', w'. split; [|exact Hc].
      erewrite bind_step; [exact E'|]. unfold inject_column. rewrite E0. cbv zeta.
      by erewrite bind_step; [|exact E].
    + destruct (IH dfe w) as (dfe' & w' & E' & Hc).
      exists dfe', w'. split; [|exact Hc].
      erewrite bind_step; [exact E'|]. unfold inject_column. by rewrite E0.
Qed.

(** X10. A table that lacks one of the two station identifier columns
    makes [introduce_errors] raise [KeyError], rows or no rows, once the
    missing values are placed (a fraction between 0 and 1). *)
Theorem missing_id_column_raises self df w T :
  frames w !! df = Some T ->
  (0 <= max_empty_percentage self <= 1)%Q ->
  "start_station_id" ∉ columns T \/ "end_station_id" ∉ columns T ->
  introduce_errors self df w = Raise KeyError.
Proof.
  intros HT Hp Hc. rewrite (introduce_errors_unfold _ _ _ _ HT).
  destruct (inject_missing_columns self T T
              (mkWorld (station_variants w) (tape w) (frames w ++ [T])) (columns T)
              (num_empty_range self _ Hp)) as (dfe & w1 & E & Hcols).
  unfold corrupt, inject_missing. erewrite bind_step; [|exact E].
  erewrite bind_Raise; [done|].
  unfold id_columns. cbn [foldM].
  destruct (decide ("start_station_id" ∈ columns T)) as [Hin|Hout].
  - erewrite bind_step;
      [|unfold astype_str; rewrite Hcols; by rewrite bool_decide_eq_true_2 by done].
    apply bind_Raise. unfold astype_str. cbn [columns].
    rewrite bool_decide_eq_false_2; [done | by destruct Hc].
  - apply bind_Raise. unfold astype_str. rewrite Hcols.
    by rewrite bool_decide_eq_false_2 by done.
Qed.

Lemma missing_id_column_raises_witness :
  introduce_errors main_generator 0
    (fresh_world [] [mkDataFrame ["ride_id"; "start_station_id"] []])
  = Raise KeyError.
Proof.
  apply (missing_id_column_raises main_generator 0
           (fresh_world [] [mkDataFrame ["ride_id"; "start_station_id"] []])
           (mkDataFrame ["ride_id"; "start_station_id"] [])).
  - reflexivity.
  - exact main_fraction.
  - right. cbn [columns]. intros H.
    repeat (apply elem_of_cons in H as [H|H]; [discriminate|]).
    by apply not_elem_of_nil in H.
Defined.

(** ** A generator that makes no errors *)

Section Quiet.
Variable self : DataErrorGenerator.
Hypothesis no_errors : (error_prob self <= 0)%Q.

Lemma gate_quiet : draws_to (should_introduce_error self) (fun g => g = false).
Proof.
  intros w. destruct (gate_never self w no_errors) as (w' & E & T).
  by exists false, w'.
Qed.

Lemma modify_ride_id_quiet v :
  draws_to (modify_ride_id self v) (fun v' => v' = v).
Proof.
  unfold modify_ride_id. destruct (isna v); [by apply draws_to_ret|].
  eapply draws_to_bind; [apply gate_quiet | intros g1 ->].
  eapply draws_to_bind with (P := fun x => x = v);
    [by apply draws_to_ret | intros v' ->].
  eapply draws_to_bind; [apply gate_quiet | intros g2 ->].
  by apply draws_to_ret.
Qed.

Lemma modify_rideable_type_quiet v :
  draws_to (modify_rideable_type self v) (fun v' => v' = v).
Proof.
  unfold modify_rideable_type. destruct (isna v); [by apply draws_to_ret|].
  eapply draws_to_bind; [apply gate_quiet | intros g ->]. by apply draws_to_ret.
Qed.

Lemma modify_member_type_quiet v :
  draws_to (modify_member_type self v) (fun v' => v' = v).
Proof.
  unfold modify_member_type. destruct (isna v); [by apply draws_to_ret|].
  eapply draws_to_bind; [apply gate_quiet | intros g ->]. by apply draws_to_ret.
Qed.

Lemma modify_datetime_quiet s e :
  draws_to (modify_datetime self s e) (fun p => p = (s, e)).
Proof.
  unfold modify_datetime. destruct (isna s || isna e); [by apply draws_to_ret|].
  eapply draws_to_bind; [apply gate_quiet | intros g1 ->].
  eapply draws_to_bind with (P := fun x => x = (s, e));
    [by apply draws_to_ret | intros p ->].
  eapply draws_to_bind; [apply gate_quiet | intros g2 ->]. by apply draws_to_ret.
Qed.

Lemma modify_coordinates_quiet lat lng name station_id :
  draws_to (modify_coordinates self lat lng name station_id) (fun p => p = (lat, lng)).
Proof.
  unfold modify_coordinates.
  destruct (isna name || isna lat || isna lng); [by apply draws_to_ret|].
  eapply draws_to_bind; [apply gate_quiet | intros g ->]. by apply draws_to_ret.
Qed.

Lemma modify_station_name_quiet name station_id :
  str_or_na name = true -> notna name = true ->
  returns (modify_station_name self name station_id)
    (fun p => p = (name, if isna station_id then station_id
                         else PStr (py_str station_id))).
Proof.
  intros Hn Hna. unfold modify_station_name.
  destruct name as [| |s|z|q]; try discriminate. cbn [isna orb].
  destruct (isna station_id) eqn:Hid; [by apply returns_ret|].
  eapply returns_bind; [by apply get_station_variants_total | intros v _].
  cbv zeta.
  eapply returns_bind; [apply draws_returns, gate_quiet | intros g1 ->].
  eapply returns_bind with (P := fun x => x = PStr s);
    [by apply returns_ret | intros n ->].
  eapply returns_bind; [apply draws_returns, gate_quiet | intros g2 ->].
  eapply returns_bind with (P := fun x => x = PStr (py_str station_id));
    [by apply returns_ret | intros i ->].
  by apply returns_ret.
Qed.

Lemma map_col_absent f cols c row :
  c ∉ cols -> map_col f cols c row = row.
Proof.
  revert row. induction cols as [|c0 cols IH]; intros row Hc; [by destruct row|].
  destruct row as [|x row]; [done|]. cbn [map_col].
  apply not_elem_of_cons in Hc as [Hne Hc].
  rewrite (IH row Hc). destruct (String.eqb c0 c) eqn:E; [|done].
  apply String.eqb_eq in E. congruence.
Qed.

Lemma at_set_same cols row c v :
  NoDup cols -> lookup_col cols row c = Some v -> at_set cols row c v = row.
Proof.
  unfold at_set. revert row. induction cols as [|c0 cols IH]; intros row Hnd Hv.
  - by destruct row.
  - destruct row as [|x row]; [done|]. cbn [map_col lookup_col] in Hv |- *.
    apply NoDup_cons in Hnd as [Hc0 Hnd].
    destruct (String.eqb c0 c) eqn:E.
    + apply String.eqb_eq in E. subst c0. injection Hv as ->.
      by rewrite map_col_absent.
    + by rewrite IH.
Qed.

Lemma at_get_cell cols row c :
  c ∈ cols -> length row = length cols ->
  draws_to (at_get cols row c) (fun v => lookup_col cols row c = Some v).
Proof.
  intros Hc Hlen. unfold at_get.
  destruct (lookup_col_is_Some cols row c Hc Hlen) as [v Hv]. rewrite Hv.
  by apply draws_to_ret.
Qed.

Lemma corrupt_row_quiet cols row :
  NoDup cols -> schema ⊆ cols -> row_ok cell_ok cols row ->
  (forall c v, c ∈ id_columns -> lookup_col cols row c = Some v -> is_str v = true) ->
  returns (corrupt_row self cols row) (fun row' => row' = row).
Proof.
  intros Hnd Hs [Hlen Hty] Hids. unfold corrupt_row.
  assert (forall c, c ∈ schema ->
            returns (at_get cols row c) (fun v => lookup_col cols row c = Some v))
    as Hget.
  { intros c Hc. apply draws_returns, at_get_cell; [by apply Hs | done]. }
  assert (forall c v, lookup_col cols row c = Some v -> at_set cols row c v = row)
    as Hset by (intros; by apply at_set_same).
  assert (forall c v, c ∈ id_columns -> lookup_col cols row c = Some v ->
            (if isna v then v else PStr (py_str v)) = v) as Htext.
  { intros c v Hc Hv. specialize (Hids c v Hc Hv). by destruct v. }
  eapply returns_bind; [apply Hget; in_schema (fun x (H : x ∈ schema) => H)|].
  intros ride_id Hid.
  eapply returns_bind; [apply draws_returns, modify_ride_id_quiet | intros ? ->].
  cbv zeta. rewrite (Hset _ _ Hid).
  eapply returns_bind; [apply Hget; in_schema (fun x (H : x ∈ schema) => H)|].
  intros rideable Hrideable.
  eapply returns_bind with (P := fun r => r = row).
  { destruct (notna rideable); [|by apply returns_ret].
    eapply returns_bind; [apply draws_returns, modify_rideable_type_quiet | intros ? ->].
    apply returns_ret. by apply Hset. }
  intros ? ->.
  eapply returns_bind; [apply Hget; in_schema (fun x (H : x ∈ schema) => H)|].
  intros started Hstarted.
  eapply returns_bind with (P := fun r => r = row).
  { destruct (notna started); [|by apply returns_ret].
    eapply returns_bind; [apply Hget; in_schema (fun x (H : x ∈ schema) => H)|].
    intros ended Hended. destruct (notna ended); [|by apply returns_ret].
    eapply returns_bind; [apply draws_returns, modify_datetime_quiet | intros ? ->].
    apply returns_ret. rewrite (Hset _ _ Hstarted). by apply Hset. }
  intros ? ->.
  eapply returns_bind; [apply Hget; in_schema (fun x (H : x ∈ schema) => H)|].
  intros start_name Hstart_name.
  eapply returns_bind with (P := fun r => r = row).
  { destruct (notna start_name) eqn:Hna; [|by apply returns_ret].
    eapply returns_bind; [apply Hget; in_schema (fun x (H : x ∈ schema) => H)|].
    intros sid Hsid.
    eapply returns_bind;
      [apply modify_station_name_quiet; [apply (Hty _ _ Hstart_name) | exact Hna]
      | intros ? ->].
    apply returns_ret. rewrite (Hset _ _ Hstart_name).
    rewrite (Htext "start_station_id") by (done || apply list_elem_of_here).
    by apply Hset. }
  intros ? ->.
  eapply returns_bind; [apply Hget; in_schema (fun x (H : x ∈ schema) => H)|].
  intros end_name Hend_name.
  eapply returns_bind with (P := fun r => r = row).
  { destruct (notna end_name) eqn:Hna; [|by apply returns_ret].
    eapply returns_bind; [apply Hget; in_schema (fun x (H : x ∈ schema) => H)|].
    intros eid Heid.
    eapply returns_bind;
      [apply modify_station_name_quiet; [apply (Hty _ _ Hend_name) | exact Hna]
      | intros ? ->].
    apply returns_ret. rewrite (Hset _ _ Hend_name).
    rewrite (Htext "end_station_id")
      by (done || apply list_elem_of_further, list_elem_of_here).
    by apply Hset. }
  intros ? ->.
  eapply returns_bind; [apply Hget; in_schema (fun x (H : x ∈ schema) => H)|].
  intros start_lat Hstart_lat.
  eapply returns_bind with (P := fun r => r = row).
  { destruct (notna start_lat); [|by apply returns_ret].
    eapply returns_bind; [apply Hget; in_schema (fun x (H : x ∈ schema) => H)|].
    intros start_lng Hstart_lng.
    eapply returns_bind; [apply Hget; in_schema (fun x (H : x ∈ schema) => H)|].
    intros name _.
    eapply returns_bind; [apply Hget; in_schema (fun x (H : x ∈ schema) => H)|].
    intros sid _.
    eapply returns_bind; [apply draws_returns, modify_coordinates_quiet | intros ? ->].
    apply returns_ret. rewrite (Hset _ _ Hstart_lat). by apply Hset. }
  intros ? ->.
  eapply returns_bind; [apply Hget; in_schema (fun x (H : x ∈ schema) => H)|].
  intros end_lat Hend_lat.
  eapply returns_bind with (P := fun r => r = row).
  { destruct (notna end_lat); [|by apply returns_ret].
    eapply returns_bind; [apply Hget; in_schema (fun x (H : x ∈ schema) => H)|].
    intros end_lng Hend_lng.
    eapply returns_bind; [apply Hget; in_schema (fun x (H : x ∈ schema) => H)|].
    intros name _.
    eapply returns_bind; [apply Hget; in_schema (fun x (H : x ∈ schema) => H)|].
    intros eid _.
    eapply returns_bind; [apply draws_returns, modify_coordinates_quiet | intros ? ->].
    apply returns_ret. rewrite (Hset _ _ Hend_lat). by apply Hset. }
  intros ? ->.
  eapply returns_bind; [apply Hget; in_schema (fun x (H : x ∈ schema) => H)|].
  intros member Hmember.
  destruct (notna member); [|by apply returns_ret].
  eapply returns_bind; [apply draws_returns, modify_member_type_quiet | intros ? ->].
  apply returns_ret. by apply Hset.
Qed.
End Quiet.

Lemma inject_missing_none self df dfe w cs :
  num_empty self (length (rows df)) = 0 ->
  foldM (inject_column self df) dfe cs w = Ok dfe w.
Proof.
  intros Hk. induction cs as [|c cs IH]; [done|].
  cbn [foldM]. erewrite bind_step; [exact IH|].
  unfold inject_column. destruct (negb (is_id_column c)); [|done]. cbv zeta.
  rewrite Hk. unfold random_sample_range.
  replace (Z.of_nat (length (rows df)) <? 0) with false
    by (symmetry; apply Z.ltb_ge, Nat2Z.is_nonneg).
  cbn [Z.ltb Z.compare orb].
  cbn [Z.to_nat sample_from]. erewrite bind_step; [|reflexivity].
  unfold loc_set_none. destruct dfe as [cols rs]. cbn [columns rows].
  unfold mret, M_ret. f_equal. f_equal.
  rewrite <- (list_fmap_id rs) at 2. rewrite <- imap_const.
  apply imap_ext. intros i x _. cbn.
  rewrite bool_decide_eq_false_2; [done | apply not_elem_of_nil].
Qed.

Lemma returns_mapM_same {A} (f : A -> M A) (P : A -> Prop) l :
  (forall x, P x -> returns (f x) (fun y => y = x)) -> Forall P l ->
  returns (mapM f l) (fun l' => l' = l).
Proof.
  intros Hf. induction 1 as [|x l Hx Hl IH]; cbn [mapM].
  - by apply returns_ret.
  - eapply returns_bind; [by apply Hf | intros y ->].
    eapply returns_bind; [apply IH | intros ys ->]. by apply returns_ret.
Qed.

Lemma row_ok_id_text cols row c :
  c ∈ id_columns -> row_ok cell_ok cols row ->
  row_ok cell_ok cols (map_col (fun v => PStr (py_str v)) cols c row).
Proof.
  intros Hc [Hlen Hty]. split; [by rewrite length_map_col|].
  intros c' v. rewrite lookup_col_map_col. case_decide as E; [|apply Hty].
  subst c'. intros _. unfold id_columns in Hc.
  repeat (apply elem_of_cons in Hc as [->|Hc]; [reflexivity|]).
  by apply not_elem_of_nil in Hc.
Qed.

(** X11. A generator with error probability 0 whose fraction of missing
    values rounds to no row changes nothing but the type of the two
    station identifier columns: on a table of trips, [introduce_errors]
    returns a new table that is the input with these two columns turned
    into text. *)
Theorem nothing_to_corrupt self df w T :
  frames w !! df = Some T -> trips_table T = true ->
  (error_prob self <= 0)%Q -> num_empty self (length (rows T)) = 0 ->
  wf_registry w ->
  exists w', introduce_errors self df w = Ok (length (frames w)) w'
             /\ frames w' = frames w ++ [ids_as_text T].
Proof.
  intros HT Htrips Hp Hk Hw. rewrite (introduce_errors_unfold _ _ _ _ HT).
  destruct (trips_table_spec _ Htrips) as [[Hnd Hlens] [Hschema Hrows]].
  set (w0 := mkWorld (station_variants w) (tape w) (frames w ++ [T])).
  assert (wf_registry w0) as Hw0 by exact Hw.
  assert ("start_station_id" ∈ columns T) as Hs by in_schema Hschema.
  assert ("end_station_id" ∈ columns T) as He by in_schema Hschema.
  assert (returns (mapM (corrupt_row self (columns T)) (rows (ids_as_text T)))
            (fun l' => l' = rows (ids_as_text T))) as Hmap.
  { apply returns_mapM_same with
      (P := fun row => row_ok cell_ok (columns T) row
              /\ forall c v, c ∈ id_columns ->
                   lookup_col (columns T) row c = Some v -> is_str v = true).
    - intros row [Hrow Hids]. by apply corrupt_row_quiet.
    - unfold ids_as_text. cbn [rows]. apply Forall_fmap.
      eapply Forall_impl; [exact Hrows|]. intros row Hrow. cbn. split.
      + apply row_ok_id_text; [apply list_elem_of_further, list_elem_of_here|].
        apply row_ok_id_text; [apply list_elem_of_here | done].
      + intros c v Hc. rewrite !lookup_col_map_col. unfold id_columns in Hc.
        repeat (apply elem_of_cons in Hc as [->|Hc];
                [repeat case_decide; try done;
                 destruct (lookup_col (columns T) row _); cbn; by intros [= <-]|]).
        by apply not_elem_of_nil in Hc. }
  destruct (Hmap w0 Hw0) as (rows' & w1 & E & -> & _ & Hframes).
  assert (corrupt self T T w0 = Ok (ids_as_text T) w1) as ->.
  { unfold corrupt.
    erewrite bind_step; [|unfold inject_missing; by apply inject_missing_none].
    erewrite bind_step with (a := ids_as_text T) (w1 := w0).
    - erewrite bind_step; [|exact E]. by destruct T.
    - unfold id_columns. cbn [foldM].
      erewrite bind_step;
        [|unfold astype_str; by rewrite bool_decide_eq_true_2 by done].
      erewrite bind_step;
        [|unfold astype_str; cbn [columns]; by rewrite bool_decide_eq_true_2 by done].
      cbn [columns rows]. unfold ids_as_text. by rewrite map_map. }
  eexists. split; [reflexivity|]. cbn [frames]. rewrite Hframes. unfold w0. cbn [frames].
  rewrite insert_app_r_alt by reflexivity. by rewrite Nat.sub_diag.
Qed.

Lemma nothing_to_corrupt_witness :
  exists w',
    introduce_errors (mkGenerator 0 (3 # 100)) 0 (fresh_world [] [example_table])
    = Ok 1%nat w'
    /\ frames w' = [example_table; ids_as_text example_table].
Proof.
  apply (nothing_to_corrupt (mkGenerator 0 (3 # 100)) 0
           (fresh_world [] [example_table]) example_table).
  - reflexivity.
  - vm_compute. reflexivity.
  - unfold Qle. simpl. lia.
  - vm_compute. reflexivity.
  - apply fresh_world_wf.
Defined.

(** ** The spellings of a station name *)

Lemma lower_upper c : to_lower (to_upper c) = to_lower c.
Proof.
  assert (forallb (fun c => bool_decide (to_lower (to_upper c) = to_lower c))
            all_ascii = true) as H by (vm_compute; reflexivity).
  rewrite forallb_forall in H. eapply bool_decide_eq_true_1, H, in_all_ascii.
Qed.

Lemma lower_lower c : to_lower (to_lower c) = to_lower c.
Proof.
  assert (forallb (fun c => bool_decide (to_lower (to_lower c) = to_lower c))
            all_ascii = true) as H by (vm_compute; reflexivity).
  rewrite forallb_forall in H. eapply bool_decide_eq_true_1, H, in_all_ascii.
Qed.

Lemma lower_is_space c : is_space (to_lower c) = is_space c.
Proof.
  assert (forallb (fun c => bool_decide (is_space (to_lower c) = is_space c))
            all_ascii = true) as H by (vm_compute; reflexivity).
  rewrite forallb_forall in H. eapply bool_decide_eq_true_1, H, in_all_ascii.
Qed.

Lemma py_lower_upper s : py_lower (py_upper s) = py_lower s.
Proof.
  unfold py_lower, py_upper. induction s as [|c s IH]; [done|].
  cbn [string_map]. by rewrite lower_upper, IH.
Qed.

Lemma py_lower_title s : py_lower (py_title s) = py_lower s.
Proof.
  unfold py_lower, py_title. generalize false.
  induction s as [|c s IH]; intros b; [done|]. cbn [title_from].
  destruct (is_upper c || is_lower c); cbn [string_map]; rewrite IH; [|done].
  destruct b; by rewrite ?lower_upper, ?lower_lower.
Qed.

Lemma collapse_doubled b s :
  sub_spaces_from b " " (sub_spaces_from b "  " s) = sub_spaces_from b " " s.
Proof.
  revert b. induction s as [|c s IH]; intros b; [done|].
  cbn [sub_spaces_from]. destruct (is_space c) eqn:Hc.
  - destruct b; [apply IH|].
    change ("  " +:+ ?x) with (String " " (String " " x)).
    change (" " +:+ ?x) with (String " " x).
    cbn [sub_spaces_from]. change (is_space " ") with true. cbv iota.
    change (" " +:+ ?x) with (String " " x). by rewrite IH.
  - cbn [sub_spaces_from]. by rewrite Hc, IH.
Qed.

Lemma string_map_app f s t :
  string_map f (s +:+ t) = string_map f s +:+ string_map f t.
Proof.
  induction s as [|c s IH]; [done|].
  change (String c s +:+ t) with (String c (s +:+ t)). cbn [string_map].
  by rewrite IH.
Qed.

Lemma lower_sub_spaces b new s :
  py_lower (sub_spaces_from b new s)
  = sub_spaces_from b (py_lower new) (py_lower s).
Proof.
  unfold py_lower. revert b. induction s as [|c s IH]; intros b; [done|].
  cbn [sub_spaces_from string_map]. rewrite lower_is_space.
  destruct (is_space c).
  - destruct b; [apply IH|]. by rewrite string_map_app, IH.
  - cbn [string_map]. by rewrite IH.
Qed.

(** X12. Four of the five spellings [_get_station_variants] registers for
    a station name of ASCII text are the name up to letter case and the
    length of the runs of white space; the fifth is the name with every
    ampersand written out as [and]. *)
Theorem name_variants_normal_form s :
  is_ascii s = true ->
  Forall (fun v => exists t, v = PStr t
            /\ (normal_name t = normal_name s
                \/ t = py_replace_char "&" "and" s))
         (name_variants_of s).
Proof.
  intros _. unfold name_variants_of, normal_name.
  repeat apply Forall_cons_2; [..|apply Forall_nil_2]; eexists; (split; [reflexivity|]).
  - by left.
  - left. by rewrite py_lower_title.
  - left. by rewrite py_lower_upper.
  - by right.
  - left. unfold re_sub_spaces. rewrite lower_sub_spaces.
    change (py_lower "  ") with "  ". apply collapse_doubled.
Qed.

Lemma name_variants_normal_form_witness :
  Forall (fun v => exists t, v = PStr t
            /\ (normal_name t = normal_name "Main St & 5th"
                \/ t = py_replace_char "&" "and" "Main St & 5th"))
         (name_variants_of "Main St & 5th").
Proof. apply (name_variants_normal_form "Main St & 5th"). reflexivity. Defined.

(** ** What the pass over the rows keeps *)

Lemma draws_to_inv {A} (m : M A) (Q : A -> Prop) w a w' :
  draws_to m Q -> m w = Ok a w' -> Q a.
Proof.
  intros H E. destruct (H w) as (a' & w'' & E' & Ha & _). congruence.
Qed.

Lemma cell_kept_refl c v : cell_kept c v v.
Proof.
  split; [done|]. split; [done|]. split; [intros _ s ->; by exists s|].
  split; intros _; by left.
Qed.

Lemma cell_kept_trans c v1 v2 v3 :
  cell_kept c v1 v2 -> cell_kept c v2 v3 -> cell_kept c v1 v3.
Proof.
  intros (A1 & B1 & C1 & D1 & E1) (A2 & B2 & C2 & D2 & E2).
  split; [|split; [|split; [|split]]].
  - intros H. specialize (A1 H). subst v2. by apply A2.
  - intros H. by rewrite (B2 H), (B1 H).
  - intros Hc s Hs. destruct (C1 Hc s Hs) as (s2 & Hs2 & F2).
    destruct (C2 Hc s2 Hs2) as (s3 & Hs3 & F3). exists s3. split; [done | congruence].
  - intros Hc. destruct (D2 Hc) as [->|H]; [by apply D1 | by right].
  - intros Hc. destruct (E2 Hc) as [->|H]; [by apply E1 | by right].
Qed.

Lemma cell_kept_present c old v :
  notna old = true -> c ∈ schema ->
  c <> "ride_id" -> c <> "rideable_type" -> c <> "member_casual" ->
  cell_kept c old v.
Proof.
  intros Hna Hc Hne1 Hne2 Hne3. split; [|split; [|split; [|split]]]; try done.
  unfold notna in Hna. intros H. rewrite H in Hna. discriminate.
Qed.

Lemma cell_kept_category c errors old v :
  notna old = true -> c ∈ schema -> c <> "ride_id" ->
  (c = "rideable_type" -> errors = rideable_errors) ->
  (c = "member_casual" -> errors = member_errors) ->
  v = old \/ misspelt errors v -> cell_kept c old v.
Proof.
  intros Hna Hc Hne H1 H2 Hv. split; [|split; [|split; [|split]]]; try done.
  - unfold notna in Hna. intros H. rewrite H in Hna. discriminate.
  - intros E. by rewrite <- (H1 E).
  - intros E. by rewrite <- (H2 E).
Qed.

Lemma first_containing_In errors s variants :
  first_containing errors s = Some variants ->
  exists e, e ∈ errors /\ variants = e.2.
Proof.
  induction errors as [|[c vs] l IH]; cbn [first_containing]; [discriminate|].
  destruct (py_contains c s).
  - intros [= <-]. exists (c, vs). split; [left | done].
  - intros (e & ? & ?)%IH. exists e. split; [by right | done].
Qed.

Lemma first_equal_lower_In errors s variants :
  first_equal_lower errors s = Some variants ->
  exists e, e ∈ errors /\ variants = e.2.
Proof.
  induction errors as [|[c vs] l IH]; cbn [first_equal_lower]; [discriminate|].
  destruct (String.eqb _ _).
  - intros [= <-]. exists (c, vs). split; [left | done].
  - intros (e & ? & ?)%IH. exists e. split; [by right | done].
Qed.

Lemma modify_rideable_type_misspelt self v w v' w' :
  modify_rideable_type self v w = Ok v' w' ->
  v' = v \/ misspelt rideable_errors v'.
Proof.
  unfold modify_rideable_type.
  destruct (isna v); [intros [<- _]%ret_Ok; by left|].
  intros (g & w1 & _ & H)%bind_Ok.
  destruct g; [|apply ret_Ok in H as [<- _]; by left].
  destruct v as [| |s|z|q]; try discriminate.
  destruct (first_containing rideable_errors s) as [variants|] eqn:E;
    [|apply ret_Ok in H as [<- _]; by left].
  apply bind_Ok in H as (t & w2 & Ht & [<- _]%ret_Ok).
  apply first_containing_In in E as (e & He & ->).
  right. exists e, t. split; [done|]. split; [|done]. by eapply random_choice_elem.
Qed.

Lemma modify_member_type_misspelt self v w v' w' :
  modify_member_type self v w = Ok v' w' ->
  v' = v \/ misspelt member_errors v'.
Proof.
  unfold modify_member_type.
  destruct (isna v); [intros [<- _]%ret_Ok; by left|].
  intros (g & w1 & _ & H)%bind_Ok.
  destruct g; [|apply ret_Ok in H as [<- _]; by left].
  destruct v as [| |s|z|q]; try discriminate.
  destruct (first_equal_lower member_errors s) as [variants|] eqn:E;
    [|apply ret_Ok in H as [<- _]; by left].
  apply bind_Ok in H as (t & w2 & Ht & [<- _]%ret_Ok).
  apply first_equal_lower_In in E as (e & He & ->).
  right. exists e, t. split; [done|]. split; [|done]. by eapply random_choice_elem.
Qed.

Lemma row_kept_refl cols row : row_kept cols row row.
Proof. intros c v Hv. exists v. split; [done | apply cell_kept_refl]. Qed.

Lemma row_kept_trans cols r1 r2 r3 :
  row_kept cols r1 r2 -> row_kept cols r2 r3 -> row_kept cols r1 r3.
Proof.
  intros H1 H2 c v Hv. destruct (H1 c v Hv) as (v2 & Hv2 & K1).
  destruct (H2 c v2 Hv2) as (v3 & Hv3 & K2). exists v3. split; [done|].
  by eapply cell_kept_trans.
Qed.

Lemma row_kept_at_set cols r c0 old v0 :
  lookup_col cols r c0 = Some old -> cell_kept c0 old v0 ->
  row_kept cols r (at_set cols r c0 v0).
Proof.
  intros Hold K c v Hv. unfold at_set. rewrite lookup_col_map_col.
  case_decide as E.
  - subst c. rewrite Hv. exists v0. split; [done|]. congruence.
  - exists v. split; [done | apply cell_kept_refl].
Qed.

Lemma row_kept_at_set2 cols r c1 c2 old1 old2 v1 v2 :
  c1 <> c2 ->
  lookup_col cols r c1 = Some old1 -> lookup_col cols r c2 = Some old2 ->
  cell_kept c1 old1 v1 -> cell_kept c2 old2 v2 ->
  row_kept cols r (at_set cols (at_set cols r c1 v1) c2 v2).
Proof.
  intros Hne H1 H2 K1 K2. eapply row_kept_trans.
  - by apply (row_kept_at_set cols r c1 old1 v1).
  - apply (row_kept_at_set _ _ c2 old2 v2); [|done].
    unfold at_set. rewrite lookup_col_map_col. by rewrite decide_False by done.
Qed.

Lemma at_get_inv cols r c w v w' :
  at_get cols r c w = Ok v w' -> lookup_col cols r c = Some v /\ w' = w.
Proof.
  unfold at_get. destruct (lookup_col cols r c); [|discriminate].
  by intros [<- <-]%ret_Ok.
Qed.

Lemma modify_ride_id_kept self v w v' w' :
  modify_ride_id self v w = Ok v' w' -> cell_kept "ride_id" v v'.
Proof.
  intros E. split; [|split; [|split; [|split]]]; try done.
  - intros Hna. unfold modify_ride_id in E. rewrite Hna in E.
    by apply ret_Ok in E as [<- _].
  - intros H. exfalso. apply H. apply list_elem_of_here.
  - intros _ s ->. exact (draws_to_inv _ _ _ _ _ (modify_ride_id_unspaced self s) E).
Qed.

Lemma modify_station_name_na self name sid w p w' :
  isna sid = true -> modify_station_name self name sid w = Ok p w' -> p = (name, sid).
Proof.
  intros Hna. unfold modify_station_name. rewrite Hna, orb_true_r.
  by intros [<- _]%ret_Ok.
Qed.

Lemma modify_coordinates_na self lat lng name sid w p w' :
  isna lng = true ->
  modify_coordinates self lat lng name sid w = Ok p w' -> p = (lat, lng).
Proof.
  intros Hna. unfold modify_coordinates. rewrite Hna, orb_true_r.
  by intros [<- _]%ret_Ok.
Qed.

Lemma cell_kept_second c old v :
  (isna old = true -> v = old) -> c ∈ schema ->
  c <> "ride_id" -> c <> "rideable_type" -> c <> "member_casual" ->
  cell_kept c old v.
Proof.
  intros H Hc Hne1 Hne2 Hne3. destruct (isna old) eqn:Hna.
  - rewrite H by done. apply cell_kept_refl.
  - apply cell_kept_present; try done. by unfold notna; rewrite Hna.
Qed.

Ltac schema_col := repeat first [apply list_elem_of_here | apply list_elem_of_further].

Lemma corrupt_row_kept self cols row w row' w' :
  corrupt_row self cols row w = Ok row' w' -> row_kept cols row row'.
Proof.
  unfold corrupt_row. intros H.
  apply bind_Ok in H as (ride_id & w1 & [L1 ->]%at_get_inv & H).
  apply bind_Ok in H as (new_id & w2 & E2 & H). cbv zeta in H.
  pose proof (row_kept_at_set _ _ _ _ _ L1 (modify_ride_id_kept _ _ _ _ _ E2)) as K1.
  revert K1 H. generalize (at_set cols row "ride_id" new_id). intros r1 K1 H.
  eapply row_kept_trans; [exact K1|]. clear K1 L1 E2.
  (* category *)
  apply bind_Ok in H as (rideable & w3 & [L ->]%at_get_inv & H).
  apply bind_Ok in H as (r2 & w4 & E & H).
  assert (row_kept cols r1 r2) as K.
  { destruct (notna rideable) eqn:Hna; [|apply ret_Ok in E as [<- _]; apply row_kept_refl].
    apply bind_Ok in E as (v & w5 & Ev & [<- _]%ret_Ok).
    apply (row_kept_at_set _ _ _ _ _ L).
    apply (cell_kept_category _ rideable_errors); try done; [schema_col|].
    exact (modify_rideable_type_misspelt _ _ _ _ _ Ev). }
  eapply row_kept_trans; [exact K|]. clear K L E r1.
  (* timestamps *)
  apply bind_Ok in H as (started & w5 & [L ->]%at_get_inv & H).
  apply bind_Ok in H as (r3 & w6 & E & H).
  assert (row_kept cols r2 r3) as K.
  { destruct (notna started) eqn:Hna; [|apply ret_Ok in E as [<- _]; apply row_kept_refl].
    apply bind_Ok in E as (ended & w7 & [L' ->]%at_get_inv & E).
    destruct (notna ended) eqn:Hna'; [|apply ret_Ok in E as [<- _]; apply row_kept_refl].
    apply bind_Ok in E as ([s e] & w8 & _ & [<- _]%ret_Ok).
    eapply row_kept_at_set2; [|exact L|exact L'| |]; [done|..];
      apply cell_kept_present; first [done | schema_col]. }
  eapply row_kept_trans; [exact K|]. clear K L E r2.
  (* start station *)
  apply bind_Ok in H as (start_name & w7 & [L ->]%at_get_inv & H).
  apply bind_Ok in H as (r4 & w8 & E & H).
  assert (row_kept cols r3 r4) as K.
  { destruct (notna start_name) eqn:Hna;
      [|apply ret_Ok in E as [<- _]; apply row_kept_refl].
    apply bind_Ok in E as (sid & w9 & [L' ->]%at_get_inv & E).
    apply bind_Ok in E as ([name station_id] & w10 & Em & [<- _]%ret_Ok).
    eapply row_kept_at_set2; [|exact L|exact L'| |]; [done|..].
    - apply cell_kept_present; first [done | schema_col].
    - apply cell_kept_second; [|schema_col|done..].
      intros Hsid. by injection (modify_station_name_na _ _ _ _ _ _ Hsid Em). }
  eapply row_kept_trans; [exact K|]. clear K L E r3.
  (* end station *)
  apply bind_Ok in H as (end_name & w9 & [L ->]%at_get_inv & H).
  apply bind_Ok in H as (r5 & w10 & E & H).
  assert (row_kept cols r4 r5) as K.
  { destruct (notna end_name) eqn:Hna;
      [|apply ret_Ok in E as [<- _]; apply row_kept_refl].
    apply bind_Ok in E as (eid & w11 & [L' ->]%at_get_inv & E).
    apply bind_Ok in E as ([name station_id] & w12 & Em & [<- _]%ret_Ok).
    eapply row_kept_at_set2; [|exact L|exact L'| |]; [done|..].
    - apply cell_kept_present; first [done | schema_col].
    - apply cell_kept_second; [|schema_col|done..].
      intros Hsid. by injection (modify_station_name_na _ _ _ _ _ _ Hsid Em). }
  eapply row_kept_trans; [exact K|]. clear K L E r4.
  (* start coordinates *)
  apply bind_Ok in H as (start_lat & w11 & [L ->]%at_get_inv & H).
  apply bind_Ok in H as (r6 & w12 & E & H).
  assert (row_kept cols r5 r6) as K.
  { destruct (notna start_lat) eqn:Hna;
      [|apply ret_Ok in E as [<- _]; apply row_kept_refl].
    apply bind_Ok in E as (start_lng & w13 & [L' ->]%at_get_inv & E).
    apply bind_Ok in E as (name & w14 & _ & E).
    apply bind_Ok in E as (sid & w15 & _ & E).
    apply bind_Ok in E as ([lat lng] & w16 & Em & [<- _]%ret_Ok).
    eapply row_kept_at_set2; [|exact L|exact L'| |]; [done|..].
    - apply cell_kept_present; first [done | schema_col].
    - apply cell_kept_second; [|schema_col|done..].
      intros Hlng. by injection (modify_coordinates_na _ _ _ _ _ _ _ _ Hlng Em). }
  eapply row_kept_trans; [exact K|]. clear K L E r5.
  (* end coordinates *)
  apply bind_Ok in H as (end_lat & w13 & [L ->]%at_get_inv & H).
  apply bind_Ok in H as (r7 & w14 & E & H).
  assert (row_kept cols r6 r7) as K.
  { destruct (notna end_lat) eqn:Hna;
      [|apply ret_Ok in E as [<- _]; apply row_kept_refl].
    apply bind_Ok in E as (end_lng & w15 & [L' ->]%at_get_inv & E).
    apply bind_Ok in E as (name & w16 & _ & E).
    apply bind_Ok in E as (eid & w17 & _ & E).
    apply bind_Ok in E as ([lat lng] & w18 & Em & [<- _]%ret_Ok).
    eapply row_kept_at_set2; [|exact L|exact L'| |]; [done|..].
    - apply cell_kept_present; first [done | schema_col].
    - apply cell_kept_second; [|schema_col|done..].
      intros Hlng. by injection (modify_coordinates_na _ _ _ _ _ _ _ _ Hlng Em). }
  eapply row_kept_trans; [exact K|]. clear K L E r6.
  (* rider class *)
  apply bind_Ok in H as (member & w15 & [L ->]%at_get_inv & H).
  destruct (notna member) eqn:Hna; [|apply ret_Ok in H as [<- _]; apply row_kept_refl].
  apply bind_Ok in H as (v & w16 & Ev & [<- _]%ret_Ok).
  apply (row_kept_at_set _ _ _ _ _ L).
  apply (cell_kept_category _ member_errors); try done; [schema_col|].
  exact (modify_member_type_misspelt _ _ _ _ _ Ev).
Qed.

Lemma mapM_Forall2 {A B} (f : A -> M B) (R : A -> B -> Prop) l w l' w' :
  (forall x w y w', f x w = Ok y w' -> R x y) ->
  mapM f l w = Ok l' w' -> Forall2 R l l'.
Proof.
  intros Hf. revert w l' w'. induction l as [|x l IH]; intros w l' w'; cbn [mapM].
  - intros [<- _]%ret_Ok. constructor.
  - intros (y & w1 & Ey & (ys & w2 & Eys & [<- _]%ret_Ok)%bind_Ok)%bind_Ok.
    constructor; [by eapply Hf | by eapply IH].
Qed.

Lemma cell_map_col f cols c0 rs i c :
  cell (mkDataFrame cols (map (map_col f cols c0) rs)) i c
  = if decide (c = c0) then f <$> cell (mkDataFrame cols rs) i c
    else cell (mkDataFrame cols rs) i c.
Proof.
  unfold cell. cbn [rows columns].
  change (map (map_col f cols c0) rs) with (map_col f cols c0 <$> rs).
  rewrite list_lookup_fmap. destruct (rs !! i) as [row|]; cbn; [|by case_decide].
  apply lookup_col_map_col.
Qed.

Lemma is_id_column_spec c :
  is_id_column c = true
  <-> c = "ride_id" \/ c = "start_station_id" \/ c = "end_station_id".
Proof.
  unfold is_id_column. rewrite !orb_true_iff, !String.eqb_eq. tauto.
Qed.

Lemma introduce_errors_cells self df w T :
  frames w !! df = Some T -> trips_table T = true ->
  (0 <= max_empty_percentage self <= 1)%Q -> wf_registry w ->
  exists w' T',
    introduce_errors self df w = Ok (length (frames w)) w'
    /\ frames w' !! length (frames w) = Some T'
    /\ forall i c v, cell T i c = Some v ->
         exists v1 v', cell T' i c = Some v'
                       /\ cell_passed c v v1 /\ cell_kept c v1 v'.
Proof.
  intros HT Htrips Hf Hw. rewrite (introduce_errors_unfold _ _ _ _ HT).
  destruct (trips_table_spec _ Htrips) as [Hwf Hty].
  set (w0 := mkWorld (station_variants w) (tape w) (frames w ++ [T])).
  assert (wf_registry w0) as Hw0 by exact Hw.
  destruct (corrupt_total self T Hwf Hty Hf w0 Hw0) as (T' & w1 & E & _ & _ & Hframes).
  rewrite E. exists (mkWorld (station_variants w1) (tape w1)
                      (<[length (frames w):=T']> (frames w1))), T'.
  split; [reflexivity|]. split.
  { cbn [frames]. apply list_lookup_insert_eq. rewrite Hframes. unfold w0. cbn [frames].
    rewrite length_app. cbn. lia. }
  unfold corrupt in E.
  apply bind_Ok in E as (d1 & wa & Einj & E).
  apply bind_Ok in E as (d2 & wb & Eas & E).
  apply bind_Ok in E as (rows' & wc & Emap & [<- _]%ret_Ok).
  destruct (inject_fold self T (num_empty_range self _ Hf) (columns T) (proj1 Hwf) T w0)
    as (d1' & wa' & Einj' & _ & _ & _ & Hcells).
  unfold inject_missing in Einj. rewrite Einj' in Einj. injection Einj as -> ->.
  unfold id_columns in Eas. cbn [foldM] in Eas.
  apply bind_Ok in Eas as (da & w2 & Ea & Eas).
  apply bind_Ok in Eas as (db & w3 & Eb & [<- _]%ret_Ok).
  unfold astype_str in Ea.
  destruct (bool_decide ("start_station_id" ∈ columns d1)); [|discriminate].
  apply ret_Ok in Ea as [<- _].
  unfold astype_str in Eb. cbn [columns rows] in Eb.
  destruct (bool_decide ("end_station_id" ∈ columns d1)); [|discriminate].
  apply ret_Ok in Eb as [<- _]. cbn [columns rows] in Emap |- *.
  pose proof (mapM_Forall2 _ (row_kept (columns d1)) _ _ _ _
                (corrupt_row_kept self (columns d1)) Emap) as HF.
  intros i c v Hv.
  assert (exists v1, cell_passed c v v1
            /\ cell (mkDataFrame (columns d1)
                       (map (map_col (fun v => PStr (py_str v)) (columns d1)
                               "end_station_id")
                          (map (map_col (fun v => PStr (py_str v)) (columns d1)
                                  "start_station_id") (rows d1)))) i c = Some v1)
    as (v1 & Hpass & Hv1).
  { rewrite !cell_map_col. replace (mkDataFrame (columns d1) (rows d1)) with d1
      by (by destruct d1).
    destruct (Hcells c) as [Hu He]. unfold cell_passed.
    destruct (is_id_column c) eqn:Hid.
    - rewrite (Hu (or_intror eq_refl) i), Hv.
      apply is_id_column_spec in Hid as [->|[->| ->]].
      + exists v. split; [by rewrite bool_decide_eq_false_2 by
                            (intros H; repeat (apply elem_of_cons in H as [H|H];
                               [discriminate|]); by apply not_elem_of_nil in H)|].
        by rewrite !decide_False by done.
      + exists (PStr (py_str v)).
        split; [by rewrite bool_decide_eq_true_2 by apply list_elem_of_here|].
        by rewrite decide_False, decide_True by done.
      + exists (PStr (py_str v)).
        split; [by rewrite bool_decide_eq_true_2 by
                  apply list_elem_of_further, list_elem_of_here|].
        by rewrite decide_True, decide_False by done.
    - assert (c <> "start_station_id" /\ c <> "end_station_id") as [N1 N2].
      { split; intros ->; discriminate. }
      rewrite !decide_False by done.
      destruct (decide (c ∈ columns T)) as [Hin|Hout].
      + destruct (He Hin eq_refl) as (l & _ & _ & _ & _ & _ & _ & Hl). rewrite Hl, Hv.
        destruct (decide (i ∈ l)); eauto.
      + rewrite (Hu (or_introl Hout) i), Hv. eauto. }
  exists v1. revert Hv1. unfold cell at 1. cbn [rows columns].
  destruct (_ !! i) as [row|] eqn:Hrow; [|discriminate]. cbn. intros Hcol.
  destruct (Forall2_lookup_l _ _ _ _ _ HF Hrow) as (row' & Hrow' & Hkept).
  destruct (Hkept c v1 Hcol) as (v' & Hv' & Hk).
  exists v'. split; [|done]. unfold cell. cbn [rows columns]. by rewrite Hrow'.
Qed.

(** X13. Ride identifiers survive [introduce_errors]: on a table of trips
    the call returns a table in which every identifier of ASCII text of the
    column [ride_id] is the one of the input up to spaces and letter
    case. *)
Theorem ride_ids_recoverable self df w T :
  frames w !! df = Some T -> trips_table T = true ->
  (0 <= max_empty_percentage self <= 1)%Q -> wf_registry w ->
  exists w' T',
    introduce_errors self df w = Ok (length (frames w)) w'
    /\ frames w' !! length (frames w) = Some T'
    /\ forall i s, cell T i "ride_id" = Some (PStr s) -> is_ascii s = true ->
         exists s', cell T' i "ride_id" = Some (PStr s')
                    /\ unspaced_upper s' = unspaced_upper s.
Proof.
  intros HT Htrips Hf Hw.
  destruct (introduce_errors_cells self df w T HT Htrips Hf Hw)
    as (w' & T' & E & HT' & Hcells).
  exists w', T'. split; [exact E|]. split; [exact HT'|].
  intros i s Hs _. destruct (Hcells i _ _ Hs) as (v1 & v' & Hv' & Hp & _ & _ & Hk & _).
  unfold cell_passed in Hp. cbn in Hp. subst v1.
  destruct (Hk eq_refl s eq_refl) as (s' & -> & Hs'). by exists s'.
Qed.

(** X14. [introduce_errors] fills in no missing value: on a table of trips
    the call returns a table in which every cell that was missing in the
    input, outside the two station identifier columns, is still
    missing. *)
Theorem missing_stays_missing self df w T :
  frames w !! df = Some T -> trips_table T = true ->
  (0 <= max_empty_percentage self <= 1)%Q -> wf_registry w ->
  exists w' T',
    introduce_errors self df w = Ok (length (frames w)) w'
    /\ frames w' !! length (frames w) = Some T'
    /\ forall i c v, c ∉ id_columns -> cell T i c = Some v -> isna v = true ->
         exists v', cell T' i c = Some v' /\ isna v' = true.
Proof.
  intros HT Htrips Hf Hw.
  destruct (introduce_errors_cells self df w T HT Htrips Hf Hw)
    as (w' & T' & E & HT' & Hcells).
  exists w', T'. split; [exact E|]. split; [exact HT'|].
  intros i c v Hc Hv Hna. destruct (Hcells i _ _ Hv) as (v1 & v' & Hv' & Hp & Hk & _).
  exists v'. split; [exact Hv'|].
  assert (isna v1 = true) as Hna1.
  { unfold cell_passed in Hp. destruct (is_id_column c).
    - rewrite bool_decide_eq_false_2 in Hp by done. by subst.
    - by destruct Hp as [-> | ->]. }
  by rewrite (Hk Hna1).
Qed.

(** X15. Columns the engine does not know are kept or emptied, nothing
    else: on a table of trips, [introduce_errors] returns a table in which
    every cell of a column outside the thirteen of the schema is missing,
    or holds its input value, or the float of it where the input value is
    an integer. *)
Theorem unknown_columns_kept_or_emptied self df w T :
  frames w !! df = Some T -> trips_table T = true ->
  (0 <= max_empty_percentage self <= 1)%Q -> wf_registry w ->
  exists w' T',
    introduce_errors self df w = Ok (length (frames w)) w'
    /\ frames w' !! length (frames w) = Some T'
    /\ forall i c v, c ∉ schema -> cell T i c = Some v ->
         exists v', cell T' i c = Some v' /\ (isna v' = true \/ retyped v v').
Proof.
  intros HT Htrips Hf Hw.
  destruct (introduce_errors_cells self df w T HT Htrips Hf Hw)
    as (w' & T' & E & HT' & Hcells).
  exists w', T'. split; [exact E|]. split; [exact HT'|].
  intros i c v Hc Hv. destruct (Hcells i _ _ Hv) as (v1 & v' & Hv' & Hp & _ & Hk & _).
  exists v'. split; [exact Hv'|]. rewrite (Hk Hc). unfold cell_passed in Hp.
  assert (is_id_column c = false) as Hid.
  { destruct (is_id_column c) eqn:Hid; [|done]. exfalso. apply Hc.
    apply is_id_column_spec in Hid as [->|[->| ->]]; schema_col. }
  rewrite Hid in Hp. destruct Hp as [-> | ->]; [right; by left | by left].
Qed.

Lemma ride_ids_recoverable_witness :
  exists w' T',
    introduce_errors main_generator 0 (fresh_world [] [noted_table]) = Ok 1%nat w'
    /\ frames w' !! 1%nat = Some T'
    /\ forall i s, cell noted_table i "ride_id" = Some (PStr s) ->
         is_ascii s = true ->
         exists s', cell T' i "ride_id" = Some (PStr s')
                    /\ unspaced_upper s' = unspaced_upper s.
Proof.
  apply (ride_ids_recoverable main_generator 0 (fresh_world [] [noted_table])
           noted_table).
  - reflexivity.
  - vm_compute. reflexivity.
  - exact main_fraction.
  - apply fresh_world_wf.
Defined.

Lemma missing_stays_missing_witness :
  exists w' T',
    introduce_errors main_generator 0 (fresh_world [] [noted_table]) = Ok 1%nat w'
    /\ frames w' !! 1%nat = Some T'
    /\ forall i c v, c ∉ id_columns -> cell noted_table i c = Some v ->
         isna v = true ->
         exists v', cell T' i c = Some v' /\ isna v' = true.
Proof.
  apply (missing_stays_missing main_generator 0 (fresh_world [] [noted_table])
           noted_table).
  - reflexivity.
  - vm_compute. reflexivity.
  - exact main_fraction.
  - apply fresh_world_wf.
Defined.

Lemma unknown_columns_kept_or_emptied_witness :
  exists w' T',
    introduce_errors main_generator 0 (fresh_world [] [noted_table]) = Ok 1%nat w'
    /\ frames w' !! 1%nat = Some T'
    /\ forall i c v, c ∉ schema -> cell noted_table i c = Some v ->
         exists v', cell T' i c = Some v' /\ (isna v' = true \/ retyped v v').
Proof.
  apply (unknown_columns_kept_or_emptied main_generator 0
           (fresh_world [] [noted_table]) noted_table).
  - reflexivity.
  - vm_compute. reflexivity.
  - exact main_fraction.
  - apply fresh_world_wf.
Defined.

(** ** Reformatted timestamps *)

Ltac read_back FY Fm Fd FH FM FS :=
  repeat match goal with
    | |- regex_match (TLit _ :: _) _ _ = _ => rewrite regex_match_lit
    | |- regex_match (TSpaces :: _) _ _ = _ =>
        rewrite regex_match_space
          by (eapply space_rests_field, field_ok_range; [exact FH | lia])
    | |- regex_match (TDir _ :: _) _ _ = _ =>
        eapply regex_match_field;
          [ eapply field_ok_range;
            [ match goal with
              | |- fields_ok "Y" _ _ _ = _ => exact FY
              | |- fields_ok "m" _ _ _ = _ => exact Fm
              | |- fields_ok "d" _ _ _ = _ => exact Fd
              | |- fields_ok "H" _ _ _ = _ => exact FH
              | |- fields_ok "M" _ _ _ = _ => exact FM
              | |- fields_ok "S" _ _ _ = _ => exact FS
              end
            | lia ] |]
    end;
  reflexivity.

Lemma strptime_strftime_alternate dt fmt :
  valid_datetime dt = true -> 1000 <= year dt -> In fmt alternate_formats ->
  strptime (strftime dt fmt) fmt = Some dt.
Proof.
  intros Hv Hy Hfmt.
  pose proof (valid_datetime_ranges _ Hv) as (Y & Mo & D & Hh & Mi & S).
  unfold alternate_formats, formats in Hfmt. cbn [fmap list_fmap fst] in Hfmt.
  assert (fields_ok "Y" 4 1000 9999 = true) as FY by (vm_compute; reflexivity).
  assert (fields_ok "m" 2 1 12 = true) as Fm by (vm_compute; reflexivity).
  assert (fields_ok "d" 2 1 31 = true) as Fd by (vm_compute; reflexivity).
  assert (fields_ok "H" 2 0 23 = true) as FH by (vm_compute; reflexivity).
  assert (fields_ok "M" 2 0 59 = true) as FM by (vm_compute; reflexivity).
  assert (fields_ok "S" 2 0 59 = true) as FS by (vm_compute; reflexivity).
  unfold strptime.
  assert (regex_match (tokens fmt) (strftime dt fmt) (mkDatetime 1900 1 1 0 0 0)
          = Some dt) as ->; [|cbn [mbind option_bind]; by rewrite Hv].
  clear Hv. destruct dt as [y m d h mi s]. cbn [year month day hour minute second] in *.
  destruct Hfmt as [<-|[<-|[<-|[<-|[]]]]].
  - change (tokens "%Y/%m/%d %H:%M:%S")
      with [TDir "Y"; TLit "/"; TDir "m"; TLit "/"; TDir "d"; TSpaces;
            TDir "H"; TLit ":"; TDir "M"; TLit ":"; TDir "S"].
    change (strftime (mkDatetime y m d h mi s) "%Y/%m/%d %H:%M:%S")
      with (zfill 4 y +:+ String "/" (zfill 2 m +:+ String "/" (zfill 2 d
            +:+ String " " (zfill 2 h +:+ String ":" (zfill 2 mi
            +:+ String ":" (zfill 2 s +:+ "")))))).
    read_back FY Fm Fd FH FM FS.
  - change (tokens "%Y%m%d %H:%M:%S")
      with [TDir "Y"; TDir "m"; TDir "d"; TSpaces;
            TDir "H"; TLit ":"; TDir "M"; TLit ":"; TDir "S"].
    change (strftime (mkDatetime y m d h mi s) "%Y%m%d %H:%M:%S")
      with (zfill 4 y +:+ (zfill 2 m +:+ (zfill 2 d
            +:+ String " " (zfill 2 h +:+ String ":" (zfill 2 mi
            +:+ String ":" (zfill 2 s +:+ "")))))).
    read_back FY Fm Fd FH FM FS.
  - change (tokens "%Y-%m-%d %H%M%S")
      with [TDir "Y"; TLit "-"; TDir "m"; TLit "-"; TDir "d"; TSpaces;
            TDir "H"; TDir "M"; TDir "S"].
    change (strftime (mkDatetime y m d h mi s) "%Y-%m-%d %H%M%S")
      with (zfill 4 y +:+ String "-" (zfill 2 m +:+ String "-" (zfill 2 d
            +:+ String " " (zfill 2 h +:+ (zfill 2 mi +:+ (zfill 2 s +:+ "")))))).
    read_back FY Fm Fd FH FM FS.
  - change (tokens "%Y-%m-%d-%H-%M-%S")
      with [TDir "Y"; TLit "-"; TDir "m"; TLit "-"; TDir "d"; TLit "-";
            TDir "H"; TLit "-"; TDir "M"; TLit "-"; TDir "S"].
    change (strftime (mkDatetime y m d h mi s) "%Y-%m-%d-%H-%M-%S")
      with (zfill 4 y +:+ String "-" (zfill 2 m +:+ String "-" (zfill 2 d
            +:+ String "-" (zfill 2 h +:+ String "-" (zfill 2 mi
            +:+ String "-" (zfill 2 s +:+ "")))))).
    read_back FY Fm Fd FH FM FS.
Qed.

(** X16. The reformatting loses nothing: on a timestamp that reads in the
    base format (from the year 1000 on), [_format_datetime] always returns
    a text that reads back, in one of the four other formats, as the same
    date and time. *)
Theorem reformatted_reads_back s dt :
  strptime s base_datetime_format = Some dt -> 1000 <= year dt ->
  draws_to (format_datetime (PStr s))
    (fun v => exists fmt t, In fmt alternate_formats /\ v = PStr t
                            /\ strptime t fmt = Some dt).
Proof.
  intros Hs Hy. unfold format_datetime. cbn [strptime_val]. rewrite Hs.
  eapply draws_to_bind; [apply (random_choice_total formats); discriminate|].
  intros [chosen_format transformer] Hin. apply draws_to_ret.
  assert (In chosen_format alternate_formats) as Hfmt.
  { apply list_elem_of_In. unfold alternate_formats.
    change chosen_format with (chosen_format, transformer).1.
    by apply list_elem_of_fmap_2. }
  exists chosen_format, (strftime dt chosen_format). split; [exact Hfmt|].
  split; [done|]. apply strptime_strftime_alternate; [|done|done].
  eapply strptime_valid, Hs.
Qed.

Lemma reformatted_reads_back_witness :
  draws_to (format_datetime (PStr "2024-01-05 10:00:00"))
    (fun v => exists fmt t, In fmt alternate_formats /\ v = PStr t
                            /\ strptime t fmt = Some (mkDatetime 2024 1 5 10 0 0)).
Proof.
  apply (reformatted_reads_back "2024-01-05 10:00:00" (mkDatetime 2024 1 5 10 0 0)).
  - vm_compute. reflexivity.
  - simpl. lia.
Defined.

(** X17. The two categorical columns hold nothing new but misspellings:
    on a table of trips, [introduce_errors] returns a table in which every
    cell of [rideable_type] is its input value, [None], or one of the
    eight misspellings of the bike types, and every cell of
    [member_casual] is its input value, [None], or one of the eight
    misspellings of the rider classes. *)
Theorem categories_kept_or_misspelt self df w T :
  frames w !! df = Some T -> trips_table T = true ->
  (0 <= max_empty_percentage self <= 1)%Q -> wf_registry w ->
  exists w' T',
    introduce_errors self df w = Ok (length (frames w)) w'
    /\ frames w' !! length (frames w) = Some T'
    /\ (forall i v, cell T i "rideable_type" = Some v ->
          exists v', cell T' i "rideable_type" = Some v'
                     /\ (v' = v \/ v' = PNone \/ misspelt rideable_errors v'))
    /\ (forall i v, cell T i "member_casual" = Some v ->
          exists v', cell T' i "member_casual" = Some v'
                     /\ (v' = v \/ v' = PNone \/ misspelt member_errors v')).
Proof.
  intros HT Htrips Hf Hw.
  destruct (introduce_errors_cells self df w T HT Htrips Hf Hw)
    as (w' & T' & E & HT' & Hcells).
  exists w', T'. split; [exact E|]. split; [exact HT'|]. split.
  - intros i v Hv.
    destruct (Hcells i _ _ Hv) as (v1 & v' & Hv' & Hp & Hna & _ & _ & Hk & _).
    exists v'. split; [exact Hv'|]. unfold cell_passed in Hp. cbn in Hp.
    destruct Hp as [-> | ->].
    + destruct (Hk eq_refl) as [-> | H]; auto.
    + right. left. by apply Hna.
  - intros i v Hv.
    destruct (Hcells i _ _ Hv) as (v1 & v' & Hv' & Hp & Hna & _ & _ & _ & Hk).
    exists v'. split; [exact Hv'|]. unfold cell_passed in Hp. cbn in Hp.
    destruct Hp as [-> | ->].
    + destruct (Hk eq_refl) as [-> | H]; auto.
    + right. left. by apply Hna.
Qed.

Lemma categories_kept_or_misspelt_witness :
  exists w' T',
    introduce_errors main_generator 0 (fresh_world [] [noted_table]) = Ok 1%nat w'
    /\ frames w' !! 1%nat = Some T'
    /\ (forall i v, cell noted_table i "rideable_type" = Some v ->
          exists v', cell T' i "rideable_type" = Some v'
                     /\ (v' = v \/ v' = PNone \/ misspelt rideable_errors v'))
    /\ (forall i v, cell noted_table i "member_casual" = Some v ->
          exists v', cell T' i "member_casual" = Some v'
                     /\ (v' = v \/ v' = PNone \/ misspelt member_errors v')).
Proof.
  apply (categories_kept_or_misspelt main_generator 0
           (fresh_world [] [noted_table]) noted_table).
  - reflexivity.
  - vm_compute. reflexivity.
  - exact main_fraction.
  - apply fresh_world_wf.
Defined.
